(** * Sliding-window Euclidean distances (cuseries.ED): a shallow embedding

    The Python sources [cuseries/ED/__init__.py], [stream_dists_helpers.py],
    [stream_dists_fft.py] and [stream_dists_kernels.py] are embedded in
    exact arithmetic: an array element is a real number, a rank-1 array is
    a [list R], and a Python exception is the left summand of a result.
    The library calls of cupy keep their documented meaning (slicing,
    broadcasting, [cumsum], [diff], [mean], [std], [rfft], [irfft]).
    The synthetic series of [rapidAligner/util/Loader.py], the test input
    of the distances, is embedded the same way.  Where a claim turns on
    rounding, the direct path of the normalised distance is evaluated in
    binary64 as well ([Binary64]). *)

From Stdlib Require Import Floats.
From Stdlib Require Import String.
From Stdlib Require Import Reals Lra Lia List Arith ZArith Bool.
Import ListNotations.
Open Scope R_scope.
Set Warnings "-inexact-float".

(** ** Exceptions and the result monad *)

Inductive exn : Set :=
| AssertionError
| ValueError
| ZeroDivisionError.

Definition py (A : Type) : Type := (exn + A)%type.

Definition ret {A : Type} (a : A) : py A := inr a.
Definition raise {A : Type} (e : exn) : py A := inl e.

Definition bind {A B : Type} (c : py A) (k : A -> py B) : py B :=
  match c with
  | inl e => inl e
  | inr a => k a
  end.

Definition assert (b : bool) : py unit :=
  if b then ret tt else raise AssertionError.

Declare Scope py_scope.
Delimit Scope py_scope with py.
Notation "x <- c ;; k" := (bind c (fun x => k))
  (at level 61, c at next level, right associativity) : py_scope.
Notation "c ;;; k" := (bind c (fun _ => k))
  (at level 61, right associativity) : py_scope.
Open Scope py_scope.

(** ** Decidable tests on reals, as the conditionals of the code use them *)

Definition Rgtb (x y : R) : bool := if Rlt_dec y x then true else false.
Definition Rnonzero (x : R) : bool := if Req_dec_T x 0 then false else true.

(** Python's builtin [max(a, b)]: [a] unless [b > a]. *)
Definition py_max (a b : R) : R := if Rlt_dec a b then b else a.

(** [bigsum f n = f 0 + ... + f (n-1)] *)
Fixpoint bigsum (f : nat -> R) (n : nat) : R :=
  match n with
  | O => 0
  | S n' => bigsum f n' + f n'
  end.

(** ** Arrays *)

Inductive dtype : Set := float32 | float64.

Definition dtype_eqb (a b : dtype) : bool :=
  match a, b with
  | float32, float32 | float64, float64 => true
  | _, _ => false
  end.

(** A cupy array: element type, shape and the flat data. *)
Record ndarray : Type := mk_ndarray {
  arr_dtype : dtype;
  arr_shape : list nat;
  arr_data : list R
}.

Definition array1 (dt : dtype) (l : list R) : ndarray :=
  mk_ndarray dt [length l] l.

(** ** The numpy operations the sources call *)
Module Np.

Definition zeros (n : nat) : list R := repeat 0 n.

Definition sum (l : list R) : R := fold_right Rplus 0 l.

Definition square (l : list R) : list R := map (fun v => v * v) l.

Definition abs (l : list R) : list R := map Rabs l.

Fixpoint zip_with (f : R -> R -> R) (a b : list R) : list R :=
  match a, b with
  | x :: a', y :: b' => f x y :: zip_with f a' b'
  | _, _ => []
  end.

(** Elementwise operation on two rank-1 arrays with numpy's
    broadcasting: equal lengths, or one of them of length one. *)
Definition broadcast2 (f : R -> R -> R) (a b : list R) : py (list R) :=
  if Nat.eqb (length a) (length b) then ret (zip_with f a b)
  else if Nat.eqb (length a) 1 then ret (map (f (hd 0 a)) b)
  else if Nat.eqb (length b) 1 then ret (map (fun x => f x (hd 0 b)) a)
  else raise ValueError.

(** [a[:stop]] for an integer [stop], negative counted from the end. *)
Definition slice_to (stop : Z) (a : list R) : list R :=
  let len := Z.of_nat (length a) in
  let stop' := if (stop <? 0)%Z then Z.max 0 (stop + len) else Z.min stop len in
  firstn (Z.to_nat stop') a.

(** [a[start:]] for an integer [start], negative counted from the end. *)
Definition slice_from (start : Z) (a : list R) : list R :=
  let len := Z.of_nat (length a) in
  let start' := if (start <? 0)%Z then Z.max 0 (start + len) else Z.min start len in
  skipn (Z.to_nat start') a.

(** [dst[:len(src)] = src]: the slice of [dst] is cut at its end, and the
    value is broadcast to the slice. *)
Definition set_prefix (dst src : list R) : py (list R) :=
  if Nat.leb (length src) (length dst)
  then ret (src ++ skipn (length src) dst)
  else if Nat.eqb (length src) 1 then ret dst
  else raise ValueError.

(** [cumsum]: inclusive running sum. *)
Fixpoint cumsum_from (acc : R) (x : list R) : list R :=
  match x with
  | [] => []
  | v :: x' => (acc + v) :: cumsum_from (acc + v) x'
  end.

Definition cumsum (x : list R) : list R := cumsum_from 0 x.

(** [diff(y)[i] = y[i+1] - y[i]]. *)
Fixpoint diff (y : list R) : list R :=
  match y with
  | a :: ((b :: _) as y') => (b - a) :: diff y'
  | _ => []
  end.

(** [max] of an array; a reduction without identity, so it raises on
    an array without elements. *)
Definition max (l : list R) : py R :=
  match l with
  | [] => raise ValueError
  | v :: l' => ret (fold_left Rmax l' v)
  end.

Definition mean (x : list R) : R := sum x / INR (length x).

(** [std(x, ddof)]: the root of the mean squared deviation, the
    divisor being [len(x) - ddof]. *)
Definition var (x : list R) (ddof : nat) : R :=
  sum (square (map (fun v => v - mean x) x)) / (INR (length x) - INR ddof).

Definition std (x : list R) (ddof : nat) : R := sqrt (var x ddof).

End Np.

(** ** stream_dists_helpers.py *)

(** [cumsum(x, Kahan)]: exclusive prefix sum with [Kahan] refinement rounds. *)
Fixpoint cumsum (x : list R) (Kahan : nat) : py (list R) :=
  let y := 0 :: Np.cumsum x in
  match Kahan with
  | O => ret y
  | S Kahan' =>
      r <- Np.broadcast2 Rminus x (Np.diff y) ;;
      mx <- Np.max (Np.abs r) ;;
      if Rnonzero mx
      then c <- cumsum r Kahan' ;; Np.broadcast2 Rplus y c
      else ret y
  end.

Definition mnorm (x : list R) : list R :=
  map (fun v => v - Np.mean x) x.

Definition znorm (x : list R) (epsilon : R) : list R :=
  map (fun v => (v - Np.mean x) / py_max (Np.std x 0) epsilon) x.

(** ** The real transforms of cupy.fft

    A complex number is a pair of reals.  [rfft] is the discrete Fourier
    transform of a real array restricted to the frequencies [0 .. n/2];
    [irfft] inverts it from that half spectrum, every frequency but the
    first and (for even [n]) the last standing for itself and for its
    conjugate mirror. *)
Module Fft.

Definition C : Type := (R * R)%type.

Definition re (z : C) : R := fst z.
Definition im (z : C) : R := snd z.
Definition cadd (a b : C) : C := (re a + re b, im a + im b).
Definition cmul (a b : C) : C :=
  (re a * re b - im a * im b, re a * im b + im a * re b).
Definition cconj (a : C) : C := (re a, - im a).
Definition cscale (x : R) (a : C) : C := (x * re a, x * im a).
Definition cis (t : R) : C := (cos t, sin t).

Fixpoint cbigsum (f : nat -> C) (n : nat) : C :=
  match n with
  | O => (0, 0)
  | S n' => cadd (cbigsum f n') (f n')
  end.

Definition angle (n f j : nat) : R := 2 * PI * INR f * INR j / INR n.

(** The coefficient of frequency [f] of the transform of [x]. *)
Definition dft (x : list R) (n f : nat) : C :=
  cbigsum (fun j => cscale (nth j x 0) (cis (- angle n f j))) n.

Definition rfft (x : list R) : py (list C) :=
  let n := length x in
  if Nat.eqb n 0 then raise ValueError
  else ret (map (dft x n) (seq 0 (n / 2 + 1))).

Definition conj (X : list C) : list C := map cconj X.

Fixpoint mul (X Y : list C) : list C :=
  match X, Y with
  | a :: X', b :: Y' => cmul a b :: mul X' Y'
  | _, _ => []
  end.

Definition weight (n f : nat) : R :=
  if Nat.eqb f 0 then 1 else if Nat.eqb (2 * f) n then 1 else 2.

Definition irfft (X : list C) (n : nat) : py (list R) :=
  if Nat.eqb n 0 then raise ValueError
  else ret (map (fun k =>
                   bigsum (fun f =>
                             weight n f *
                             re (cmul (nth f X (0, 0)) (cis (angle n f k))))
                          (n / 2 + 1) / INR n)
                (seq 0 n)).

End Fft.

(** ** stream_dists_fft.py *)

(** [len(a)] of a rank-1 array. *)
Definition len (a : ndarray) : nat := length (arr_data a).

(** [(len_S + alignment - 1) // alignment * alignment] *)
Definition pad_length (len_S alignment : nat) : py nat :=
  if Nat.eqb alignment 0 then raise ZeroDivisionError
  else ret ((len_S + alignment - 1) / alignment * alignment)%nat.

(** [irfft(rfft(E).conj() * rfft(iS), n=n)] *)
Definition correlate (E iS : list R) (n : nat) : py (list R) :=
  fE <- Fft.rfft E ;;
  fS <- Fft.rfft iS ;;
  Fft.irfft (Fft.mul (Fft.conj fE) fS) n.

(** [X[+m:] - X[:-m]] *)
Definition windowed (X : list R) (m : nat) : py (list R) :=
  Np.broadcast2 Rminus (Np.slice_from (Z.of_nat m) X)
                       (Np.slice_to (- Z.of_nat m) X).

Definition fft_sdist (Q S : ndarray) (alignment Kahan : nat) : py (list R) :=
  assert (dtype_eqb (arr_dtype Q) (arr_dtype S)) ;;;
  let m := len Q in
  n <- pad_length (len S) alignment ;;
  iS <- Np.set_prefix (Np.zeros n) (arr_data S) ;;
  Y <- cumsum (Np.square iS) Kahan ;;
  Y <- windowed Y m ;;
  E <- Np.set_prefix (Np.zeros n) (arr_data Q) ;;
  R <- correlate E iS n ;;
  let sumsq := Np.sum (Np.square (arr_data Q)) in
  D <- Np.broadcast2 Rplus
         (map (fun r => sumsq - 2 * r) (Np.slice_to (- Z.of_nat m + 1) R)) Y ;;
  ret (Np.slice_to (Z.of_nat (len S) - Z.of_nat m + 1) D).

Definition fft_mdist (Q S : ndarray) (alignment Kahan : nat) : py (list R) :=
  let m := len Q in
  let Q := mnorm (arr_data Q) in
  n <- pad_length (len S) alignment ;;
  iS <- Np.set_prefix (Np.zeros n) (arr_data S) ;;
  X <- cumsum iS Kahan ;;
  Y <- cumsum (Np.square iS) Kahan ;;
  X <- windowed X m ;;
  Y <- windowed Y m ;;
  XX <- Np.broadcast2 Rmult X X ;;
  Z <- Np.broadcast2 Rminus Y (map (fun v => v / INR m) XX) ;;
  E <- Np.set_prefix (Np.zeros n) Q ;;
  R <- correlate E iS n ;;
  let sumsq := Np.sum (Np.square Q) in
  D <- Np.broadcast2 Rplus
         (map (fun r => sumsq - 2 * r) (Np.slice_to (- Z.of_nat m + 1) R)) Z ;;
  ret (Np.slice_to (Z.of_nat (len S) - Z.of_nat m + 1) D).

Definition fft_zdist (Q S : ndarray) (epsilon : R) (alignment Kahan : nat)
  : py (list R) :=
  assert (Rgtb epsilon 0) ;;;
  let m := len Q in
  let Q := znorm (arr_data Q) epsilon in
  n <- pad_length (len S) alignment ;;
  iS <- Np.set_prefix (Np.zeros n) (arr_data S) ;;
  X <- cumsum iS Kahan ;;
  Y <- cumsum (Np.square iS) Kahan ;;
  X <- windowed X m ;;
  Y <- windowed Y m ;;
  V <- Np.broadcast2 Rminus (map (fun v => v / INR m) Y)
                            (Np.square (map (fun v => v / INR m) X)) ;;
  let Z := map (fun v => sqrt (Rmax v 0)) V in
  E <- Np.set_prefix (Np.zeros n) Q ;;
  R <- correlate E iS n ;;
  RZ <- Np.broadcast2 Rdiv (Np.slice_to (- Z.of_nat m + 1) R) Z ;;
  (* where(Z > 0, 2*(m - R[:-m+1]/Z), m*ones_like(Z)): the third operand
     is the constant m in the shape of Z *)
  F <- Np.broadcast2 (fun z a => if Rgtb z 0 then a else INR m)
         Z (map (fun v => 2 * (INR m - v)) RZ) ;;
  ret (Np.slice_to (Z.of_nat (len S) - Z.of_nat m + 1) F).

(** ** stream_dists_kernels.py

    A warp is 32 lanes running in lockstep; a per-lane variable of the
    kernel is the list of its 32 values, lane by lane. *)
Module Cuda.

Definition lanes : list nat := seq 0 32.

(** [shfl_down_sync(0xFFFFFFFF, v, delta)]: a lane reads the value of
    the lane [delta] above it, and its own one beyond the warp. *)
Definition shfl_down_sync (v : list R) (delta : nat) : list R :=
  map (fun lane => if Nat.ltb (lane + delta) 32
                   then nth (lane + delta) v 0 else nth lane v 0) lanes.

(** [shfl_xor_sync(0xFFFFFFFF, v, delta)]: a lane reads the value of
    the lane [lane xor delta]. *)
Definition shfl_xor_sync (v : list R) (delta : nat) : list R :=
  map (fun lane => nth (Nat.lxor lane delta) v 0) lanes.

(** [for delta in [16, 8, 4, 2, 1]: accum += shfl_down_sync(accum, delta)] *)
Definition reduce_down (accum : list R) : list R :=
  fold_left (fun accum delta =>
               Np.zip_with Rplus accum (shfl_down_sync accum delta))
            [16; 8; 4; 2; 1]%nat accum.

(** [for delta in [16, 8, 4, 2, 1]: accum += shfl_xor_sync(accum, delta)] *)
Definition reduce_xor (accum : list R) : list R :=
  fold_left (fun accum delta =>
               Np.zip_with Rplus accum (shfl_xor_sync accum delta))
            [16; 8; 4; 2; 1]%nat accum.

End Cuda.

(** [range(start, stop, step)] for a positive step. *)
Definition py_range (start stop step : nat) : list nat :=
  map (fun i => start + i * step)%nat
      (seq 0 ((stop - start + step - 1) / step)).

(** [accum = 0; for index in range(laneIdx, m, 32): accum += term(index)],
    in every lane: each adds up its strided share of the terms. *)
Definition lane_accum (term : nat -> nat -> R) (m : nat) : list R :=
  map (fun laneIdx =>
         fold_left (fun accum index => accum + term laneIdx index)
                   (py_range laneIdx m 32) 0)
      Cuda.lanes.

(** [out[position] = v] *)
Fixpoint store (out : list R) (position : nat) (v : R) : list R :=
  match out, position with
  | [], _ => []
  | _ :: out', O => v :: out'
  | x :: out', S p => x :: store out' p v
  end.

(** The grid: every warp of every block runs the loop over its positions
    [range(lower, S.shape[0] - Q.shape[0] + 1, stride)]; [body] is what
    the warp does at one position.  Lengths are naturals here, and a
    difference that Python has negative gives the same empty range.
    A block is [blockDim / 32] full warps, as in every launch of the
    public operations (64 threads): the threads of a partial warp, which
    would shuffle with lanes that do not exist, are not embedded, and
    what is proved of a launch is proved for a [blockDim] that is a
    multiple of 32. *)
Definition launch (gridDim blockDim : nat) (len_Q len_S : nat)
    (body : list R -> nat -> list R) (out : list R) : list R :=
  let warpDim := (blockDim / 32)%nat in
  fold_left (fun out blockIdx =>
    fold_left (fun out warpIdx =>
      let lower := (blockIdx * warpDim + warpIdx)%nat in
      let stride := (gridDim * warpDim)%nat in
      fold_left body (py_range lower (len_S + 1 - len_Q) stride) out)
      (seq 0 warpDim) out)
    (seq 0 gridDim) out.

Definition sdist_kernel (gridDim blockDim : nat) (Q S out : list R) : list R :=
  launch gridDim blockDim (length Q) (length S)
    (fun out position =>
       let accum :=
         lane_accum (fun _ index =>
                       let value := nth index Q 0 - nth (position + index) S 0 in
                       value * value) (length Q) in
       let accum := Cuda.reduce_down accum in
       (* if laneIdx == 0 *)
       store out position (nth 0 accum 0))
    out.

Definition mdist_kernel (gridDim blockDim : nat) (Q S out : list R) : list R :=
  launch gridDim blockDim (length Q) (length S)
    (fun out position =>
       let accum :=
         lane_accum (fun _ index => nth (position + index) S 0) (length Q) in
       let accum := Cuda.reduce_xor accum in
       let mean := map (fun a => a / INR (length Q)) accum in
       let accum :=
         lane_accum (fun laneIdx index =>
                       let value := nth index Q 0 - nth (position + index) S 0
                                    + nth laneIdx mean 0 in
                       value * value) (length Q) in
       let accum := Cuda.reduce_down accum in
       store out position (nth 0 accum 0))
    out.

Definition zdist_kernel (gridDim blockDim : nat) (Q S out : list R)
    (epsilon : R) : list R :=
  launch gridDim blockDim (length Q) (length S)
    (fun out position =>
       let accum1 :=
         lane_accum (fun _ index => nth (position + index) S 0) (length Q) in
       let accum2 :=
         lane_accum (fun _ index =>
                       let value := nth (position + index) S 0 in
                       value * value) (length Q) in
       let accum1 := Cuda.reduce_xor accum1 in
       let accum2 := Cuda.reduce_xor accum2 in
       let mean := map (fun a => a / INR (length Q)) accum1 in
       let sigma := Np.zip_with (fun a2 mu => a2 / INR (length Q) - mu * mu)
                                accum2 mean in
       let sigma := map (fun s => if Rgtb s 0 then sqrt s else epsilon) sigma in
       let accum :=
         lane_accum (fun laneIdx index =>
                       let value := nth index Q 0
                                    - (nth (position + index) S 0
                                       - nth laneIdx mean 0)
                                      / nth laneIdx sigma 0 in
                       value * value) (length Q) in
       let accum := Cuda.reduce_down accum in
       store out position (nth 0 accum 0))
    out.

(** ** __init__.py: the public operations *)

Definition default_alignment : nat := Z.to_nat 10000.
Definition default_Kahan : nat := 0.

Section Dispatch.

(** What the freshly allocated, uninitialised output buffer of
    [cp.empty] holds before the kernel writes to it. *)
Variable uninitialised : nat -> R.

Definition cp_empty (n : nat) : list R := map uninitialised (seq 0 n).

(** [len(Q.shape) == len(S.shape) == 1 and Q.shape[0] <= S.shape[0]] *)
Definition shapes_ok (Q S : ndarray) : bool :=
  Nat.eqb (length (arr_shape Q)) (length (arr_shape S))
  && Nat.eqb (length (arr_shape S)) 1
  && Nat.leb (hd O (arr_shape Q)) (hd O (arr_shape S)).

Definition sdist (Q S : ndarray) (mode : string) : py (list R) :=
  assert (dtype_eqb (arr_dtype Q) (arr_dtype S)) ;;;
  assert (shapes_ok Q S) ;;;
  if String.eqb mode "fft"
  then fft_sdist Q S default_alignment default_Kahan
  else
    let Z := cp_empty (len S - len Q + 1) in
    ret (sdist_kernel (80 * 32) 64 (arr_data Q) (arr_data S) Z).

Definition mdist (Q S : ndarray) (mode : string) : py (list R) :=
  assert (dtype_eqb (arr_dtype Q) (arr_dtype S)) ;;;
  assert (shapes_ok Q S) ;;;
  if String.eqb mode "fft"
  then fft_mdist Q S default_alignment default_Kahan
  else
    let Z := cp_empty (len S - len Q + 1) in
    ret (mdist_kernel (80 * 32) 64 (mnorm (arr_data Q)) (arr_data S) Z).

Definition zdist (Q S : ndarray) (mode : string) (epsilon : R)
  : py (list R) :=
  assert (Rgtb epsilon 0) ;;;
  assert (dtype_eqb (arr_dtype Q) (arr_dtype S)) ;;;
  assert (shapes_ok Q S) ;;;
  assert (Rgtb (Np.std (arr_data Q) 0) 0) ;;;
  if String.eqb mode "fft"
  then fft_zdist Q S epsilon default_alignment default_Kahan
  else
    let Z := cp_empty (len S - len Q + 1) in
    ret (zdist_kernel (80 * 32) 64 (znorm (arr_data Q) epsilon)
                      (arr_data S) Z epsilon).

End Dispatch.

(** ** What the distances are meant to be

    The definitions of this part follow the words of the equations in
    the docstrings, not the code: the sum of squared differences between
    the (normalised) query and the (normalised) window. *)

Definition rank1 (a : ndarray) : Prop :=
  arr_shape a = [length (arr_data a)].

(** Sum, mean and population deviation of the window [S[k : k+m]]. *)
Definition window_sum (S : list R) (m k : nat) : R :=
  bigsum (fun i => nth (k + i) S 0) m.

Definition window_sumsq (S : list R) (m k : nat) : R :=
  bigsum (fun i => nth (k + i) S 0 * nth (k + i) S 0) m.

Definition window_mean (S : list R) (m k : nat) : R :=
  window_sum S m k / INR m.

Definition window_var (S : list R) (m k : nat) : R :=
  window_sumsq S m k / INR m - window_mean S m k * window_mean S m k.

(** [sum_i Q[i] * S[i+k]] *)
Definition cross_correlation (Q S : list R) (k : nat) : R :=
  bigsum (fun i => nth i Q 0 * nth (k + i) S 0) (length Q).

(** [sum_i (Q[i] - S[i+k])**2] *)
Definition sq_dist (Q S : list R) (k : nat) : R :=
  bigsum (fun i => (nth i Q 0 - nth (k + i) S 0) ^ 2) (length Q).

(** [sum_i (f(Q[i]) - (S[i+k] - mu[k]))**2], [f] the mean adjustment. *)
Definition mean_sq_dist (Q S : list R) (k : nat) : R :=
  bigsum (fun i => (nth i (mnorm Q) 0
                    - (nth (k + i) S 0 - window_mean S (length Q) k)) ^ 2)
         (length Q).

(** [sum_i (f(Q[i]) - (S[i+k] - mu[k]) / sigma[k])**2], [f] the
    normalisation of the query and [sigma] the deviation of the window,
    replaced by [epsilon] where the window has none. *)
Definition window_sigma (S : list R) (m k : nat) (epsilon : R) : R :=
  if Rgtb (window_var S m k) 0 then sqrt (window_var S m k) else epsilon.

Definition z_sq_dist (Q S : list R) (epsilon : R) (k : nat) : R :=
  bigsum (fun i => (nth i (znorm Q epsilon) 0
                    - (nth (k + i) S 0 - window_mean S (length Q) k)
                      / window_sigma S (length Q) k epsilon) ^ 2)
         (length Q).

(** ** The input contract of the public operations

    Two rank-1 arrays of one element type, the query with at least one
    element and no longer than the stream; for the normalised distance a
    positive [epsilon] and a query that is not constant. *)
Definition valid_input (Q S : ndarray) : Prop :=
  arr_dtype Q = arr_dtype S /\ rank1 Q /\ rank1 S
  /\ (1 <= len Q <= len S)%nat.

Definition valid_z_input (Q S : ndarray) (epsilon : R) : Prop :=
  valid_input Q S /\ 0 < epsilon /\ 0 < Np.std (arr_data Q) 0.

(** The four ways to break the contract. *)
Inductive violation : Set :=
| Type_Mismatch
| Shape_Violation
| Degenerate_Query
| Invalid_Epsilon.

Definition violates (v : violation) (Q S : ndarray) (epsilon : R) : Prop :=
  match v with
  | Type_Mismatch => arr_dtype Q <> arr_dtype S
  | Shape_Violation =>
      ~ (length (arr_shape Q) = 1%nat /\ length (arr_shape S) = 1%nat
         /\ (hd O (arr_shape Q) <= hd O (arr_shape S))%nat)
  | Degenerate_Query => Np.std (arr_data Q) 0 <= 0
  | Invalid_Epsilon => epsilon <= 0
  end.

(** The array with [f] applied to every element, as the caller's
    [a * S + b] builds it. *)
Definition array_map (f : R -> R) (a : ndarray) : ndarray :=
  mk_ndarray (arr_dtype a) (arr_shape a) (map f (arr_data a)).

(** The circular cross-correlation of two arrays of length [n]. *)
Definition circular_correlation (E iS : list R) (n k : nat) : R :=
  bigsum (fun j => nth j E 0 * nth ((j + k) mod n) iS 0) n.

(** ** rapidAligner/util/Loader.py: the synthetic series

    The constructor of [FakeSeriesGenerator] inspects the types of its
    arguments, so they are Python values here: an [int] (a [bool] is
    one), a [float], or an object that is neither, such as [None]. *)
Inductive value : Type :=
| VInt (z : Z)
| VBool (b : bool)
| VFloat (r : R)
| VOther.

(** The integer of a value that passes [isinstance(v, int)]. *)
Definition as_int (v : value) : option Z :=
  match v with
  | VInt z => Some z
  | VBool b => Some (if b then 1 else 0)%Z
  | _ => None
  end.

(** The number of a value that passes [isinstance(v, float)]. *)
Definition as_float (v : value) : option R :=
  match v with
  | VFloat r => Some r
  | _ => None
  end.

Definition int_of (v : value) : Z :=
  match as_int v with Some z => z | None => 0%Z end.

Definition float_of (v : value) : R :=
  match as_float v with Some r => r | None => 0 end.

Definition Rgeb (x y : R) : bool := if Rle_dec y x then true else false.

(** [linspace(start, stop, num)]: [num] evenly spaced samples, the
    first at [start] and the last at [stop]. *)
Definition linspace (start stop : R) (num : nat) : list R :=
  map (fun i => start + INR i * ((stop - start) / INR (num - 1)))
      (seq 0 num).

(** [irfft(rfft(x) * rfft(y), n=n)] *)
Definition convolve (x y : list R) (n : nat) : py (list R) :=
  fx <- Fft.rfft x ;;
  fy <- Fft.rfft y ;;
  Fft.irfft (Fft.mul fx fy) n.

(** The circular convolution of two arrays of length [n]. *)
Definition circular_convolution (x y : list R) (n k : nat) : R :=
  bigsum (fun j => nth j x 0 * nth ((k + n - j) mod n) y 0) n.

Module FakeSeriesGenerator.

(** The attributes of an instance. *)
Record t : Type := mk {
  self_query_length : Z;
  self_subject_length : Z;
  self_beta : R;
  self_signal : list R
}.

(** [exp(-beta * linspace(0, 1, n))], divided by the root of the sum of
    its squares. *)
Definition kernel (beta : R) (n : nat) : list R :=
  let kernel := map (fun v => exp (- beta * v)) (linspace 0 1 n) in
  map (fun v => v / sqrt (Np.sum (Np.square kernel))) kernel.

Section Random.

(** Entry [i] of what [cp.random.uniform(-1, +1, n)] draws in the state
    the generator is in: seeded by the call when the seed is an [int],
    as it was left otherwise. *)
Variable sample : option Z -> nat -> nat -> R.

Definition uniform (seed : option Z) (n : nat) : list R :=
  map (sample seed n) (seq 0 n).

Definition init (query_length subject_length seed beta : value) : py t :=
  assert (match as_int query_length with
          | Some z => (0 <? z)%Z
          | None => false
          end) ;;;
  assert (match as_int subject_length with
          | Some z => (0 <? z)%Z
          | None => false
          end) ;;;
  assert (int_of query_length <=? int_of subject_length)%Z ;;;
  assert (match as_float beta with
          | Some r => Rgeb r 0
          | None => false
          end) ;;;
  let n := Z.to_nat (int_of subject_length + int_of query_length) in
  let noise := uniform (as_int seed) n in
  let kernel := kernel (float_of beta) n in
  signal <- convolve noise kernel n ;;
  ret (mk (int_of query_length) (int_of subject_length) (float_of beta)
          signal).

End Random.

(** [self.signal[self.query_length:]] *)
Definition subject (self : t) : list R :=
  Np.slice_from (self_query_length self) (self_signal self).

(** [alpha*(signal-mean)+beta*mean] on the first [query_length]
    samples, with the defaults [alpha=2.0], [beta=1.20] of the property. *)
Definition query (self : t) : list R :=
  let alpha := 2 in
  let beta := 6 / 5 in
  let signal := Np.slice_to (self_query_length self) (self_signal self) in
  let mean := Np.mean signal in
  map (fun v => alpha * (v - mean) + beta * mean) signal.

Definition data (self : t) : list R * list R := (query self, subject self).

End FakeSeriesGenerator.

(** ** The direct path of the normalised distance in binary64

    The embedding above computes in exact arithmetic.  Where a claim
    turns on rounding, the same code is evaluated here in IEEE 754
    binary64, the arithmetic of [float64] arrays and of the kernel's
    [float64] accumulators: every operation of the source is the
    correctly rounded operation of the kernel's primitive floats, and
    the kernel adds in the order its loops and shuffles fix.  The
    library reductions [sum], [mean] and [std] add in element order
    here; the arrays they are evaluated on below have two elements or
    three equal ones, whose sum no order of the additions changes.  An
    array here is a rank-1 [float64] array, the list of its elements. *)
Module Binary64.

(** The floating-point value of a length. *)
Definition of_nat (n : nat) : float := PrimFloat.of_uint63 (Uint63.of_nat n).

Definition sum (x : list float) : float := fold_left PrimFloat.add x 0%float.

Definition mean (x : list float) : float :=
  PrimFloat.div (sum x) (of_nat (length x)).

(** [std(x, ddof=0)]: the root of the mean of the squared deviations
    from the mean. *)
Definition std (x : list float) : float :=
  let mu := mean x in
  PrimFloat.sqrt
    (mean (map (fun v => PrimFloat.mul (PrimFloat.sub v mu)
                                       (PrimFloat.sub v mu)) x)).

(** Python's builtin [max(a, b)]: [a] unless [b > a]. *)
Definition py_max (a b : float) : float := if PrimFloat.ltb a b then b else a.

(** [(x-cp.mean(x))/max(cp.std(x, ddof=0), epsilon)] *)
Definition znorm (x : list float) (epsilon : float) : list float :=
  map (fun v => PrimFloat.div (PrimFloat.sub v (mean x))
                              (py_max (std x) epsilon)) x.

Fixpoint zip_with (f : float -> float -> float) (a b : list float)
  : list float :=
  match a, b with
  | x :: a', y :: b' => f x y :: zip_with f a' b'
  | _, _ => []
  end.

Definition shfl_down_sync (v : list float) (delta : nat) : list float :=
  map (fun lane => if Nat.ltb (lane + delta) 32
                   then nth (lane + delta) v 0%float else nth lane v 0%float)
      Cuda.lanes.

Definition shfl_xor_sync (v : list float) (delta : nat) : list float :=
  map (fun lane => nth (Nat.lxor lane delta) v 0%float) Cuda.lanes.

(** [for delta in [16, 8, 4, 2, 1]: accum += shfl_down_sync(accum, delta)] *)
Definition reduce_down (accum : list float) : list float :=
  fold_left (fun accum delta =>
               zip_with PrimFloat.add accum (shfl_down_sync accum delta))
            [16; 8; 4; 2; 1]%nat accum.

(** [for delta in [16, 8, 4, 2, 1]: accum += shfl_xor_sync(accum, delta)] *)
Definition reduce_xor (accum : list float) : list float :=
  fold_left (fun accum delta =>
               zip_with PrimFloat.add accum (shfl_xor_sync accum delta))
            [16; 8; 4; 2; 1]%nat accum.

(** [accum = float64(0); for index in range(laneIdx, m, 32):
    accum += term(index)], in every lane. *)
Definition lane_accum (term : nat -> nat -> float) (m : nat) : list float :=
  map (fun laneIdx =>
         fold_left (fun accum index => PrimFloat.add accum (term laneIdx index))
                   (py_range laneIdx m 32) 0%float)
      Cuda.lanes.

(** [out[position] = v] *)
Fixpoint store (out : list float) (position : nat) (v : float) : list float :=
  match out, position with
  | [], _ => []
  | _ :: out', O => v :: out'
  | x :: out', S p => x :: store out' p v
  end.

(** The grid of full warps, as [launch] above. *)
Definition launch (gridDim blockDim : nat) (len_Q len_S : nat)
    (body : list float -> nat -> list float) (out : list float) : list float :=
  let warpDim := (blockDim / 32)%nat in
  fold_left (fun out blockIdx =>
    fold_left (fun out warpIdx =>
      let lower := (blockIdx * warpDim + warpIdx)%nat in
      let stride := (gridDim * warpDim)%nat in
      fold_left body (py_range lower (len_S + 1 - len_Q) stride) out)
      (seq 0 warpDim) out)
    (seq 0 gridDim) out.

Definition zdist_kernel (gridDim blockDim : nat) (Q S out : list float)
    (epsilon : float) : list float :=
  launch gridDim blockDim (length Q) (length S)
    (fun out position =>
       let accum1 :=
         lane_accum (fun _ index => nth (position + index) S 0%float)
                    (length Q) in
       let accum2 :=
         lane_accum (fun _ index =>
                       let value := nth (position + index) S 0%float in
                       PrimFloat.mul value value) (length Q) in
       let accum1 := reduce_xor accum1 in
       let accum2 := reduce_xor accum2 in
       let mean := map (fun a => PrimFloat.div a (of_nat (length Q))) accum1 in
       let sigma :=
         zip_with (fun a2 mu => PrimFloat.sub
                                  (PrimFloat.div a2 (of_nat (length Q)))
                                  (PrimFloat.mul mu mu))
                  accum2 mean in
       let sigma := map (fun s => if PrimFloat.ltb 0%float s
                                  then PrimFloat.sqrt s else epsilon) sigma in
       let accum :=
         lane_accum (fun laneIdx index =>
                       let value :=
                         PrimFloat.sub
                           (nth index Q 0%float)
                           (PrimFloat.div
                              (PrimFloat.sub (nth (position + index) S 0%float)
                                             (nth laneIdx mean 0%float))
                              (nth laneIdx sigma 0%float)) in
                       PrimFloat.mul value value) (length Q) in
       let accum := reduce_down accum in
       store out position (nth 0 accum 0%float))
    out.

Section Dispatch.

(** The content of the fresh output buffer, and the transform-domain
    engine, whose transforms have no binary64 embedding here. *)
Variable uninitialised : nat -> float.
Variable fft_zdist : list float -> list float -> float -> py (list float).

Definition cp_empty (n : nat) : list float := map uninitialised (seq 0 n).

(** [zdist] on two rank-1 [float64] arrays: the assertion on the element
    types holds, the one on the shapes compares the lengths. *)
Definition zdist (Q S : list float) (mode : string) (epsilon : float)
  : py (list float) :=
  assert (PrimFloat.ltb 0%float epsilon) ;;;
  assert (Nat.leb (length Q) (length S)) ;;;
  assert (PrimFloat.ltb 0%float (std Q)) ;;;
  if String.eqb mode "fft"
  then fft_zdist Q S epsilon
  else
    let Z := cp_empty (length S - length Q + 1) in
    ret (zdist_kernel (80 * 32) 64 (znorm Q epsilon) S Z epsilon).

End Dispatch.

End Binary64.

(** * Properties *)

(** *** Finite sums *)

Lemma bigsum_ext (f g : nat -> R) (n : nat) :
  (forall i, (i < n)%nat -> f i = g i) -> bigsum f n = bigsum g n.
Proof.
  induction n as [|n IH]; intros H; simpl; [reflexivity|].
  rewrite IH, H by (intros; try apply H; lia). reflexivity.
Qed.

Lemma bigsum_zero (n : nat) : bigsum (fun _ => 0) n = 0.
Proof. induction n; simpl; lra. Qed.

Lemma bigsum_plus (f g : nat -> R) (n : nat) :
  bigsum (fun i => f i + g i) n = bigsum f n + bigsum g n.
Proof. induction n; simpl; lra. Qed.

Lemma bigsum_minus (f g : nat -> R) (n : nat) :
  bigsum (fun i => f i - g i) n = bigsum f n - bigsum g n.
Proof. induction n; simpl; lra. Qed.

Lemma bigsum_scal (c : R) (f : nat -> R) (n : nat) :
  bigsum (fun i => c * f i) n = c * bigsum f n.
Proof. induction n; simpl; [lra | rewrite IHn; lra]. Qed.

Lemma bigsum_scal_r (c : R) (f : nat -> R) (n : nat) :
  bigsum (fun i => f i * c) n = bigsum f n * c.
Proof. induction n; simpl; [lra | rewrite IHn; lra]. Qed.

Lemma bigsum_const (c : R) (n : nat) : bigsum (fun _ => c) n = INR n * c.
Proof.
  induction n; [simpl; lra|]. rewrite S_INR. simpl. rewrite IHn. lra.
Qed.

Lemma bigsum_split (f : nat -> R) (n m : nat) :
  bigsum f (n + m) = bigsum f n + bigsum (fun i => f (n + i)%nat) m.
Proof.
  induction m; simpl.
  - rewrite Nat.add_0_r. lra.
  - rewrite Nat.add_succ_r. simpl. rewrite IHm. lra.
Qed.

Lemma bigsum_swap (f : nat -> nat -> R) (n m : nat) :
  bigsum (fun i => bigsum (fun j => f i j) m) n =
  bigsum (fun j => bigsum (fun i => f i j) n) m.
Proof.
  induction n; simpl.
  - rewrite bigsum_zero. reflexivity.
  - rewrite IHn, <- bigsum_plus. reflexivity.
Qed.

Lemma bigsum_single (v : nat -> R) (a n : nat) :
  (a < n)%nat ->
  bigsum (fun i => if Nat.eqb i a then v i else 0) n = v a.
Proof.
  induction n; intros Ha; [lia|]. simpl.
  destruct (Nat.eqb_spec n a) as [->|Hne].
  - rewrite (bigsum_ext _ (fun _ => 0)), bigsum_zero; [lra|].
    intros i Hi. destruct (Nat.eqb_spec i a); [lia | reflexivity].
  - rewrite IHn by lia. lra.
Qed.

Lemma bigsum_shift (f : nat -> R) (n : nat) :
  bigsum f (S n) = f O + bigsum (fun i => f (S i)) n.
Proof. induction n; simpl in *; [lra | rewrite IHn; lra]. Qed.

Lemma bigsum_rev (f : nat -> R) (n : nat) :
  bigsum f n = bigsum (fun i => f (n - 1 - i)%nat) n.
Proof.
  induction n; [reflexivity|].
  rewrite (bigsum_shift (fun i => f (S n - 1 - i)%nat)).
  cbn [bigsum]. rewrite IHn.
  rewrite (bigsum_ext (fun i => f (S n - 1 - S i)%nat) (fun i => f (n - 1 - i)%nat)).
  - replace (S n - 1 - 0)%nat with n by lia. lra.
  - intros i Hi. f_equal. lia.
Qed.

Lemma bigsum_nonneg (f : nat -> R) (n : nat) :
  (forall i, (i < n)%nat -> 0 <= f i) -> 0 <= bigsum f n.
Proof.
  induction n; intros H; simpl; [lra|].
  specialize (H n (Nat.lt_succ_diag_r n)) as Hn.
  assert (0 <= bigsum f n) by (apply IHn; intros; apply H; lia). lra.
Qed.

Lemma Np_sum_bigsum (l : list R) :
  Np.sum l = bigsum (fun i => nth i l 0) (length l).
Proof.
  induction l as [|a l IH]; [reflexivity|].
  cbn [length]. rewrite bigsum_shift. simpl. rewrite IH. reflexivity.
Qed.

(** *** The stabilized prefix sum *)

Lemma bind_ret {A B : Type} (a : A) (k : A -> py B) : bind (ret a) k = k a.
Proof. reflexivity. Qed.

Lemma length_zip_with (f : R -> R -> R) (a b : list R) :
  length (Np.zip_with f a b) = Nat.min (length a) (length b).
Proof.
  revert b; induction a as [|x a IH]; intros [|y b]; simpl; auto.
Qed.

Lemma nth_zip_with (f : R -> R -> R) (a b : list R) (i : nat) :
  (i < length a)%nat -> (i < length b)%nat ->
  nth i (Np.zip_with f a b) 0 = f (nth i a 0) (nth i b 0).
Proof.
  revert b i; induction a as [|x a IH]; intros [|y b] [|i] Ha Hb;
    simpl in *; try lia; auto.
  apply IH; lia.
Qed.

Lemma broadcast2_same (f : R -> R -> R) (a b : list R) :
  length a = length b ->
  Np.broadcast2 f a b = ret (Np.zip_with f a b).
Proof.
  intros H. unfold Np.broadcast2. rewrite H, Nat.eqb_refl. reflexivity.
Qed.

Lemma length_cumsum_from (acc : R) (x : list R) :
  length (Np.cumsum_from acc x) = length x.
Proof. revert acc; induction x; intros; simpl; auto. Qed.

Lemma nth_cumsum_from (x : list R) : forall (acc : R) (i : nat),
  (i < length x)%nat ->
  nth i (Np.cumsum_from acc x) 0 = acc + bigsum (fun j => nth j x 0) (S i).
Proof.
  induction x as [|v x IH]; intros acc i Hi; simpl in Hi; [lia|].
  destruct i as [|i].
  - simpl. lra.
  - cbn [Np.cumsum_from nth]. rewrite IH by lia.
    rewrite (bigsum_shift _ (S i)). cbn [nth]. lra.
Qed.

(** The exclusive scan: entry [i] is the sum of the first [i] elements. *)
Lemma nth_exclusive_scan (x : list R) (i : nat) :
  (i <= length x)%nat ->
  nth i (0 :: Np.cumsum x) 0 = bigsum (fun j => nth j x 0) i.
Proof.
  intros Hi. destruct i as [|i]; [reflexivity|].
  cbn [nth]. unfold Np.cumsum. rewrite nth_cumsum_from by lia. lra.
Qed.

Lemma length_exclusive_scan (x : list R) :
  length (0 :: Np.cumsum x) = S (length x).
Proof. simpl. unfold Np.cumsum. now rewrite length_cumsum_from. Qed.

Lemma length_diff_scan (x : list R) : forall acc,
  length (Np.diff (acc :: Np.cumsum_from acc x)) = length x.
Proof.
  induction x as [|v x IH]; intros acc; [reflexivity|].
  cbn [Np.cumsum_from]. cbn [Np.diff]. cbn [length]. f_equal. apply IH.
Qed.

(** In exact arithmetic the residual [x - diff(y)] vanishes. *)
Lemma residual_zero (x : list R) : forall acc,
  Np.zip_with Rminus x (Np.diff (acc :: Np.cumsum_from acc x))
  = repeat 0 (length x).
Proof.
  induction x as [|v x IH]; intros acc; [reflexivity|].
  cbn [Np.cumsum_from]. cbn [Np.diff Np.zip_with length repeat].
  f_equal; [lra | apply IH].
Qed.

Lemma abs_zeros (n : nat) : Np.abs (repeat 0 n) = repeat 0 n.
Proof.
  induction n; simpl; [reflexivity|]. rewrite Rabs_R0. f_equal. exact IHn.
Qed.

Lemma fold_Rmax_zeros (n : nat) : fold_left Rmax (repeat 0 n) 0 = 0.
Proof.
  induction n; simpl; [reflexivity|].
  rewrite Rmax_left by lra. exact IHn.
Qed.

Lemma max_zeros (n : nat) : Np.max (repeat 0 (S n)) = ret 0.
Proof. simpl. rewrite fold_Rmax_zeros. reflexivity. Qed.

Lemma Rnonzero_0 : Rnonzero 0 = false.
Proof. unfold Rnonzero. destruct (Req_dec_T 0 0); [reflexivity | lra]. Qed.

Lemma cumsum_0 (x : list R) : cumsum x 0 = ret (0 :: Np.cumsum x).
Proof. destruct x; reflexivity. Qed.

(** On an array with elements the refinement never takes its branch. *)
Lemma cumsum_nonempty (x : list R) (Kahan : nat) :
  x <> [] -> cumsum x Kahan = ret (0 :: Np.cumsum x).
Proof.
  intros Hx. destruct Kahan as [|K]; [apply cumsum_0|].
  cbn [cumsum]. unfold Np.cumsum.
  rewrite broadcast2_same by (now rewrite length_diff_scan).
  rewrite bind_ret, residual_zero, abs_zeros.
  destruct x as [|v x]; [congruence|].
  cbn [length]. rewrite max_zeros, bind_ret, Rnonzero_0. reflexivity.
Qed.

(** *** Sums of cosines over a full period *)

Lemma bigsum_telescope (u : nat -> R) (n : nat) :
  bigsum (fun f => u (S f) - u f) n = u n - u O.
Proof. induction n; simpl; [lra | rewrite IHn; lra]. Qed.

Lemma bigsum_prod (f g : nat -> R) (n m : nat) :
  bigsum f n * bigsum g m = bigsum (fun j => bigsum (fun l => f j * g l) m) n.
Proof.
  induction n; simpl; [lra|].
  rewrite <- IHn, bigsum_scal. lra.
Qed.

Lemma angle_mul_period (n q f : nat) :
  (0 < n)%nat -> Fft.angle n f (q * n) = 2 * INR (f * q) * PI.
Proof.
  intros Hn. unfold Fft.angle. rewrite !mult_INR.
  assert (INR n <> 0) by (apply not_0_INR; lia). field. exact H.
Qed.

Lemma cos_angle_multiple (n q f : nat) :
  (0 < n)%nat -> cos (Fft.angle n f (q * n)) = 1.
Proof.
  intros Hn. rewrite angle_mul_period by exact Hn.
  rewrite <- (Rplus_0_l (2 * INR (f * q) * PI)), cos_period. exact cos_0.
Qed.

Lemma sin_half_angle_nonzero (n d : nat) :
  (0 < n)%nat -> (d mod n <> 0)%nat -> sin (PI * INR d / INR n) <> 0.
Proof.
  intros Hn Hd Hs. apply sin_eq_0_0 in Hs. destruct Hs as [z Hz].
  assert (Hn0 : INR n <> 0) by (apply not_0_INR; lia).
  assert (HPI : PI <> 0) by (pose proof PI_RGT_0; lra).
  assert (E : INR d = IZR z * INR n).
  { apply (Rmult_eq_reg_l PI); [|exact HPI].
    apply (Rmult_eq_reg_r (/ INR n)); [|apply Rinv_neq_0_compat; exact Hn0].
    transitivity (PI * INR d / INR n); [unfold Rdiv; ring|].
    rewrite Hz. field. exact Hn0. }
  rewrite !INR_IZR_INZ, <- mult_IZR in E. apply eq_IZR in E.
  apply Hd. apply Nat2Z.inj. rewrite Nat2Z.inj_mod, E.
  apply Z.mod_mul. lia.
Qed.

Lemma full_cos_sum_multiple (n d : nat) :
  (0 < n)%nat -> (d mod n = 0)%nat ->
  bigsum (fun f => cos (Fft.angle n f d)) n = INR n.
Proof.
  intros Hn Hd.
  assert (E : d = ((d / n) * n)%nat).
  { pose proof (Nat.div_mod_eq d n). lia. }
  rewrite (bigsum_ext _ (fun _ => 1)).
  - rewrite bigsum_const. lra.
  - intros f _. rewrite E. apply cos_angle_multiple. exact Hn.
Qed.

Lemma full_cos_sum_other (n d : nat) :
  (0 < n)%nat -> (d mod n <> 0)%nat ->
  bigsum (fun f => cos (Fft.angle n f d)) n = 0.
Proof.
  intros Hn Hd.
  pose proof (sin_half_angle_nonzero n d Hn Hd) as Hs.
  set (a := PI * INR d / INR n) in *.
  assert (Hn0 : INR n <> 0) by (apply not_0_INR; lia).
  apply (Rmult_eq_reg_l (2 * sin a)); [|lra].
  rewrite Rmult_0_r, <- bigsum_scal.
  pose (u := fun g : nat => sin ((2 * INR g - 1) * a)).
  rewrite (bigsum_ext _ (fun f => u (S f) - u f)).
  - rewrite bigsum_telescope. unfold u.
    replace ((2 * INR 0 - 1) * a) with (- a) by (simpl; ring).
    replace ((2 * INR n - 1) * a) with (- a + 2 * INR d * PI)
      by (unfold a; field; exact Hn0).
    rewrite sin_period. lra.
  - intros f _. unfold u. rewrite S_INR.
    replace ((2 * (INR f + 1) - 1) * a) with (Fft.angle n f d + a)
      by (unfold Fft.angle, a; field; exact Hn0).
    replace ((2 * INR f - 1) * a) with (Fft.angle n f d - a)
      by (unfold Fft.angle, a; field; exact Hn0).
    rewrite sin_plus, sin_minus. ring.
Qed.

Lemma full_cos_sum (n d : nat) :
  (0 < n)%nat ->
  bigsum (fun f => cos (Fft.angle n f d)) n
  = if Nat.eqb (d mod n) 0 then INR n else 0.
Proof.
  intros Hn. destruct (Nat.eqb_spec (d mod n) 0).
  - now apply full_cos_sum_multiple.
  - now apply full_cos_sum_other.
Qed.

(** *** The half spectrum of a real array *)

Lemma weight_first (n : nat) : Fft.weight n 0 = 1.
Proof. reflexivity. Qed.

Lemma weight_middle (n f : nat) :
  f <> O -> (2 * f = n)%nat -> Fft.weight n f = 1.
Proof.
  intros Hf Hn. unfold Fft.weight.
  destruct (Nat.eqb_spec f 0); [lia|].
  destruct (Nat.eqb_spec (2 * f) n); [reflexivity | lia].
Qed.

Lemma weight_inner (n f : nat) :
  f <> O -> (2 * f <> n)%nat -> Fft.weight n f = 2.
Proof.
  intros Hf Hn. unfold Fft.weight.
  destruct (Nat.eqb_spec f 0); [lia|].
  destruct (Nat.eqb_spec (2 * f) n); [lia | reflexivity].
Qed.

Lemma mirrored_sum (c : nat -> R) (h N : nat) :
  (forall i, (i < h)%nat -> c (N + i)%nat = c (h - i)%nat) ->
  bigsum (fun i => c (N + i)%nat) h = bigsum (fun i => c (1 + i)%nat) h.
Proof.
  intros H. rewrite (bigsum_rev (fun i => c (1 + i)%nat) h).
  apply bigsum_ext. intros i Hi. rewrite H by exact Hi. f_equal. lia.
Qed.

Lemma inner_weights (n : nat) (c : nat -> R) (h : nat) :
  (forall i, (i < h)%nat -> (2 * (1 + i) <> n)%nat) ->
  bigsum (fun i => Fft.weight n (1 + i) * c (1 + i)%nat) h
  = 2 * bigsum (fun i => c (1 + i)%nat) h.
Proof.
  intros H. rewrite <- bigsum_scal. apply bigsum_ext. intros i Hi.
  rewrite weight_inner; [reflexivity | lia | apply H; exact Hi].
Qed.

(** The frequencies [0 .. n/2], each but the first and the middle one
    counted twice, stand for all [n] frequencies of a spectrum that is
    its own mirror image. *)
Lemma half_spectrum_sum (n : nat) (c : nat -> R) :
  (0 < n)%nat ->
  (forall f, (0 < f < n)%nat -> c (n - f)%nat = c f) ->
  bigsum (fun f => Fft.weight n f * c f) (n / 2 + 1) = bigsum c n.
Proof.
  intros Hn Hsym.
  pose proof (Nat.div_mod_eq n 2) as E.
  pose proof (Nat.mod_upper_bound n 2 ltac:(lia)) as Hr.
  remember (n / 2)%nat as h eqn:Hh. clear Hh.
  remember (n mod 2)%nat as r eqn:Hrr. clear Hrr.
  destruct r as [|[|r]]; [| |lia].
  - (* n = 2h, h > 0 *)
    destruct h as [|h']; [lia|].
    replace (S h' + 1)%nat with ((1 + h') + 1)%nat by lia.
    rewrite (bigsum_split _ (1 + h') 1), (bigsum_split _ 1 h').
    cbn [bigsum]. rewrite Nat.add_0_r.
    rewrite weight_first, weight_middle by lia.
    rewrite inner_weights by (intros; lia).
    assert (En : bigsum c n = bigsum c (((1 + h') + 1) + h')%nat)
      by (f_equal; lia).
    rewrite En.
    rewrite (bigsum_split c (1 + h' + 1) h'), (bigsum_split c (1 + h') 1),
      (bigsum_split c 1 h').
    cbn [bigsum]. rewrite Nat.add_0_r.
    rewrite (mirrored_sum c h' (1 + h' + 1)).
    + lra.
    + intros i Hi. rewrite <- (Hsym (h' - i)%nat) by lia. f_equal. lia.
  - (* n = 2h + 1 *)
    replace (h + 1)%nat with (1 + h)%nat by lia.
    rewrite (bigsum_split _ 1 h). cbn [bigsum].
    rewrite weight_first, inner_weights by (intros; lia).
    assert (En : bigsum c n = bigsum c ((1 + h) + h)%nat) by (f_equal; lia).
    rewrite En.
    rewrite (bigsum_split c (1 + h) h), (bigsum_split c 1 h).
    cbn [bigsum].
    rewrite (mirrored_sum c h (1 + h)).
    + lra.
    + intros i Hi. rewrite <- (Hsym (h - i)%nat) by lia. f_equal. lia.
Qed.

(** *** The product of two spectra *)

Lemma re_cbigsum (g : nat -> Fft.C) (n : nat) :
  Fft.re (Fft.cbigsum g n) = bigsum (fun j => Fft.re (g j)) n.
Proof. induction n; simpl; [reflexivity | rewrite IHn; reflexivity]. Qed.

Lemma im_cbigsum (g : nat -> Fft.C) (n : nat) :
  Fft.im (Fft.cbigsum g n) = bigsum (fun j => Fft.im (g j)) n.
Proof. induction n; simpl; [reflexivity | rewrite IHn; reflexivity]. Qed.

Lemma re_dft (x : list R) (n f : nat) :
  Fft.re (Fft.dft x n f) = bigsum (fun j => nth j x 0 * cos (Fft.angle n f j)) n.
Proof.
  unfold Fft.dft. rewrite re_cbigsum. apply bigsum_ext. intros j _.
  simpl. now rewrite cos_neg.
Qed.

Lemma im_dft (x : list R) (n f : nat) :
  Fft.im (Fft.dft x n f)
  = - bigsum (fun j => nth j x 0 * sin (Fft.angle n f j)) n.
Proof.
  unfold Fft.dft. rewrite im_cbigsum.
  rewrite <- (Rmult_1_l (bigsum _ n)) at 1.
  replace (- bigsum (fun j => nth j x 0 * sin (Fft.angle n f j)) n)
    with (-1 * bigsum (fun j => nth j x 0 * sin (Fft.angle n f j)) n) by ring.
  rewrite Rmult_1_l, <- bigsum_scal. apply bigsum_ext. intros j _.
  simpl. rewrite sin_neg. ring.
Qed.

Lemma bigsum2_plus (F G : nat -> nat -> R) (n m : nat) :
  bigsum (fun j => bigsum (fun l => F j l + G j l) m) n
  = bigsum (fun j => bigsum (F j) m) n + bigsum (fun j => bigsum (G j) m) n.
Proof.
  rewrite <- bigsum_plus. apply bigsum_ext. intros j _. apply bigsum_plus.
Qed.

Lemma bigsum2_scal_prod (c : R) (f g : nat -> R) (n m : nat) :
  bigsum (fun j => bigsum (fun l => c * (f j * g l)) m) n
  = c * (bigsum f n * bigsum g m).
Proof.
  rewrite bigsum_prod, <- bigsum_scal. apply bigsum_ext. intros j _.
  apply bigsum_scal.
Qed.

(** One frequency of the product spectrum, turned by [phi]. *)
Lemma re_product_spectrum (x y : list R) (n f : nat) (phi : R) :
  Fft.re (Fft.cmul (Fft.cmul (Fft.cconj (Fft.dft x n f)) (Fft.dft y n f))
                   (Fft.cis phi))
  = bigsum (fun j => bigsum (fun l =>
      nth j x 0 * nth l y 0
      * cos (Fft.angle n f j + phi - Fft.angle n f l)) n) n.
Proof.
  set (xc := fun j => nth j x 0 * cos (Fft.angle n f j)).
  set (xs := fun j => nth j x 0 * sin (Fft.angle n f j)).
  set (yc := fun l => nth l y 0 * cos (Fft.angle n f l)).
  set (ys := fun l => nth l y 0 * sin (Fft.angle n f l)).
  transitivity
    (bigsum (fun j => bigsum (fun l =>
       cos phi * (xc j * yc l) + cos phi * (xs j * ys l)
       + (- sin phi) * (xs j * yc l) + sin phi * (xc j * ys l)) n) n).
  - rewrite !bigsum2_plus, !bigsum2_scal_prod.
    unfold Fft.cmul, Fft.cconj, Fft.cis. cbn [Fft.re Fft.im fst snd].
    change (fst (Fft.dft x n f)) with (Fft.re (Fft.dft x n f)).
    change (snd (Fft.dft x n f)) with (Fft.im (Fft.dft x n f)).
    change (fst (Fft.dft y n f)) with (Fft.re (Fft.dft y n f)).
    change (snd (Fft.dft y n f)) with (Fft.im (Fft.dft y n f)).
    rewrite !re_dft, !im_dft. fold xc xs yc ys. ring.
  - apply bigsum_ext. intros j _. apply bigsum_ext. intros l _.
    unfold xc, xs, yc, ys.
    replace (Fft.angle n f j + phi - Fft.angle n f l)
      with ((Fft.angle n f j - Fft.angle n f l) + phi) by ring.
    rewrite cos_plus, cos_minus, sin_minus. ring.
Qed.

(** *** The cross-correlation theorem *)

Lemma angle_shift (n f j k l : nat) :
  (0 < n)%nat -> (l < n)%nat ->
  Fft.angle n f (j + k + n - l)
  = Fft.angle n f j + Fft.angle n f k - Fft.angle n f l + 2 * INR f * PI.
Proof.
  intros Hn Hl. unfold Fft.angle.
  rewrite minus_INR, !plus_INR by lia.
  assert (INR n <> 0) by (apply not_0_INR; lia). field. assumption.
Qed.

Lemma cos_angle_mirror (n f d : nat) :
  (0 < f < n)%nat ->
  cos (Fft.angle n (n - f) d) = cos (Fft.angle n f d).
Proof.
  intros Hf.
  replace (Fft.angle n (n - f) d) with (- Fft.angle n f d + 2 * INR d * PI).
  - now rewrite cos_period, cos_neg.
  - unfold Fft.angle. rewrite minus_INR by lia.
    assert (INR n <> 0) by (apply not_0_INR; lia). field. assumption.
Qed.

Lemma wrap_index (n j k l : nat) :
  (0 < n)%nat -> (l < n)%nat ->
  Nat.eqb ((j + k + n - l) mod n) 0 = Nat.eqb l ((j + k) mod n).
Proof.
  intros Hn Hl.
  pose proof (Nat.div_mod_eq (j + k) n) as E.
  pose proof (Nat.mod_upper_bound (j + k) n ltac:(lia)) as Hr.
  set (q := ((j + k) / n)%nat) in *. set (r := ((j + k) mod n)%nat) in *.
  destruct (Nat.eqb_spec l r) as [->|Hne].
  - apply Nat.eqb_eq.
    replace (j + k + n - r)%nat with ((q + 1) * n)%nat by nia.
    apply Nat.Div0.mod_mul.
  - apply Nat.eqb_neq. intros H0.
    destruct (Nat.lt_ge_cases l r) as [Hlt|Hge].
    + assert (Hm : ((j + k + n - l) mod n = r - l)%nat).
      { replace (j + k + n - l)%nat with ((r - l) + (q + 1) * n)%nat by nia.
        rewrite Nat.Div0.mod_add. apply Nat.mod_small. lia. }
      lia.
    + assert (Hm : ((j + k + n - l) mod n = n + r - l)%nat).
      { replace (j + k + n - l)%nat with ((n + r - l) + q * n)%nat by nia.
        rewrite Nat.Div0.mod_add. apply Nat.mod_small. lia. }
      lia.
Qed.

(** The weighted half spectrum of cosines picks the aligned index. *)
Lemma kernel_sum (n j k l : nat) :
  (0 < n)%nat -> (l < n)%nat ->
  bigsum (fun f => Fft.weight n f
                   * cos (Fft.angle n f j + Fft.angle n f k - Fft.angle n f l))
         (n / 2 + 1)
  = if Nat.eqb l ((j + k) mod n) then INR n else 0.
Proof.
  intros Hn Hl.
  rewrite (bigsum_ext _ (fun f => Fft.weight n f
                                  * cos (Fft.angle n f (j + k + n - l)))).
  - rewrite (half_spectrum_sum n (fun f => cos (Fft.angle n f (j + k + n - l))))
      by (try exact Hn; intros; now apply cos_angle_mirror).
    rewrite full_cos_sum by exact Hn. now rewrite wrap_index.
  - intros f _. f_equal. rewrite angle_shift by assumption.
    now rewrite cos_period.
Qed.

Lemma nth_mul_conj_from (X Y : nat -> Fft.C) (L : nat) : forall s f,
  (f < L)%nat ->
  nth f (Fft.mul (Fft.conj (map X (seq s L))) (map Y (seq s L))) (0, 0)
  = Fft.cmul (Fft.cconj (X (s + f)%nat)) (Y (s + f)%nat).
Proof.
  unfold Fft.conj.
  induction L as [|L IH]; intros s f Hf; [lia|].
  cbn [seq map Fft.mul]. destruct f as [|f].
  - cbn [nth]. now rewrite Nat.add_0_r.
  - cbn [nth]. rewrite IH by lia. now rewrite Nat.add_succ_r.
Qed.

Lemma nth_mul_conj (X Y : nat -> Fft.C) (L f : nat) :
  (f < L)%nat ->
  nth f (Fft.mul (Fft.conj (map X (seq 0 L))) (map Y (seq 0 L))) (0, 0)
  = Fft.cmul (Fft.cconj (X f)) (Y f).
Proof. intros Hf. now rewrite nth_mul_conj_from. Qed.

(** The cross-correlation theorem for the real transforms. *)
Lemma correlate_circular (E iS : list R) (n : nat) :
  (0 < n)%nat -> length E = n -> length iS = n ->
  correlate E iS n = ret (map (circular_correlation E iS n) (seq 0 n)).
Proof.
  intros Hn HE HS.
  assert (Hn0 : INR n <> 0) by (apply not_0_INR; lia).
  unfold correlate, Fft.rfft, Fft.irfft. rewrite HE, HS.
  destruct (Nat.eqb_spec n 0) as [|_]; [lia|].
  rewrite !bind_ret. f_equal. apply map_ext_in. intros k Hk.
  apply in_seq in Hk. unfold circular_correlation.
  apply (Rmult_eq_reg_r (INR n)); [|exact Hn0].
  unfold Rdiv. rewrite Rmult_assoc, Rinv_l, Rmult_1_r by exact Hn0.
  rewrite <- bigsum_scal_r.
  transitivity
    (bigsum (fun f => bigsum (fun j => bigsum (fun l =>
       nth j E 0 * nth l iS 0
       * (Fft.weight n f
          * cos (Fft.angle n f j + Fft.angle n f k - Fft.angle n f l))) n) n)
       (n / 2 + 1)).
  { apply bigsum_ext. intros f Hf. rewrite nth_mul_conj by exact Hf.
    rewrite re_product_spectrum, <- bigsum_scal.
    apply bigsum_ext. intros j _. rewrite <- bigsum_scal.
    apply bigsum_ext. intros l _. ring. }
  rewrite bigsum_swap. apply bigsum_ext. intros j Hj.
  rewrite bigsum_swap.
  rewrite (bigsum_ext _ (fun l => if Nat.eqb l ((j + k) mod n)
                                  then nth j E 0 * nth l iS 0 * INR n else 0)).
  - rewrite bigsum_single by (apply Nat.mod_upper_bound; lia). reflexivity.
  - intros l Hl. rewrite bigsum_scal, kernel_sum by assumption.
    destruct (Nat.eqb l ((j + k) mod n)); ring.
Qed.

(** *** Arrays as tables of their entries *)

Lemma nth_map_seq (f : nat -> R) (L k : nat) :
  (k < L)%nat -> nth k (map f (seq 0 L)) 0 = f k.
Proof.
  intros Hk. rewrite (nth_indep _ 0 (f O)) by (now rewrite length_map, length_seq).
  rewrite (map_nth f (seq 0 L) O k), seq_nth by exact Hk. reflexivity.
Qed.

Lemma length_map_seq (f : nat -> R) (L : nat) : length (map f (seq 0 L)) = L.
Proof. now rewrite length_map, length_seq. Qed.

Lemma table_eq (l : list R) (f : nat -> R) (L : nat) :
  length l = L -> (forall k, (k < L)%nat -> nth k l 0 = f k) ->
  l = map f (seq 0 L).
Proof.
  intros Hl Hn. apply (nth_ext _ _ 0 0).
  - now rewrite length_map_seq.
  - intros k Hk. rewrite nth_map_seq by lia. apply Hn. lia.
Qed.

Lemma zip_with_tables (op : R -> R -> R) (f g : nat -> R) (L : nat) :
  Np.zip_with op (map f (seq 0 L)) (map g (seq 0 L))
  = map (fun k => op (f k) (g k)) (seq 0 L).
Proof.
  apply table_eq.
  - rewrite length_zip_with, !length_map_seq. lia.
  - intros k Hk. rewrite nth_zip_with by (rewrite length_map_seq; exact Hk).
    now rewrite !nth_map_seq.
Qed.

Lemma map_table (g : R -> R) (f : nat -> R) (L : nat) :
  map g (map f (seq 0 L)) = map (fun k => g (f k)) (seq 0 L).
Proof. apply map_map. Qed.

Lemma firstn_table (f : nat -> R) (L j : nat) :
  (j <= L)%nat -> firstn j (map f (seq 0 L)) = map f (seq 0 j).
Proof.
  intros Hj. apply table_eq.
  - rewrite length_firstn, length_map_seq. lia.
  - intros k Hk. rewrite nth_firstn.
    destruct (Nat.ltb_spec k j); [|lia]. apply nth_map_seq. lia.
Qed.

Lemma skipn_table (f : nat -> R) (L j : nat) :
  skipn j (map f (seq 0 L)) = map (fun k => f (j + k)%nat) (seq 0 (L - j)).
Proof.
  apply table_eq.
  - now rewrite length_skipn, length_map_seq.
  - intros k Hk. rewrite nth_skipn, nth_map_seq by lia. reflexivity.
Qed.

(** *** Slices *)

Lemma slice_to_table (f : nat -> R) (L : nat) (stop : Z) (j : nat) :
  (j <= L)%nat ->
  (if (stop <? 0)%Z then Z.max 0 (stop + Z.of_nat L)
   else Z.min stop (Z.of_nat L)) = Z.of_nat j ->
  Np.slice_to stop (map f (seq 0 L)) = map f (seq 0 j).
Proof.
  intros Hj E. unfold Np.slice_to. rewrite length_map_seq. cbv zeta.
  rewrite E, Nat2Z.id. now apply firstn_table.
Qed.

Lemma slice_from_table (f : nat -> R) (L m : nat) :
  (m <= L)%nat ->
  Np.slice_from (Z.of_nat m) (map f (seq 0 L))
  = map (fun k => f (m + k)%nat) (seq 0 (L - m)).
Proof.
  intros Hm. unfold Np.slice_from. rewrite length_map_seq. cbv zeta.
  destruct (Z.ltb_spec (Z.of_nat m) 0); [lia|].
  rewrite Z.min_l, Nat2Z.id by lia. apply skipn_table.
Qed.

(** *** Padding *)

Lemma pad_length_ok (n alignment : nat) :
  (0 < alignment)%nat ->
  exists N, pad_length n alignment = ret N /\ (n <= N)%nat
            /\ (1 <= n -> alignment <= N)%nat.
Proof.
  intros Ha. unfold pad_length.
  destruct (Nat.eqb_spec alignment 0); [lia|].
  eexists; split; [reflexivity|].
  pose proof (Nat.div_mod_eq (n + alignment - 1) alignment) as E.
  pose proof (Nat.mod_upper_bound (n + alignment - 1) alignment ltac:(lia)) as Hr.
  rewrite (Nat.mul_comm alignment) in E.
  destruct ((n + alignment - 1) / alignment)%nat as [|q]; simpl in *; lia.
Qed.

Lemma length_padded (s : list R) (N : nat) :
  (length s <= N)%nat -> length (s ++ repeat 0 (N - length s)) = N.
Proof. intros H. rewrite length_app, repeat_length. lia. Qed.

Lemma nth_padded (s : list R) (j i : nat) :
  nth i (s ++ repeat 0 j) 0 = nth i s 0.
Proof.
  destruct (Nat.lt_ge_cases i (length s)) as [Hi|Hi].
  - now rewrite app_nth1.
  - rewrite app_nth2 by exact Hi. rewrite (nth_overflow s) by exact Hi.
    apply nth_repeat.
Qed.

Lemma set_prefix_zeros (s : list R) (N : nat) :
  (length s <= N)%nat ->
  Np.set_prefix (Np.zeros N) s = ret (s ++ repeat 0 (N - length s)).
Proof.
  intros H. unfold Np.set_prefix, Np.zeros. rewrite repeat_length.
  destruct (Nat.leb_spec (length s) N); [|lia].
  f_equal. f_equal. apply (nth_ext _ _ 0 0).
  - now rewrite length_skipn, !repeat_length.
  - intros i _. rewrite nth_skipn, !nth_repeat. reflexivity.
Qed.

(** *** The exclusive scan and the windowed sums *)

Lemma scan_table (x : list R) :
  0 :: Np.cumsum x
  = map (fun i => bigsum (fun j => nth j x 0) i) (seq 0 (length x + 1)).
Proof.
  apply table_eq.
  - rewrite length_exclusive_scan. lia.
  - intros k Hk. apply nth_exclusive_scan. lia.
Qed.

Lemma windowed_table (f : nat -> R) (L m : nat) :
  (1 <= m <= L)%nat ->
  windowed (map f (seq 0 (L + 1))) m
  = ret (map (fun k => f (m + k)%nat - f k) (seq 0 (L + 1 - m))).
Proof.
  intros Hm. unfold windowed.
  rewrite slice_from_table by lia.
  rewrite (slice_to_table f (L + 1) _ (L + 1 - m)).
  - rewrite broadcast2_same by (now rewrite !length_map_seq).
    now rewrite zip_with_tables.
  - lia.
  - destruct (Z.ltb_spec (- Z.of_nat m) 0); lia.
Qed.

Lemma windowed_scan (x : list R) (m : nat) :
  (1 <= m <= length x)%nat ->
  windowed (0 :: Np.cumsum x) m
  = ret (map (fun k => bigsum (fun i => nth (k + i) x 0) m)
             (seq 0 (length x + 1 - m))).
Proof.
  intros Hm. rewrite scan_table, windowed_table by exact Hm.
  f_equal. apply map_ext. intros k.
  rewrite Nat.add_comm, bigsum_split. lra.
Qed.

Lemma nth_square (l : list R) (i : nat) :
  nth i (Np.square l) 0 = nth i l 0 * nth i l 0.
Proof.
  unfold Np.square. revert i.
  induction l as [|a l IH]; intros [|i]; simpl; try ring. apply IH.
Qed.

Lemma length_square (l : list R) : length (Np.square l) = length l.
Proof. apply length_map. Qed.

(** *** The correlation of the padded arrays *)

Lemma bigsum_cut (f : nat -> R) (m N : nat) :
  (m <= N)%nat -> (forall i, (m <= i < N)%nat -> f i = 0) ->
  bigsum f N = bigsum f m.
Proof.
  intros Hm Hz. replace N with (m + (N - m))%nat by lia.
  rewrite bigsum_split, (bigsum_ext (fun i => f (m + i)%nat) (fun _ => 0)).
  - rewrite bigsum_zero. lra.
  - intros i Hi. apply Hz. lia.
Qed.

Lemma circular_correlation_padded (q s : list R) (N k : nat) :
  (k + length q <= N)%nat ->
  circular_correlation (q ++ repeat 0 (N - length q))
                       (s ++ repeat 0 (N - length s)) N k
  = cross_correlation q s k.
Proof.
  intros Hk. unfold circular_correlation, cross_correlation.
  rewrite (bigsum_cut _ (length q) N).
  - apply bigsum_ext. intros j Hj.
    rewrite !nth_padded, Nat.mod_small by lia.
    now rewrite (Nat.add_comm j k).
  - lia.
  - intros i Hi. rewrite nth_padded, (nth_overflow q) by lia. ring.
Qed.

(** *** The transform-domain engine in closed form *)

Lemma dtype_eqb_eq (a b : dtype) : dtype_eqb a b = true <-> a = b.
Proof. destruct a, b; simpl; split; congruence. Qed.

Lemma padded_nonempty (s : list R) (N : nat) :
  (0 < N)%nat -> (length s <= N)%nat -> s ++ repeat 0 (N - length s) <> [].
Proof.
  intros HN Hs E. apply (f_equal (@length R)) in E.
  rewrite length_padded in E by exact Hs. simpl in E. lia.
Qed.

Lemma square_nonempty (l : list R) : l <> [] -> Np.square l <> [].
Proof. destruct l; simpl; congruence. Qed.

Lemma slice_correlation (q s : list R) (N m : nat) :
  (2 <= m <= N)%nat ->
  Np.slice_to (- Z.of_nat m + 1) (map (circular_correlation q s N) (seq 0 N))
  = map (circular_correlation q s N) (seq 0 (N + 1 - m)).
Proof.
  intros Hm. apply slice_to_table; [lia|].
  destruct (Z.ltb_spec (- Z.of_nat m + 1) 0); lia.
Qed.

Lemma slice_result (f : nat -> R) (N n m : nat) :
  (m <= n <= N)%nat ->
  Np.slice_to (Z.of_nat n - Z.of_nat m + 1) (map f (seq 0 (N + 1 - m)))
  = map f (seq 0 (n - m + 1)).
Proof.
  intros H. apply slice_to_table; [lia|].
  destruct (Z.ltb_spec (Z.of_nat n - Z.of_nat m + 1) 0); lia.
Qed.

Lemma window_sumsq_padded (s : list R) (j m k : nat) :
  bigsum (fun i => nth (k + i) (Np.square (s ++ repeat 0 j)) 0) m
  = window_sumsq s m k.
Proof.
  apply bigsum_ext. intros i _. now rewrite nth_square, nth_padded.
Qed.

Lemma window_sum_padded (s : list R) (j m k : nat) :
  bigsum (fun i => nth (k + i) (s ++ repeat 0 j) 0) m = window_sum s m k.
Proof. apply bigsum_ext. intros i _. now rewrite nth_padded. Qed.

Lemma fft_sdist_closed (Q S : ndarray) (alignment Kahan : nat) :
  arr_dtype Q = arr_dtype S ->
  (0 < alignment)%nat -> (2 <= len Q <= len S)%nat ->
  fft_sdist Q S alignment Kahan
  = ret (map (fun k => Np.sum (Np.square (arr_data Q))
                       - 2 * cross_correlation (arr_data Q) (arr_data S) k
                       + window_sumsq (arr_data S) (len Q) k)
             (seq 0 (len S - len Q + 1))).
Proof.
  intros Hdt Ha Hm. unfold fft_sdist, len in *.
  apply dtype_eqb_eq in Hdt. rewrite Hdt. cbn [assert bind ret].
  destruct (pad_length_ok (length (arr_data S)) alignment Ha)
    as [N [EN [HN HN']]].
  rewrite EN, bind_ret, set_prefix_zeros, bind_ret by exact HN.
  set (iS := arr_data S ++ repeat 0 (N - length (arr_data S))).
  assert (HiS : length iS = N) by (now apply length_padded).
  rewrite cumsum_nonempty
    by (apply square_nonempty, padded_nonempty; [lia | exact HN]).
  rewrite bind_ret, windowed_scan by (rewrite length_square, HiS; lia).
  rewrite bind_ret, set_prefix_zeros, bind_ret by lia.
  rewrite correlate_circular by (try apply length_padded; lia).
  rewrite bind_ret, slice_correlation, map_table by lia.
  rewrite length_square, HiS.
  rewrite broadcast2_same by (now rewrite !length_map_seq).
  rewrite bind_ret, zip_with_tables, slice_result by lia.
  f_equal. apply map_ext_in. intros k Hk. apply in_seq in Hk.
  unfold iS. rewrite circular_correlation_padded by lia.
  now rewrite window_sumsq_padded.
Qed.

Lemma length_mnorm (x : list R) : length (mnorm x) = length x.
Proof. apply length_map. Qed.

Lemma length_znorm (x : list R) (epsilon : R) :
  length (znorm x epsilon) = length x.
Proof. apply length_map. Qed.

Lemma fft_mdist_closed (Q S : ndarray) (alignment Kahan : nat) :
  (0 < alignment)%nat -> (2 <= len Q <= len S)%nat ->
  fft_mdist Q S alignment Kahan
  = ret (map (fun k =>
                Np.sum (Np.square (mnorm (arr_data Q)))
                - 2 * cross_correlation (mnorm (arr_data Q)) (arr_data S) k
                + (window_sumsq (arr_data S) (len Q) k
                   - window_sum (arr_data S) (len Q) k
                     * window_sum (arr_data S) (len Q) k / INR (len Q)))
             (seq 0 (len S - len Q + 1))).
Proof.
  intros Ha Hm. unfold fft_mdist, len in *.
  destruct (pad_length_ok (length (arr_data S)) alignment Ha)
    as [N [EN [HN HN']]].
  rewrite EN, bind_ret, set_prefix_zeros, bind_ret by exact HN.
  set (iS := arr_data S ++ repeat 0 (N - length (arr_data S))).
  assert (HiS : length iS = N) by (now apply length_padded).
  assert (HiS0 : iS <> []) by (apply padded_nonempty; [lia | exact HN]).
  rewrite !cumsum_nonempty by (try apply square_nonempty; exact HiS0).
  rewrite !bind_ret, !windowed_scan by (rewrite ?length_square, HiS; lia).
  rewrite !bind_ret, length_square, HiS.
  rewrite broadcast2_same by reflexivity.
  rewrite bind_ret, zip_with_tables, map_table.
  rewrite broadcast2_same by (now rewrite !length_map_seq).
  rewrite bind_ret, zip_with_tables.
  rewrite set_prefix_zeros, bind_ret by (rewrite length_mnorm; lia).
  rewrite correlate_circular
    by (try apply length_padded; rewrite ?length_mnorm; lia).
  rewrite bind_ret, slice_correlation, map_table by lia.
  rewrite broadcast2_same by (now rewrite !length_map_seq).
  rewrite bind_ret, zip_with_tables, slice_result by lia.
  f_equal. apply map_ext_in. intros k Hk. apply in_seq in Hk.
  unfold iS. rewrite circular_correlation_padded by (rewrite length_mnorm; lia).
  now rewrite window_sumsq_padded, window_sum_padded.
Qed.

Lemma Rgtb_true (x y : R) : Rgtb x y = true <-> y < x.
Proof. unfold Rgtb. destruct (Rlt_dec y x); split; intros; auto; discriminate. Qed.

Lemma Rgtb_false (x y : R) : Rgtb x y = false <-> x <= y.
Proof.
  unfold Rgtb. destruct (Rlt_dec y x); split; intros; auto;
    try discriminate; lra.
Qed.

(** The deviation of a window as the transform path computes it. *)
Lemma fft_zdist_closed (Q S : ndarray) (epsilon : R) (alignment Kahan : nat) :
  0 < epsilon ->
  (0 < alignment)%nat -> (2 <= len Q <= len S)%nat ->
  fft_zdist Q S epsilon alignment Kahan
  = ret (map (fun k =>
                if Rgtb (sqrt (Rmax (window_var (arr_data S) (len Q) k) 0)) 0
                then 2 * (INR (len Q)
                          - cross_correlation (znorm (arr_data Q) epsilon)
                                              (arr_data S) k
                            / sqrt (Rmax (window_var (arr_data S) (len Q) k) 0))
                else INR (len Q))
             (seq 0 (len S - len Q + 1))).
Proof.
  intros He Ha Hm. unfold fft_zdist, len in *.
  apply Rgtb_true in He. rewrite He. cbn [assert bind ret].
  destruct (pad_length_ok (length (arr_data S)) alignment Ha)
    as [N [EN [HN HN']]].
  rewrite EN, bind_ret, set_prefix_zeros, bind_ret by exact HN.
  set (iS := arr_data S ++ repeat 0 (N - length (arr_data S))).
  assert (HiS : length iS = N) by (now apply length_padded).
  assert (HiS0 : iS <> []) by (apply padded_nonempty; [lia | exact HN]).
  rewrite !cumsum_nonempty by (try apply square_nonempty; exact HiS0).
  rewrite !bind_ret, !windowed_scan by (rewrite ?length_square, HiS; lia).
  rewrite !bind_ret, length_square, HiS.
  unfold Np.square at 2. rewrite !map_table.
  rewrite broadcast2_same by (now rewrite !length_map_seq).
  rewrite bind_ret, zip_with_tables, map_table.
  rewrite set_prefix_zeros, bind_ret by (rewrite length_znorm; lia).
  rewrite correlate_circular
    by (try apply length_padded; rewrite ?length_znorm; lia).
  rewrite bind_ret, slice_correlation by lia.
  rewrite broadcast2_same by (now rewrite !length_map_seq).
  rewrite bind_ret, zip_with_tables, map_table.
  rewrite broadcast2_same by (now rewrite !length_map_seq).
  rewrite bind_ret, zip_with_tables, slice_result by lia.
  f_equal. apply map_ext_in. intros k Hk. apply in_seq in Hk.
  unfold iS. rewrite circular_correlation_padded by (rewrite length_znorm; lia).
  rewrite window_sumsq_padded, window_sum_padded.
  reflexivity.
Qed.

(** *** A query of one element: the slice [R[:-m+1]] is [R[:0]] *)

Lemma slice_to_zero (l : list R) : Np.slice_to 0 l = [].
Proof.
  unfold Np.slice_to. cbv zeta.
  destruct (Z.ltb_spec 0 0); [lia|].
  rewrite Z.min_l by lia. reflexivity.
Qed.

Lemma broadcast2_empty_long (f : R -> R -> R) (b : list R) :
  (2 <= length b)%nat -> Np.broadcast2 f [] b = raise ValueError.
Proof.
  intros H. unfold Np.broadcast2. cbn [length].
  destruct (Nat.eqb_spec 0 (length b)); [lia|].
  destruct (Nat.eqb_spec 0 1); [lia|].
  destruct (Nat.eqb_spec (length b) 1); [lia|]. reflexivity.
Qed.

Lemma fft_sdist_single (Q S : ndarray) (alignment Kahan : nat) :
  arr_dtype Q = arr_dtype S ->
  (2 <= alignment)%nat -> len Q = 1%nat -> (1 <= len S)%nat ->
  fft_sdist Q S alignment Kahan = raise ValueError.
Proof.
  intros Hdt Ha Hm Hn. unfold fft_sdist, len in *.
  apply dtype_eqb_eq in Hdt. rewrite Hdt. cbn [assert bind ret].
  destruct (pad_length_ok (length (arr_data S)) alignment ltac:(lia))
    as [N [EN [HN HN']]].
  rewrite EN, bind_ret, set_prefix_zeros, bind_ret by exact HN.
  set (iS := arr_data S ++ repeat 0 (N - length (arr_data S))).
  assert (HiS : length iS = N) by (now apply length_padded).
  rewrite cumsum_nonempty
    by (apply square_nonempty, padded_nonempty; [lia | exact HN]).
  rewrite bind_ret, windowed_scan by (rewrite length_square, HiS; lia).
  rewrite bind_ret, set_prefix_zeros, bind_ret by lia.
  rewrite correlate_circular by (try apply length_padded; lia).
  rewrite bind_ret, Hm. change (- Z.of_nat 1 + 1)%Z with 0%Z.
  rewrite slice_to_zero. cbn [map].
  rewrite broadcast2_empty_long; [reflexivity|].
  rewrite length_map_seq, length_square, HiS. lia.
Qed.

Lemma fft_mdist_single (Q S : ndarray) (alignment Kahan : nat) :
  (2 <= alignment)%nat -> len Q = 1%nat -> (1 <= len S)%nat ->
  fft_mdist Q S alignment Kahan = raise ValueError.
Proof.
  intros Ha Hm Hn. unfold fft_mdist, len in *.
  destruct (pad_length_ok (length (arr_data S)) alignment ltac:(lia))
    as [N [EN [HN HN']]].
  rewrite EN, bind_ret, set_prefix_zeros, bind_ret by exact HN.
  set (iS := arr_data S ++ repeat 0 (N - length (arr_data S))).
  assert (HiS : length iS = N) by (now apply length_padded).
  assert (HiS0 : iS <> []) by (apply padded_nonempty; [lia | exact HN]).
  rewrite !cumsum_nonempty by (try apply square_nonempty; exact HiS0).
  rewrite !bind_ret, !windowed_scan by (rewrite ?length_square, HiS; lia).
  rewrite !bind_ret, length_square, HiS.
  rewrite broadcast2_same by reflexivity.
  rewrite bind_ret, zip_with_tables, map_table.
  rewrite broadcast2_same by (now rewrite !length_map_seq).
  rewrite bind_ret, zip_with_tables.
  rewrite set_prefix_zeros, bind_ret by (rewrite length_mnorm; lia).
  rewrite correlate_circular
    by (try apply length_padded; rewrite ?length_mnorm; lia).
  rewrite bind_ret, Hm. change (- Z.of_nat 1 + 1)%Z with 0%Z.
  rewrite slice_to_zero. cbn [map].
  rewrite broadcast2_empty_long; [reflexivity|].
  rewrite length_map_seq. lia.
Qed.

(** *** Stores to the output buffer *)

Lemma length_store (out : list R) : forall p v,
  length (store out p v) = length out.
Proof.
  induction out as [|x out IH]; intros [|p] v; simpl; auto.
Qed.

Lemma nth_store_same (out : list R) : forall p v,
  (p < length out)%nat -> nth p (store out p v) 0 = v.
Proof.
  induction out as [|x out IH]; intros [|p] v Hp; simpl in *; try lia; auto.
  apply IH. lia.
Qed.

Lemma nth_store_other (out : list R) : forall p q v,
  p <> q -> nth q (store out p v) 0 = nth q out 0.
Proof.
  induction out as [|x out IH]; intros [|p] [|q] v Hpq; simpl; auto;
    try congruence.
Qed.

Section Stores.

Variable value : nat -> R.

Let body (out : list R) (position : nat) : list R :=
  store out position (value position).

Lemma length_stores (ps : list nat) : forall out,
  length (fold_left body ps out) = length out.
Proof.
  induction ps as [|p ps IH]; intros out; simpl; [reflexivity|].
  rewrite IH. apply length_store.
Qed.

Lemma nth_stores_written (ps : list nat) : forall out q,
  (q < length out)%nat ->
  nth q out 0 = value q \/ In q ps ->
  nth q (fold_left body ps out) 0 = value q.
Proof.
  induction ps as [|p ps IH]; intros out q Hq H; simpl.
  - destruct H as [H|[]]. exact H.
  - apply IH; [unfold body; now rewrite length_store|].
    destruct (Nat.eq_dec p q) as [->|Hne].
    + left. unfold body. now apply nth_store_same.
    + destruct H as [H|[H|H]]; [left | congruence | right; exact H].
      unfold body. now rewrite nth_store_other.
Qed.

End Stores.

Lemma fold_left_flat_map {A B C : Type} (f : A -> C -> A) (h : B -> list C)
    (l : list B) : forall a,
  fold_left (fun a x => fold_left f (h x) a) l a
  = fold_left f (flat_map h l) a.
Proof.
  induction l as [|x l IH]; intros a; simpl; [reflexivity|].
  now rewrite fold_left_app, IH.
Qed.

Lemma fold_left_pointwise {A B : Type} (f g : A -> B -> A) (l : list B) :
  (forall a b, f a b = g a b) ->
  forall a, fold_left f l a = fold_left g l a.
Proof.
  intros H. induction l as [|x l IH]; intros a; simpl; [reflexivity|].
  now rewrite H, IH.
Qed.

(** *** Ranges *)

Lemma in_py_range (start stop step p : nat) :
  (0 < step)%nat -> (start <= p < stop)%nat -> ((p - start) mod step = 0)%nat ->
  In p (py_range start stop step).
Proof.
  intros Hs Hp Hmod. unfold py_range.
  apply in_map_iff. exists ((p - start) / step)%nat.
  pose proof (Nat.div_mod_eq (p - start) step) as E. rewrite Hmod in E.
  split; [nia|]. apply in_seq. split; [lia|]. simpl.
  apply Nat.Div0.div_lt_upper_bound.
  pose proof (Nat.div_mod_eq (stop - start + step - 1) step) as E'.
  pose proof (Nat.mod_upper_bound (stop - start + step - 1) step ltac:(lia)).
  nia.
Qed.

(** Every position below the number of windows belongs to the range of
    one warp of the grid. *)
Lemma position_covered (gridDim warpDim L p : nat) :
  (0 < gridDim)%nat -> (0 < warpDim)%nat -> (p < L)%nat ->
  In p (flat_map (fun blockIdx =>
          flat_map (fun warpIdx =>
            py_range (blockIdx * warpDim + warpIdx) L (gridDim * warpDim))
            (seq 0 warpDim))
          (seq 0 gridDim)).
Proof.
  intros Hg Hw Hp.
  set (stride := (gridDim * warpDim)%nat).
  assert (Hs : (0 < stride)%nat) by (unfold stride; nia).
  set (lower := (p mod stride)%nat).
  assert (Hl : (lower < stride)%nat) by (apply Nat.mod_upper_bound; lia).
  pose proof (Nat.div_mod_eq p stride) as Ep. fold lower in Ep.
  pose proof (Nat.div_mod_eq lower warpDim) as El.
  pose proof (Nat.mod_upper_bound lower warpDim ltac:(lia)) as Hr.
  apply in_flat_map. exists (lower / warpDim)%nat. split.
  - apply in_seq. split; [lia|]. simpl.
    apply Nat.Div0.div_lt_upper_bound. unfold stride in Hl. lia.
  - apply in_flat_map. exists (lower mod warpDim)%nat. split.
    + apply in_seq. lia.
    + replace (lower / warpDim * warpDim + lower mod warpDim)%nat
        with lower by lia.
      apply in_py_range; [exact Hs | lia |].
      replace (p - lower)%nat with (p / stride * stride)%nat by lia.
      apply Nat.Div0.mod_mul.
Qed.

(** Stores of a value that depends on the position alone fill the
    buffer, in whatever order the positions come, as long as every
    position comes. *)
Lemma stores_fill (value : nat -> R) (ps : list nat) (out : list R) :
  (forall p, (p < length out)%nat -> In p ps) ->
  fold_left (fun out position => store out position (value position)) ps out
  = map value (seq 0 (length out)).
Proof.
  intros Hall. apply table_eq.
  - apply length_stores.
  - intros k Hk. apply nth_stores_written; [exact Hk|]. right. now apply Hall.
Qed.

(** The order in which the warps run does not matter. *)
Lemma stores_any_order (value : nat -> R) (ps ps' : list nat) (out : list R) :
  (forall p, (p < length out)%nat -> In p ps) ->
  (forall p, (p < length out)%nat -> In p ps') ->
  fold_left (fun out position => store out position (value position)) ps out
  = fold_left (fun out position => store out position (value position)) ps' out.
Proof. intros H H'. now rewrite !stores_fill. Qed.

(** A kernel whose warps store a value that depends on the position
    alone fills the whole output buffer with it. *)
Lemma launch_fills (gridDim blockDim len_Q len_S : nat) (value : nat -> R)
    (out : list R) :
  (0 < gridDim)%nat -> (32 <= blockDim)%nat ->
  length out = (len_S + 1 - len_Q)%nat ->
  launch gridDim blockDim len_Q len_S
         (fun out position => store out position (value position)) out
  = map value (seq 0 (len_S + 1 - len_Q)).
Proof.
  intros Hg Hb Hout. unfold launch. cbv zeta.
  assert (Hw : (0 < blockDim / 32)%nat).
  { apply Nat.div_str_pos. lia. }
  rewrite (fold_left_pointwise _
    (fun out blockIdx =>
       fold_left (fun out position => store out position (value position))
         (flat_map (fun warpIdx =>
            py_range (blockIdx * (blockDim / 32) + warpIdx)
                     (len_S + 1 - len_Q) (gridDim * (blockDim / 32)))
            (seq 0 (blockDim / 32))) out)).
  2: { intros a b. apply fold_left_flat_map. }
  rewrite (fold_left_flat_map
    (fun out position => store out position (value position))
    (fun blockIdx => flat_map (fun warpIdx =>
            py_range (blockIdx * (blockDim / 32) + warpIdx)
                     (len_S + 1 - len_Q) (gridDim * (blockDim / 32)))
            (seq 0 (blockDim / 32)))).
  rewrite stores_fill, Hout; [reflexivity|].
  intros p Hp. apply position_covered; [assumption | assumption | lia].
Qed.

(** *** The reductions of a warp *)

Ltac destruct_lanes v H :=
  do 32 (destruct v as [|? v]; [discriminate H|]);
  destruct v; [|discriminate H].

(** After the shuffle-down rounds lane 0 holds the sum of all lanes. *)
Lemma reduce_down_total (v : list R) :
  length v = 32%nat -> nth 0 (Cuda.reduce_down v) 0 = Np.sum v.
Proof.
  intros H. destruct_lanes v H.
  cbv - [Rplus IZR]. ring.
Qed.

(** After the shuffle-xor rounds every lane holds the sum of all lanes. *)
Lemma reduce_xor_total (v : list R) :
  length v = 32%nat ->
  Cuda.reduce_xor v = map (fun _ => Np.sum v) (seq 0 32).
Proof.
  intros H. destruct_lanes v H.
  cbv - [Rplus IZR]. repeat (apply (f_equal2 (@cons R)); [ring|]).
  reflexivity.
Qed.

(** *** The strided shares of the lanes *)

Lemma fold_accum (t : nat -> R) (l : list nat) : forall a0,
  fold_left (fun accum index => accum + t index) l a0
  = a0 + Np.sum (map t l).
Proof.
  induction l as [|i l IH]; intros a0; simpl; [lra|]. rewrite IH. lra.
Qed.

Lemma sum_app (a b : list R) : Np.sum (a ++ b) = Np.sum a + Np.sum b.
Proof. induction a; simpl; [lra | rewrite IHa; lra]. Qed.

Lemma sum_map_seq (g : nat -> R) (n : nat) :
  Np.sum (map g (seq 0 n)) = bigsum g n.
Proof.
  induction n; [reflexivity|].
  rewrite seq_S, map_app, sum_app, IHn. simpl. lra.
Qed.

Lemma py_range_step (l m : nat) :
  (l < 32)%nat ->
  py_range l (S m) 32
  = py_range l m 32 ++ (if Nat.eqb (m mod 32) l then [m] else []).
Proof.
  intros Hl.
  pose proof (Nat.div_mod_eq m 32).
  pose proof (Nat.mod_upper_bound m 32 ltac:(lia)).
  pose proof (Nat.div_mod_eq (S m - l + 32 - 1) 32).
  pose proof (Nat.mod_upper_bound (S m - l + 32 - 1) 32 ltac:(lia)).
  pose proof (Nat.div_mod_eq (m - l + 32 - 1) 32).
  pose proof (Nat.mod_upper_bound (m - l + 32 - 1) 32 ltac:(lia)).
  unfold py_range. destruct (Nat.eqb_spec (m mod 32) l).
  - replace ((S m - l + 32 - 1) / 32)%nat
      with (S ((m - l + 32 - 1) / 32)) by lia.
    rewrite seq_S, map_app. cbn [map]. repeat f_equal. lia.
  - rewrite app_nil_r. f_equal. f_equal. lia.
Qed.

Lemma lanes_partition (t : nat -> R) (m : nat) :
  bigsum (fun l => Np.sum (map t (py_range l m 32))) 32 = bigsum t m.
Proof.
  induction m as [|m IH].
  - rewrite (bigsum_ext _ (fun _ => 0)); [apply bigsum_zero | reflexivity].
  - change (bigsum t (S m)) with (bigsum t m + t m). rewrite <- IH.
    rewrite <- (bigsum_single (fun _ => t m) (m mod 32) 32)
      by (apply Nat.mod_upper_bound; lia).
    rewrite <- bigsum_plus. apply bigsum_ext. intros l Hl.
    rewrite py_range_step, map_app, sum_app by exact Hl.
    rewrite (Nat.eqb_sym l). destruct (Nat.eqb (m mod 32) l); simpl; lra.
Qed.

Lemma length_lane_accum (term : nat -> nat -> R) (m : nat) :
  length (lane_accum term m) = 32%nat.
Proof. unfold lane_accum, Cuda.lanes. now rewrite length_map, length_seq. Qed.

(** The lanes together add up every term once, when the term is the
    same in every lane. *)
Lemma sum_lane_accum (term : nat -> nat -> R) (t : nat -> R) (m : nat) :
  (forall lane index, (lane < 32)%nat -> term lane index = t index) ->
  Np.sum (lane_accum term m) = bigsum t m.
Proof.
  intros H. unfold lane_accum, Cuda.lanes.
  rewrite sum_map_seq, <- (lanes_partition t m). apply bigsum_ext. intros l Hl.
  rewrite fold_accum, Rplus_0_l. f_equal. apply map_ext. intros i.
  now apply H.
Qed.

Lemma nth_const_lanes (c : R) (lane : nat) :
  (lane < 32)%nat -> nth lane (map (fun _ => c) (seq 0 32)) 0 = c.
Proof. intros H. now rewrite nth_map_seq. Qed.

(** *** The kernels in closed form *)

Lemma sdist_kernel_closed (gridDim blockDim : nat) (Q S out : list R) :
  (0 < gridDim)%nat -> (32 <= blockDim)%nat ->
  length out = (length S + 1 - length Q)%nat ->
  sdist_kernel gridDim blockDim Q S out
  = map (sq_dist Q S) (seq 0 (length S + 1 - length Q)).
Proof.
  intros Hg Hb Hout. unfold sdist_kernel. cbv zeta.
  rewrite launch_fills by assumption.
  apply map_ext. intros k.
  rewrite reduce_down_total by apply length_lane_accum.
  rewrite (sum_lane_accum _ (fun i => (nth i Q 0 - nth (k + i) S 0) ^ 2)).
  - reflexivity.
  - intros lane i _. ring.
Qed.

Lemma mdist_kernel_closed (gridDim blockDim : nat) (Q S out : list R) :
  (0 < gridDim)%nat -> (32 <= blockDim)%nat ->
  length out = (length S + 1 - length Q)%nat ->
  mdist_kernel gridDim blockDim Q S out
  = map (fun k => bigsum (fun i =>
                    (nth i Q 0
                     - (nth (k + i) S 0 - window_mean S (length Q) k)) ^ 2)
                  (length Q))
        (seq 0 (length S + 1 - length Q)).
Proof.
  intros Hg Hb Hout. unfold mdist_kernel. cbv zeta.
  rewrite launch_fills by assumption.
  apply map_ext. intros k.
  rewrite reduce_down_total by apply length_lane_accum.
  rewrite reduce_xor_total by apply length_lane_accum.
  rewrite map_table.
  rewrite (sum_lane_accum (fun _ index => nth (k + index) S 0)
                          (fun i => nth (k + i) S 0)) by reflexivity.
  apply sum_lane_accum. intros lane i Hlane.
  rewrite nth_const_lanes by exact Hlane.
  unfold window_mean, window_sum. ring.
Qed.

Lemma zdist_kernel_closed (gridDim blockDim : nat) (Q S out : list R)
    (epsilon : R) :
  (0 < gridDim)%nat -> (32 <= blockDim)%nat ->
  length out = (length S + 1 - length Q)%nat ->
  zdist_kernel gridDim blockDim Q S out epsilon
  = map (fun k => bigsum (fun i =>
                    (nth i Q 0
                     - (nth (k + i) S 0 - window_mean S (length Q) k)
                       / window_sigma S (length Q) k epsilon) ^ 2)
                  (length Q))
        (seq 0 (length S + 1 - length Q)).
Proof.
  intros Hg Hb Hout. unfold zdist_kernel. cbv zeta.
  rewrite launch_fills by assumption.
  apply map_ext. intros k.
  rewrite reduce_down_total by apply length_lane_accum.
  rewrite !reduce_xor_total by apply length_lane_accum.
  rewrite map_table, zip_with_tables, map_table.
  rewrite (sum_lane_accum (fun _ index => nth (k + index) S 0)
                          (fun i => nth (k + i) S 0)) by reflexivity.
  rewrite (sum_lane_accum
             (fun _ index => nth (k + index) S 0 * nth (k + index) S 0)
             (fun i => nth (k + i) S 0 * nth (k + i) S 0)) by reflexivity.
  apply sum_lane_accum. intros lane i Hlane.
  rewrite (nth_map_seq _ 32 lane Hlane), (nth_map_seq _ 32 lane Hlane).
  unfold window_sigma, window_var, window_mean, window_sumsq, window_sum.
  ring.
Qed.

(** *** Sums over an array and its normalisations *)

Lemma nth_map_in (f : R -> R) (l : list R) (i : nat) :
  (i < length l)%nat -> nth i (map f l) 0 = f (nth i l 0).
Proof.
  intros Hi. rewrite (nth_indep _ 0 (f 0)) by (now rewrite length_map).
  apply map_nth.
Qed.

Lemma sum_square_bigsum (l : list R) :
  Np.sum (Np.square l) = bigsum (fun i => nth i l 0 * nth i l 0) (length l).
Proof.
  rewrite Np_sum_bigsum, length_square. apply bigsum_ext. intros i _.
  apply nth_square.
Qed.

Lemma INR_length_nonzero (x : list R) : x <> [] -> INR (length x) <> 0.
Proof. intros H. apply not_0_INR. destruct x; simpl; congruence. Qed.

Lemma nth_mnorm (x : list R) (i : nat) :
  (i < length x)%nat -> nth i (mnorm x) 0 = nth i x 0 - Np.mean x.
Proof. intros Hi. unfold mnorm. now rewrite nth_map_in. Qed.

Lemma nth_znorm (x : list R) (epsilon : R) (i : nat) :
  (i < length x)%nat ->
  nth i (znorm x epsilon) 0
  = (nth i x 0 - Np.mean x) / py_max (Np.std x 0) epsilon.
Proof. intros Hi. unfold znorm. now rewrite nth_map_in. Qed.

(** The deviations from the mean add up to nothing. *)
Lemma sum_deviations (x : list R) :
  x <> [] -> bigsum (fun i => nth i x 0 - Np.mean x) (length x) = 0.
Proof.
  intros Hx. rewrite bigsum_minus, bigsum_const. unfold Np.mean.
  rewrite <- Np_sum_bigsum. field. now apply INR_length_nonzero.
Qed.

Lemma sum_mnorm (x : list R) :
  x <> [] -> bigsum (fun i => nth i (mnorm x) 0) (length x) = 0.
Proof.
  intros Hx. transitivity (bigsum (fun i => nth i x 0 - Np.mean x) (length x)).
  - apply bigsum_ext. intros i Hi. now apply nth_mnorm.
  - now apply sum_deviations.
Qed.

Lemma sum_znorm (x : list R) (epsilon : R) :
  x <> [] -> bigsum (fun i => nth i (znorm x epsilon) 0) (length x) = 0.
Proof.
  intros Hx.
  rewrite (bigsum_ext _ (fun i => (nth i x 0 - Np.mean x)
                                  * / py_max (Np.std x 0) epsilon)).
  - rewrite bigsum_scal_r, sum_deviations by exact Hx. ring.
  - intros i Hi. now rewrite nth_znorm.
Qed.

(** [var(x, ddof=0)] is the mean of the squared deviations. *)
Lemma var_population (x : list R) :
  Np.var x 0
  = bigsum (fun i => (nth i x 0 - Np.mean x) ^ 2) (length x) / INR (length x).
Proof.
  unfold Np.var. rewrite sum_square_bigsum, length_map.
  simpl INR at 2. rewrite Rminus_0_r. f_equal.
  apply bigsum_ext. intros i Hi. rewrite nth_map_in by exact Hi. ring.
Qed.

Lemma var_nonneg (x : list R) : 0 <= Np.var x 0.
Proof.
  rewrite var_population. destruct x as [|a x].
  - simpl. unfold Rdiv. rewrite Rmult_0_l. lra.
  - apply Rmult_le_pos.
    + apply bigsum_nonneg. intros i _. apply pow2_ge_0.
    + left. apply Rinv_0_lt_compat. apply lt_0_INR. simpl. lia.
Qed.

Lemma std_square (x : list R) : Np.std x 0 * Np.std x 0 = Np.var x 0.
Proof. unfold Np.std. apply sqrt_sqrt, var_nonneg. Qed.

Lemma std_nonneg (x : list R) : 0 <= Np.std x 0.
Proof. apply sqrt_pos. Qed.

Lemma py_max_ge_r (a b : R) : b <= py_max a b.
Proof. unfold py_max. destruct (Rlt_dec a b); lra. Qed.

Lemma py_max_ge_l (a b : R) : a <= py_max a b.
Proof. unfold py_max. destruct (Rlt_dec a b); lra. Qed.


(** The sum of squares of the normalised query: the length, scaled by
    the square of the ratio between the deviation and the divisor. *)
Lemma sumsq_znorm (x : list R) (epsilon : R) :
  0 < epsilon ->
  bigsum (fun i => nth i (znorm x epsilon) 0 * nth i (znorm x epsilon) 0)
         (length x)
  = INR (length x) * (Np.std x 0 / py_max (Np.std x 0) epsilon) ^ 2.
Proof.
  intros He.
  assert (HD : py_max (Np.std x 0) epsilon <> 0).
  { pose proof (py_max_ge_r (Np.std x 0) epsilon). lra. }
  destruct x as [|a x].
  - simpl. ring.
  - set (l := a :: x) in *.
    assert (Hl : INR (length l) <> 0) by (now apply INR_length_nonzero).
    rewrite (bigsum_ext _ (fun i => (nth i l 0 - Np.mean l) ^ 2
                                    * / (py_max (Np.std l 0) epsilon) ^ 2)).
    + rewrite bigsum_scal_r.
      replace (bigsum (fun i => (nth i l 0 - Np.mean l) ^ 2) (length l))
        with (INR (length l) * Np.var l 0)
        by (rewrite var_population; field; exact Hl).
      rewrite <- std_square. field. exact HD.
    + intros i Hi. rewrite nth_znorm by exact Hi. field. exact HD.
Qed.

Lemma sumsq_znorm_unit (x : list R) (epsilon : R) :
  0 < epsilon -> epsilon <= Np.std x 0 ->
  bigsum (fun i => nth i (znorm x epsilon) 0 * nth i (znorm x epsilon) 0)
         (length x)
  = INR (length x).
Proof.
  intros He Hs. rewrite sumsq_znorm by exact He.
  unfold py_max. destruct (Rlt_dec (Np.std x 0) epsilon); [lra|].
  field. lra.
Qed.

Lemma sumsq_znorm_le (x : list R) (epsilon : R) :
  0 < epsilon ->
  bigsum (fun i => nth i (znorm x epsilon) 0 * nth i (znorm x epsilon) 0)
         (length x)
  <= INR (length x).
Proof.
  intros He. rewrite sumsq_znorm by exact He.
  pose proof (py_max_ge_r (Np.std x 0) epsilon) as H1.
  pose proof (py_max_ge_l (Np.std x 0) epsilon) as H2.
  pose proof (std_nonneg x) as H3.
  set (D := py_max (Np.std x 0) epsilon) in *.
  set (s := Np.std x 0) in *.
  assert (Hr : 0 <= s / D <= 1).
  { split.
    - apply Rmult_le_pos; [exact H3|]. left. apply Rinv_0_lt_compat. lra.
    - apply (Rmult_le_reg_r D); [lra|]. unfold Rdiv.
      rewrite Rmult_assoc, Rinv_l by lra. lra. }
  pose proof (pos_INR (length x)) as Hm.
  assert ((s / D) ^ 2 <= 1) by nra.
  nra.
Qed.

(** *** The identities behind the transform-domain formulas *)

(** [sum_i (a_i - (b_i - c) r)^2], multiplied out. *)
Lemma square_expansion (a b : nat -> R) (c r : R) (n : nat) :
  bigsum (fun i => (a i - (b i - c) * r) ^ 2) n
  = bigsum (fun i => a i * a i) n
    - 2 * r * bigsum (fun i => a i * b i) n
    + r * r * bigsum (fun i => b i * b i) n
    + 2 * c * r * bigsum a n
    - 2 * c * r * r * bigsum b n
    + INR n * (c * c * r * r).
Proof.
  induction n as [|n IH].
  - simpl. ring.
  - rewrite S_INR. cbn [bigsum]. rewrite IH. ring.
Qed.

Lemma raw_identity (q s : list R) (k : nat) :
  Np.sum (Np.square q) - 2 * cross_correlation q s k
  + window_sumsq s (length q) k
  = sq_dist q s k.
Proof.
  unfold sq_dist, cross_correlation, window_sumsq.
  rewrite sum_square_bigsum.
  rewrite (bigsum_ext (fun i => (nth i q 0 - nth (k + i) s 0) ^ 2)
             (fun i => (nth i q 0 - (nth (k + i) s 0 - 0) * 1) ^ 2))
    by (intros; ring).
  rewrite square_expansion. ring.
Qed.

(** The squared deviations of a window add up to [m] times its variance. *)
Lemma window_deviations (s : list R) (m k : nat) :
  (0 < m)%nat ->
  bigsum (fun i => (nth (k + i) s 0 - window_mean s m k) ^ 2) m
  = INR m * window_var s m k.
Proof.
  intros Hm. assert (Hm0 : INR m <> 0) by (apply not_0_INR; lia).
  rewrite (bigsum_ext _
    (fun i => (0 - (nth (k + i) s 0 - window_mean s m k) * 1) ^ 2))
    by (intros; ring).
  rewrite (square_expansion (fun _ => 0) (fun i => nth (k + i) s 0)).
  rewrite (bigsum_scal 0 (fun i => nth (k + i) s 0)), bigsum_const, bigsum_zero.
  unfold window_var, window_mean, window_sumsq, window_sum. field. exact Hm0.
Qed.

Lemma window_var_nonneg (s : list R) (m k : nat) :
  (0 < m)%nat -> 0 <= window_var s m k.
Proof.
  intros Hm. assert (Hm0 : 0 < INR m) by (apply lt_0_INR; lia).
  apply (Rmult_le_reg_l (INR m)); [exact Hm0|].
  rewrite Rmult_0_r, <- window_deviations by exact Hm.
  apply bigsum_nonneg. intros i _. apply pow2_ge_0.
Qed.

Lemma bigsum_zero_terms (f : nat -> R) (n : nat) :
  (forall i, (i < n)%nat -> 0 <= f i) -> bigsum f n = 0 ->
  forall i, (i < n)%nat -> f i = 0.
Proof.
  induction n as [|n IH]; intros Hf H0 i Hi; [lia|].
  cbn [bigsum] in H0.
  assert (0 <= bigsum f n) by (apply bigsum_nonneg; intros; apply Hf; lia).
  assert (0 <= f n) by (apply Hf; lia).
  destruct (Nat.eq_dec i n) as [->|Hne]; [lra|].
  apply IH; [intros; apply Hf; lia | lra | lia].
Qed.

(** A window without variance is constant. *)
Lemma window_flat (s : list R) (m k : nat) :
  (0 < m)%nat -> window_var s m k = 0 ->
  forall i, (i < m)%nat -> nth (k + i) s 0 = window_mean s m k.
Proof.
  intros Hm Hv i Hi.
  pose proof (window_deviations s m k Hm) as E. rewrite Hv, Rmult_0_r in E.
  pose proof (bigsum_zero_terms _ m (fun j _ => pow2_ge_0 _) E i Hi) as Hz.
  cbv beta in Hz. nra.
Qed.

(** A constant window has no variance. *)
Lemma constant_window_var (s : list R) (m k : nat) (c : R) :
  (0 < m)%nat -> (forall i, (i < m)%nat -> nth (k + i) s 0 = c) ->
  window_var s m k = 0.
Proof.
  intros Hm Hc. assert (Hm0 : INR m <> 0) by (apply not_0_INR; lia).
  unfold window_var, window_mean, window_sumsq, window_sum.
  rewrite (bigsum_ext _ (fun _ => c * c)) by (intros i Hi; now rewrite Hc).
  rewrite (bigsum_ext (fun i => nth (k + i) s 0) (fun _ => c))
    by (intros i Hi; now rewrite Hc).
  rewrite !bigsum_const. field. exact Hm0.
Qed.

(** The mean-adjusted identity, for any query that adds up to nothing. *)
Lemma mean_identity (q s : list R) (k : nat) :
  (0 < length q)%nat ->
  bigsum (fun i => nth i q 0) (length q) = 0 ->
  Np.sum (Np.square q) - 2 * cross_correlation q s k
  + (window_sumsq s (length q) k
     - window_sum s (length q) k * window_sum s (length q) k
       / INR (length q))
  = bigsum (fun i => (nth i q 0
                      - (nth (k + i) s 0 - window_mean s (length q) k)) ^ 2)
           (length q).
Proof.
  intros Hm Hq. assert (Hm0 : INR (length q) <> 0) by (apply not_0_INR; lia).
  rewrite (bigsum_ext _
    (fun i => (nth i q 0
               - (nth (k + i) s 0 - window_mean s (length q) k) * 1) ^ 2))
    by (intros; ring).
  rewrite (square_expansion (fun i => nth i q 0) (fun i => nth (k + i) s 0)).
  rewrite Hq, sum_square_bigsum.
  unfold cross_correlation, window_mean, window_sumsq, window_sum.
  field. exact Hm0.
Qed.

(** The normalised identity: the direct distance in terms of the
    correlation, for any query that adds up to nothing. *)
Lemma z_identity (q s : list R) (sigma : R) (k : nat) :
  (0 < length q)%nat ->
  bigsum (fun i => nth i q 0) (length q) = 0 ->
  bigsum (fun i => (nth i q 0
                    - (nth (k + i) s 0 - window_mean s (length q) k)
                      / sigma) ^ 2)
         (length q)
  = bigsum (fun i => nth i q 0 * nth i q 0) (length q)
    - 2 * (cross_correlation q s k / sigma)
    + INR (length q) * window_var s (length q) k / (sigma * sigma).
Proof.
  intros Hm Hq. assert (Hm0 : INR (length q) <> 0) by (apply not_0_INR; lia).
  unfold Rdiv at 1.
  rewrite (square_expansion (fun i => nth i q 0) (fun i => nth (k + i) s 0)).
  rewrite Hq.
  unfold cross_correlation, window_var, window_mean, window_sumsq, window_sum.
  destruct (Req_dec_T sigma 0) as [->|Hs].
  - unfold Rdiv. rewrite Rmult_0_l, !Rinv_0. ring.
  - field. split; assumption.
Qed.

(** *** The inequality of Cauchy and Schwarz *)

Lemma cauchy_schwarz (a b : nat -> R) (n : nat) :
  bigsum (fun i => a i * b i) n * bigsum (fun i => a i * b i) n
  <= bigsum (fun i => a i * a i) n * bigsum (fun i => b i * b i) n.
Proof.
  set (A := bigsum (fun i => a i * a i) n).
  set (B := bigsum (fun i => b i * b i) n).
  set (P := bigsum (fun i => a i * b i) n).
  assert (HA : 0 <= A) by (apply bigsum_nonneg; intros; nra).
  assert (HB : 0 <= B) by (apply bigsum_nonneg; intros; nra).
  assert (Hq : forall t, 0 <= A * (t * t) + 2 * P * t + B).
  { intros t.
    replace (A * (t * t) + 2 * P * t + B)
      with (bigsum (fun i => (b i - (a i - 0) * (- t)) ^ 2) n).
    - apply bigsum_nonneg. intros i _. apply pow2_ge_0.
    - rewrite square_expansion.
      rewrite (bigsum_ext (fun i => b i * a i) (fun i => a i * b i))
        by (intros; ring).
      fold A B P. ring. }
  destruct (Req_dec_T A 0) as [HA0|HA0].
  - destruct (Req_dec_T P 0) as [HP0|HP0]; [rewrite HP0, HA0; lra|].
    exfalso. specialize (Hq (- (B + 1) / (2 * P))). rewrite HA0 in Hq.
    replace (0 * (- (B + 1) / (2 * P) * (- (B + 1) / (2 * P)))
             + 2 * P * (- (B + 1) / (2 * P)) + B) with (-1) in Hq
      by (field; exact HP0).
    lra.
  - specialize (Hq (- P / A)).
    replace (A * (- P / A * (- P / A)) + 2 * P * (- P / A) + B)
      with ((A * B - P * P) / A) in Hq by (field; exact HA0).
    assert (0 < A) by lra.
    assert (0 <= A * B - P * P).
    { apply (Rmult_le_reg_r (/ A)); [now apply Rinv_0_lt_compat|].
      rewrite Rmult_0_l. exact Hq. }
    lra.
Qed.

(** *** The public operations on valid input *)

Lemma default_alignment_large : (2 <= default_alignment)%nat.
Proof. unfold default_alignment. lia. Qed.

Lemma shapes_ok_valid (Q S : ndarray) : valid_input Q S -> shapes_ok Q S = true.
Proof.
  intros (_ & HQ & HS & Hm). unfold shapes_ok, rank1, len in *.
  rewrite HQ, HS. cbn [length hd]. rewrite Nat.eqb_refl. cbn [andb].
  apply Nat.leb_le. lia.
Qed.

Lemma not_fft (mode : string) : mode <> "fft"%string ->
  String.eqb mode "fft" = false.
Proof. intros H. now apply String.eqb_neq. Qed.

Lemma length_cp_empty (uninitialised : nat -> R) (n : nat) :
  length (cp_empty uninitialised n) = n.
Proof. unfold cp_empty. now rewrite length_map, length_seq. Qed.

Section Public.

Variable uninitialised : nat -> R.
Variables Q S : ndarray.
Hypothesis Hvalid : valid_input Q S.

Let q := arr_data Q.
Let s := arr_data S.
Let windows := (len S - len Q + 1)%nat.

Lemma windows_eq : (length s + 1 - length q = windows)%nat.
Proof.
  destruct Hvalid as (_ & _ & _ & Hm). unfold windows, len, q, s in *. lia.
Qed.

Lemma sdist_transform :
  sdist uninitialised Q S "fft"
  = fft_sdist Q S default_alignment default_Kahan.
Proof.
  unfold sdist. destruct Hvalid as (Hdt & _).
  apply dtype_eqb_eq in Hdt. rewrite Hdt.
  rewrite (shapes_ok_valid Q S Hvalid). reflexivity.
Qed.

Lemma sdist_direct (mode : string) :
  mode <> "fft"%string ->
  sdist uninitialised Q S mode
  = ret (sdist_kernel (80 * 32) 64 q s (cp_empty uninitialised windows)).
Proof.
  intros Hmode. unfold sdist. destruct Hvalid as (Hdt & _).
  apply dtype_eqb_eq in Hdt. rewrite Hdt.
  rewrite (shapes_ok_valid Q S Hvalid), (not_fft mode Hmode). reflexivity.
Qed.

Lemma mdist_transform :
  mdist uninitialised Q S "fft"
  = fft_mdist Q S default_alignment default_Kahan.
Proof.
  unfold mdist. destruct Hvalid as (Hdt & _).
  apply dtype_eqb_eq in Hdt. rewrite Hdt.
  rewrite (shapes_ok_valid Q S Hvalid). reflexivity.
Qed.

Lemma mdist_direct (mode : string) :
  mode <> "fft"%string ->
  mdist uninitialised Q S mode
  = ret (mdist_kernel (80 * 32) 64 (mnorm q) s
                      (cp_empty uninitialised windows)).
Proof.
  intros Hmode. unfold mdist. destruct Hvalid as (Hdt & _).
  apply dtype_eqb_eq in Hdt. rewrite Hdt.
  rewrite (shapes_ok_valid Q S Hvalid), (not_fft mode Hmode). reflexivity.
Qed.

Section Normalised.

Variable epsilon : R.
Hypothesis Hepsilon : 0 < epsilon.
Hypothesis Hstd : 0 < Np.std q 0.

Lemma zdist_transform :
  zdist uninitialised Q S "fft" epsilon
  = fft_zdist Q S epsilon default_alignment default_Kahan.
Proof.
  unfold zdist. destruct Hvalid as (Hdt & _).
  apply dtype_eqb_eq in Hdt. rewrite Hdt.
  rewrite (shapes_ok_valid Q S Hvalid).
  apply Rgtb_true in Hepsilon, Hstd. fold q. rewrite Hepsilon, Hstd.
  reflexivity.
Qed.

Lemma zdist_direct (mode : string) :
  mode <> "fft"%string ->
  zdist uninitialised Q S mode epsilon
  = ret (zdist_kernel (80 * 32) 64 (znorm q epsilon) s
                      (cp_empty uninitialised windows) epsilon).
Proof.
  intros Hmode. unfold zdist. destruct Hvalid as (Hdt & _).
  apply dtype_eqb_eq in Hdt. rewrite Hdt.
  rewrite (shapes_ok_valid Q S Hvalid), (not_fft mode Hmode).
  apply Rgtb_true in Hepsilon, Hstd. fold q. rewrite Hepsilon, Hstd.
  reflexivity.
Qed.

End Normalised.

End Public.

(** *** The normalised distance, window by window *)

Lemma std_positive_length (x : list R) :
  0 < Np.std x 0 -> (2 <= length x)%nat.
Proof.
  intros H. destruct x as [|a [|b x]]; [| |simpl; lia]; exfalso.
  - unfold Np.std in H. rewrite var_population in H. simpl in H.
    unfold Rdiv in H. rewrite Rmult_0_l, sqrt_0 in H. lra.
  - unfold Np.std in H. rewrite var_population in H.
    unfold Np.mean in H. simpl in H.
    replace ((0 + (a - (a + 0) / 1) * ((a - (a + 0) / 1) * 1)) / 1)
      with 0 in H by field.
    rewrite sqrt_0 in H. lra.
Qed.

Lemma length_positive (q : list R) : q <> [] -> (0 < length q)%nat.
Proof. destruct q; simpl; [congruence | lia]. Qed.

(** The deviation of the transform path is that of the window. *)
Lemma clamped_deviation (s : list R) (m k : nat) :
  (0 < m)%nat ->
  sqrt (Rmax (window_var s m k) 0) = sqrt (window_var s m k).
Proof.
  intros Hm. rewrite Rmax_left by (now apply window_var_nonneg). reflexivity.
Qed.

Lemma deviation_positive (s : list R) (m k : nat) :
  (0 < m)%nat ->
  Rgtb (sqrt (window_var s m k)) 0 = Rgtb (window_var s m k) 0.
Proof.
  intros Hm. pose proof (window_var_nonneg s m k Hm) as Hv.
  destruct (Rgtb (window_var s m k) 0) eqn:E.
  - apply Rgtb_true in E. apply Rgtb_true. now apply sqrt_lt_R0.
  - apply Rgtb_false in E. apply Rgtb_false.
    replace (window_var s m k) with 0 by lra. rewrite sqrt_0. lra.
Qed.

Section Window.

Variables q s : list R.
Variable epsilon : R.
Variable k : nat.
Hypothesis Hq : q <> [].
Hypothesis Hepsilon : 0 < epsilon.

Let m := length q.
Let zq := znorm q epsilon.
Let A := INR m * (Np.std q 0 / py_max (Np.std q 0) epsilon) ^ 2.
Let C := cross_correlation zq s k.
Let v := window_var s m k.

Lemma query_length_positive : (0 < m)%nat.
Proof. apply length_positive, Hq. Qed.

Lemma window_variance_nonneg : 0 <= v.
Proof. apply window_var_nonneg, query_length_positive. Qed.

Lemma correlation_centred :
  C = bigsum (fun i => nth i zq 0
                       * (nth (k + i) s 0 - window_mean s m k)) m.
Proof.
  unfold C, cross_correlation. fold zq.
  replace (length zq) with m by (unfold zq, m; now rewrite length_znorm).
  rewrite (bigsum_ext
     (fun i => nth i zq 0 * (nth (k + i) s 0 - window_mean s m k))
     (fun i => nth i zq 0 * nth (k + i) s 0
               - window_mean s m k * nth i zq 0)) by (intros; ring).
  rewrite bigsum_minus, bigsum_scal.
  unfold zq, m. rewrite (sum_znorm q epsilon Hq). ring.
Qed.

Lemma correlation_flat : v = 0 -> C = 0.
Proof.
  intros Hv. rewrite correlation_centred.
  rewrite (bigsum_ext _ (fun _ => 0)); [apply bigsum_zero|].
  intros i Hi. rewrite (window_flat s m k query_length_positive Hv i Hi). ring.
Qed.

(** The correlation with the normalised query is at most [m] times
    the deviation of the window, by Cauchy and Schwarz. *)
Lemma correlation_bound : 0 < v -> - INR m <= C / sqrt v <= INR m.
Proof.
  intros Hv.
  pose proof (sqrt_lt_R0 v Hv) as Hs.
  pose proof (sqrt_sqrt v (Rlt_le _ _ Hv)) as Hss.
  pose proof (pos_INR m) as Hm.
  assert (HC : C * C <= (INR m * sqrt v) * (INR m * sqrt v)).
  { rewrite correlation_centred.
    eapply Rle_trans; [apply cauchy_schwarz|]. cbv beta.
    rewrite (bigsum_ext
      (fun i => (nth (k + i) s 0 - window_mean s m k)
                * (nth (k + i) s 0 - window_mean s m k))
      (fun i => (nth (k + i) s 0 - window_mean s m k) ^ 2))
      by (intros; ring).
    rewrite (window_deviations s m k query_length_positive). fold v.
    pose proof (sumsq_znorm_le q epsilon Hepsilon) as HA.
    fold zq m in HA.
    assert (E : INR m * sqrt v * (INR m * sqrt v) = INR m * (INR m * v)).
    { transitivity (INR m * INR m * (sqrt v * sqrt v)); [ring|].
      rewrite Hss. ring. }
    rewrite E. apply Rmult_le_compat_r; [nra | exact HA]. }
  assert (HM : 0 <= INR m * sqrt v) by (apply Rmult_le_pos; lra).
  assert (Hb : - (INR m * sqrt v) <= C <= INR m * sqrt v).
  { revert HC HM. generalize (INR m * sqrt v) as M. intros M HC HM.
    split; nra. }
  split.
  - apply (Rmult_le_reg_r (sqrt v)); [exact Hs|].
    unfold Rdiv. rewrite Rmult_assoc, Rinv_l by lra. lra.
  - apply (Rmult_le_reg_r (sqrt v)); [exact Hs|].
    unfold Rdiv. rewrite Rmult_assoc, Rinv_l by lra. lra.
Qed.

(** What the direct kernel adds up at window [k]. *)
Lemma z_sq_dist_value :
  z_sq_dist q s epsilon k
  = if Rgtb v 0 then A + INR m - 2 * (C / sqrt v) else A.
Proof.
  unfold z_sq_dist. fold m zq.
  assert (Hlen : length zq = m)
    by (unfold zq, m; now rewrite length_znorm).
  assert (Hsum : bigsum (fun i => nth i zq 0) (length zq) = 0)
    by (rewrite Hlen; unfold zq, m; now apply sum_znorm).
  pose proof (z_identity zq s (window_sigma s m k epsilon) k) as E.
  rewrite Hlen in E, Hsum. rewrite (E query_length_positive Hsum).
  clear E. fold C v.
  replace (bigsum (fun i => nth i zq 0 * nth i zq 0) m) with A
    by (unfold A, zq, m; now rewrite sumsq_znorm).
  unfold window_sigma. fold v.
  destruct (Rgtb v 0) eqn:Ev.
  - apply Rgtb_true in Ev. pose proof (sqrt_lt_R0 v Ev).
    rewrite sqrt_sqrt by lra. field. repeat split; lra.
  - apply Rgtb_false in Ev. pose proof window_variance_nonneg.
    assert (Hv0 : v = 0) by lra.
    rewrite (correlation_flat Hv0), Hv0. field. lra.
Qed.

Lemma z_sq_dist_nonneg : 0 <= z_sq_dist q s epsilon k.
Proof. apply bigsum_nonneg. intros i _. apply pow2_ge_0. Qed.

Lemma znorm_energy_bounds : 0 <= A <= INR m.
Proof.
  pose proof (sumsq_znorm_le q epsilon Hepsilon) as H.
  rewrite sumsq_znorm in H by exact Hepsilon. fold m A in H.
  split; [|exact H]. unfold A.
  apply Rmult_le_pos; [apply pos_INR | apply pow2_ge_0].
Qed.

Lemma znorm_energy_unit : epsilon <= Np.std q 0 -> A = INR m.
Proof.
  intros Hs. pose proof (sumsq_znorm_unit q epsilon Hepsilon Hs) as H.
  rewrite sumsq_znorm in H by exact Hepsilon. exact H.
Qed.

End Window.

(** *** The distance arrays of the public operations *)

Lemma data_nonempty (Q S : ndarray) : valid_input Q S -> arr_data Q <> [].
Proof.
  intros (_ & _ & _ & Hm) E. unfold len in Hm. rewrite E in Hm. simpl in Hm. lia.
Qed.

Lemma sdist_fft_value (u : nat -> R) (Q S : ndarray) :
  valid_input Q S -> (2 <= len Q)%nat ->
  sdist u Q S "fft"
  = ret (map (sq_dist (arr_data Q) (arr_data S)) (seq 0 (len S - len Q + 1))).
Proof.
  intros Hv Hm. pose proof Hv as (Hdt & _ & _ & Hn).
  rewrite (sdist_transform u Q S Hv).
  rewrite fft_sdist_closed
    by (try exact Hdt; pose proof default_alignment_large; lia).
  f_equal. apply map_ext. intros k. apply raw_identity.
Qed.

Lemma sdist_direct_value (u : nat -> R) (Q S : ndarray) (mode : string) :
  valid_input Q S -> mode <> "fft"%string ->
  sdist u Q S mode
  = ret (map (sq_dist (arr_data Q) (arr_data S)) (seq 0 (len S - len Q + 1))).
Proof.
  intros Hv Hmode. rewrite (sdist_direct u Q S Hv mode Hmode).
  rewrite sdist_kernel_closed
    by (try lia; rewrite length_cp_empty, (windows_eq Q S Hv); reflexivity).
  now rewrite (windows_eq Q S Hv).
Qed.

Lemma mdist_fft_value (u : nat -> R) (Q S : ndarray) :
  valid_input Q S -> (2 <= len Q)%nat ->
  mdist u Q S "fft"
  = ret (map (mean_sq_dist (arr_data Q) (arr_data S))
             (seq 0 (len S - len Q + 1))).
Proof.
  intros Hv Hm. pose proof Hv as (Hdt & _ & _ & Hn).
  rewrite (mdist_transform u Q S Hv).
  rewrite fft_mdist_closed by (pose proof default_alignment_large; lia).
  f_equal. apply map_ext. intros k. unfold mean_sq_dist, len.
  rewrite <- (length_mnorm (arr_data Q)). apply mean_identity.
  - rewrite length_mnorm. unfold len in Hn. lia.
  - rewrite length_mnorm. apply sum_mnorm. exact (data_nonempty Q S Hv).
Qed.

Lemma mdist_direct_value (u : nat -> R) (Q S : ndarray) (mode : string) :
  valid_input Q S -> mode <> "fft"%string ->
  mdist u Q S mode
  = ret (map (mean_sq_dist (arr_data Q) (arr_data S))
             (seq 0 (len S - len Q + 1))).
Proof.
  intros Hv Hmode. rewrite (mdist_direct u Q S Hv mode Hmode).
  rewrite mdist_kernel_closed
    by (try lia; rewrite length_cp_empty, length_mnorm, (windows_eq Q S Hv);
        reflexivity).
  rewrite length_mnorm, (windows_eq Q S Hv). reflexivity.
Qed.

Lemma zdist_direct_value (u : nat -> R) (Q S : ndarray) (mode : string)
    (epsilon : R) :
  valid_z_input Q S epsilon -> mode <> "fft"%string ->
  zdist u Q S mode epsilon
  = ret (map (z_sq_dist (arr_data Q) (arr_data S) epsilon)
             (seq 0 (len S - len Q + 1))).
Proof.
  intros (Hv & He & Hs) Hmode.
  rewrite (zdist_direct u Q S Hv epsilon He Hs mode Hmode).
  rewrite zdist_kernel_closed
    by (try lia; rewrite length_cp_empty, length_znorm, (windows_eq Q S Hv);
        reflexivity).
  rewrite length_znorm, (windows_eq Q S Hv). reflexivity.
Qed.

Lemma zdist_fft_value (u : nat -> R) (Q S : ndarray) (epsilon : R) :
  valid_z_input Q S epsilon ->
  zdist u Q S "fft" epsilon
  = ret (map (fun k =>
                if Rgtb (window_var (arr_data S) (len Q) k) 0
                then 2 * (INR (len Q)
                          - cross_correlation (znorm (arr_data Q) epsilon)
                                              (arr_data S) k
                            / sqrt (window_var (arr_data S) (len Q) k))
                else INR (len Q))
             (seq 0 (len S - len Q + 1))).
Proof.
  intros (Hv & He & Hs). pose proof Hv as (_ & _ & _ & Hn).
  pose proof (std_positive_length _ Hs) as Hm.
  rewrite (zdist_transform u Q S Hv epsilon He Hs).
  rewrite fft_zdist_closed
    by (try exact He; pose proof default_alignment_large; unfold len in *; lia).
  f_equal. apply map_ext. intros k. unfold len.
  rewrite clamped_deviation, deviation_positive by lia. reflexivity.
Qed.

(** *** Concrete arrays *)

Lemma sqrt_quarter : sqrt (1 / 4) = 1 / 2.
Proof.
  replace (1 / 4) with ((1 / 2) * (1 / 2)) by lra. apply sqrt_square. lra.
Qed.

Lemma valid_array1 (dt : dtype) (q s : list R) :
  (1 <= length q <= length s)%nat ->
  valid_input (array1 dt q) (array1 dt s).
Proof.
  intros H. unfold valid_input, rank1, len. cbn [array1 arr_dtype arr_shape arr_data].
  repeat split; try reflexivity; lia.
Qed.

Lemma mean_0_1 : Np.mean [0; 1] = 1 / 2.
Proof. unfold Np.mean. cbn [Np.sum fold_right length INR]. lra. Qed.

Lemma var_0_1 : Np.var [0; 1] 0 = 1 / 4.
Proof.
  unfold Np.var. rewrite mean_0_1.
  cbn [map Np.square Np.sum fold_right length INR]. lra.
Qed.

Lemma std_0_1 : Np.std [0; 1] 0 = 1 / 2.
Proof. unfold Np.std. rewrite var_0_1. apply sqrt_quarter. Qed.

Lemma znorm_0_1 (epsilon : R) :
  znorm [0; 1] epsilon
  = [- (1 / 2) / py_max (1 / 2) epsilon; (1 / 2) / py_max (1 / 2) epsilon].
Proof.
  unfold znorm. rewrite mean_0_1, std_0_1. cbn [map].
  repeat (apply (f_equal2 (@cons R)); [f_equal; lra|]). reflexivity.
Qed.

Lemma py_max_half_one : py_max (1 / 2) 1 = 1.
Proof. unfold py_max. destruct (Rlt_dec (1 / 2) 1); lra. Qed.

Lemma py_max_half_quarter : py_max (1 / 2) (1 / 4) = 1 / 2.
Proof. unfold py_max. destruct (Rlt_dec (1 / 2) (1 / 4)); lra. Qed.

Lemma valid_z_0_1 (s : list R) (epsilon : R) :
  (2 <= length s)%nat -> 0 < epsilon ->
  valid_z_input (array1 float64 [0; 1]) (array1 float64 s) epsilon.
Proof.
  intros Hs He. split; [apply valid_array1; simpl; lia|].
  split; [exact He|]. cbn [arr_data array1]. rewrite std_0_1. lra.
Qed.

Lemma Rgtb_pos (x : R) : 0 < x -> Rgtb x 0 = true.
Proof. apply Rgtb_true. Qed.

Lemma Rgtb_zero : Rgtb 0 0 = false.
Proof. apply Rgtb_false. lra. Qed.

(** * The claims *)

Lemma direct_mode : "direct"%string <> "fft"%string.
Proof. discriminate. Qed.

(** C5: for Query [1,2,3] and Stream [1,2,3,1,2,3,9,9,9] in direct mode the
    raw distance is the array [0, 6, 6, 0, 38, 89, 149]: entry 0 and
    entry 3 are 0, and entry 6 is 149 = 64 + 49 + 36, whatever the output
    buffer held before the kernel ran. *)
Theorem C5_concrete_scenario (uninitialised : nat -> R) :
  let D := [0; 6; 6; 0; 38; 89; 149] in
  sdist uninitialised (array1 float64 [1; 2; 3])
        (array1 float64 [1; 2; 3; 1; 2; 3; 9; 9; 9]) "direct" = ret D
  /\ nth 0 D 0 = 0 /\ nth 3 D 0 = 0
  /\ nth 6 D 0 = (9 - 1) ^ 2 + (9 - 2) ^ 2 + (9 - 3) ^ 2
  /\ nth 6 D 0 = 149.
Proof.
  cbv zeta. split.
  - rewrite sdist_direct_value
      by (try apply valid_array1; try exact direct_mode; simpl; lia).
    unfold len, sq_dist.
    cbn [array1 arr_data length Nat.sub Nat.add seq map bigsum nth].
    f_equal. repeat (apply (f_equal2 (@cons R)); [ring|]). reflexivity.
  - cbn [nth]. repeat split; ring.
Qed.

(** C7: the stabilized prefix sum of the array without elements does not
    return once a refinement round is asked for: the maximum of the empty
    residual raises.  (On every other input it returns the exclusive scan,
    see [cumsum_scan].) *)
Theorem C7_cumsum_empty_raises (Kahan : nat) :
  cumsum [] (S Kahan) = raise ValueError.
Proof. reflexivity. Qed.

(** C10: on the array without elements the depth changes the outcome:
    depth 0 returns the one-element scan, depth 1 raises. *)
Theorem C10_depth_matters_on_empty :
  cumsum [] 0 = ret [0] /\ cumsum [] 1 = raise ValueError
  /\ cumsum [] 1 <> cumsum [] 0.
Proof. repeat split. discriminate. Qed.

(** On an array with elements, and at depth 0 on every array, the
    stabilized prefix sum returns the exclusive scan, whatever the depth:
    the recursion is on the depth, which bounds the number of rounds. *)
Lemma cumsum_scan (x : list R) (Kahan : nat) :
  x <> [] \/ Kahan = O ->
  exists y, cumsum x Kahan = ret y
            /\ length y = S (length x)
            /\ nth 0 y 0 = 0
            /\ forall i, (1 <= i <= length x)%nat ->
                         nth i y 0 = bigsum (fun j => nth j x 0) i.
Proof.
  intros H. exists (0 :: Np.cumsum x). split.
  - destruct H as [H| ->]; [now apply cumsum_nonempty | apply cumsum_0].
  - split; [apply length_exclusive_scan|]. split; [reflexivity|].
    intros i Hi. apply nth_exclusive_scan. lia.
Qed.

Lemma cumsum_depth_irrelevant (x : list R) (Kahan : nat) :
  x <> [] -> cumsum x Kahan = cumsum x 0.
Proof. intros H. now rewrite cumsum_0, cumsum_nonempty. Qed.

(** C2: with a query of one element the transform-domain path of the raw
    and of the mean-adjusted distance does not return an array: the slice
    [R[:-m+1]] is [R[:0]], without elements, and adding the windowed sums
    to it raises.  The direct path returns the [n - m + 1 = 2] entries. *)
Theorem C2_single_element_query_raises (uninitialised : nat -> R) :
  let Q := array1 float64 [1] in
  let S := array1 float64 [1; 2] in
  valid_input Q S
  /\ sdist uninitialised Q S "fft" = raise ValueError
  /\ mdist uninitialised Q S "fft" = raise ValueError
  /\ sdist uninitialised Q S "direct" = ret [0; 1].
Proof.
  cbv zeta.
  assert (Hv : valid_input (array1 float64 [1]) (array1 float64 [1; 2]))
    by (apply valid_array1; simpl; lia).
  split; [exact Hv|]. split; [|split].
  - rewrite (sdist_transform _ _ _ Hv).
    apply fft_sdist_single;
      [reflexivity | apply default_alignment_large | reflexivity
      | unfold len; simpl; lia].
  - rewrite (mdist_transform _ _ _ Hv).
    apply fft_mdist_single;
      [apply default_alignment_large | reflexivity | unfold len; simpl; lia].
  - rewrite sdist_direct_value by (try exact Hv; exact direct_mode).
    unfold len, sq_dist.
    cbn [array1 arr_data length Nat.sub Nat.add seq map bigsum nth].
    f_equal. repeat (apply (f_equal2 (@cons R)); [ring|]). reflexivity.
Qed.

(** Wherever the transform-domain path applies (a query of two elements
    or more) and on the direct path always, the result has
    [len(S) - len(Q) + 1] entries. *)
Lemma output_length (u : nat -> R) (Q S : ndarray) (mode : string) :
  valid_input Q S -> (2 <= len Q)%nat \/ mode <> "fft"%string ->
  (exists D, sdist u Q S mode = ret D
             /\ length D = (len S - len Q + 1)%nat)
  /\ (exists D, mdist u Q S mode = ret D
                /\ length D = (len S - len Q + 1)%nat)
  /\ (forall epsilon, 0 < epsilon -> 0 < Np.std (arr_data Q) 0 ->
      exists D, zdist u Q S mode epsilon = ret D
                /\ length D = (len S - len Q + 1)%nat).
Proof.
  intros Hv Hm. destruct (string_dec mode "fft") as [->|Hmode].
  - assert (H2 : (2 <= len Q)%nat) by (destruct Hm; [assumption|congruence]).
    split; [|split].
    + eexists. split; [now apply sdist_fft_value | apply length_map_seq].
    + eexists. split; [now apply mdist_fft_value | apply length_map_seq].
    + intros epsilon He Hs. eexists. split.
      * apply zdist_fft_value. repeat split; assumption || apply Hv.
      * apply length_map_seq.
  - split; [|split].
    + eexists. split; [now apply sdist_direct_value | apply length_map_seq].
    + eexists. split; [now apply mdist_direct_value | apply length_map_seq].
    + intros epsilon He Hs. eexists. split.
      * apply zdist_direct_value; [|exact Hmode].
        repeat split; assumption || apply Hv.
      * apply length_map_seq.
Qed.



(** *** The normalised distance of the two paths *)

(** With a query whose deviation reaches [epsilon] the transform-domain
    value of a window is the direct one. *)
Lemma z_paths_agree_at (q s : list R) (epsilon : R) (k : nat) :
  q <> [] -> 0 < epsilon -> epsilon <= Np.std q 0 ->
  (if Rgtb (window_var s (length q) k) 0
   then 2 * (INR (length q)
             - cross_correlation (znorm q epsilon) s k
               / sqrt (window_var s (length q) k))
   else INR (length q))
  = z_sq_dist q s epsilon k.
Proof.
  intros Hq He Hs. rewrite z_sq_dist_value by assumption.
  rewrite (znorm_energy_unit q epsilon He Hs).
  destruct (Rgtb (window_var s (length q) k) 0); ring.
Qed.

(** C1: the two paths of the normalised distance do not compute the same
    function.  On the valid call with the query [0, 1], of deviation 1/2,
    against itself and [epsilon = 1], the transform-domain path returns
    [2] and the direct path [1/2]: the entries differ by 3/2, where the
    claim has them agree. *)
Theorem C1_z_paths_disagree :
  let Q := array1 float64 [0; 1] in
  valid_z_input Q Q 1
  /\ zdist (fun _ => 0) Q Q "fft" 1 = ret [2]
  /\ zdist (fun _ => 0) Q Q "direct" 1 = ret [1 / 2]
  /\ zdist (fun _ => 0) Q Q "fft" 1 <> zdist (fun _ => 0) Q Q "direct" 1.
Proof.
  cbv zeta.
  assert (Hv : valid_z_input (array1 float64 [0; 1]) (array1 float64 [0; 1]) 1)
    by (apply valid_z_0_1; [simpl; lia | lra]).
  assert (Hvar : window_var [0; 1] 2 0 = 1 / 4).
  { unfold window_var, window_mean, window_sumsq, window_sum.
    cbn [bigsum nth Nat.add INR]. lra. }
  assert (Hfft : zdist (fun _ => 0) (array1 float64 [0; 1])
                       (array1 float64 [0; 1]) "fft" 1 = ret [2]).
  { rewrite zdist_fft_value by exact Hv.
    unfold len. cbn [array1 arr_data length Nat.sub Nat.add seq map].
    rewrite Hvar, Rgtb_pos by lra. rewrite sqrt_quarter.
    unfold cross_correlation. rewrite znorm_0_1, py_max_half_one.
    cbn [length bigsum nth Nat.add INR]. f_equal. f_equal. field. }
  assert (Hdir : zdist (fun _ => 0) (array1 float64 [0; 1])
                       (array1 float64 [0; 1]) "direct" 1 = ret [1 / 2]).
  { rewrite zdist_direct_value by (try exact Hv; exact direct_mode).
    unfold len. cbn [array1 arr_data length Nat.sub Nat.add seq map].
    rewrite z_sq_dist_value by (try discriminate; lra).
    cbn [length]. rewrite Hvar, Rgtb_pos by lra. rewrite sqrt_quarter.
    unfold cross_correlation. rewrite znorm_0_1, std_0_1, py_max_half_one.
    cbn [length bigsum nth Nat.add INR]. f_equal. f_equal. field. }
  split; [exact Hv|]. split; [exact Hfft|]. split; [exact Hdir|].
  rewrite Hfft, Hdir. intros E. injection E as E. lra.
Qed.

(** Where the paths do agree, in exact arithmetic: on valid input with a
    query of two elements or more, the transform-domain path and the
    direct path of the raw and of the mean-adjusted distance return the
    same array, window [k] holding the sum of squared differences; the
    raw transform-domain formula is that sum; and the two paths of the
    normalised distance return the same array whenever the deviation of
    the query is at least [epsilon]. *)
Lemma paths_agree_exact (uninitialised : nat -> R) (Q S : ndarray)
    (mode : string) :
  valid_input Q S -> (2 <= len Q)%nat -> mode <> "fft"%string ->
  let q := arr_data Q in
  let s := arr_data S in
  let windows := seq 0 (len S - len Q + 1) in
  (forall k, Np.sum (Np.square q) - 2 * cross_correlation q s k
             + window_sumsq s (len Q) k = sq_dist q s k)
  /\ (sdist uninitialised Q S "fft" = ret (map (sq_dist q s) windows)
      /\ sdist uninitialised Q S mode = ret (map (sq_dist q s) windows))
  /\ (mdist uninitialised Q S "fft" = ret (map (mean_sq_dist q s) windows)
      /\ mdist uninitialised Q S mode = ret (map (mean_sq_dist q s) windows))
  /\ (forall epsilon, 0 < epsilon -> epsilon <= Np.std q 0 ->
      zdist uninitialised Q S "fft" epsilon
      = ret (map (z_sq_dist q s epsilon) windows)
      /\ zdist uninitialised Q S mode epsilon
         = ret (map (z_sq_dist q s epsilon) windows)).
Proof.
  intros Hv Hm Hmode q s windows.
  split; [intros k; apply raw_identity|].
  split; [split; [now apply sdist_fft_value | now apply sdist_direct_value]|].
  split; [split; [now apply mdist_fft_value | now apply mdist_direct_value]|].
  intros epsilon He Hs.
  assert (Hz : valid_z_input Q S epsilon).
  { split; [exact Hv|]. split; [exact He|]. fold q. lra. }
  split; [|now apply zdist_direct_value].
  rewrite zdist_fft_value by exact Hz. f_equal. apply map_ext. intros k.
  apply z_paths_agree_at; [exact (data_nonempty Q S Hv) | exact He | exact Hs].
Qed.

(** In exact arithmetic, at a constant window of a valid normalised call
    the transform-domain path returns [m]; the direct path returns the
    sum of squares of the normalised query,
    [m * (stdev(Q) / max(stdev(Q), epsilon))^2], which is [m] whenever the
    deviation of the query is at least [epsilon]. *)
Lemma constant_window_exact (uninitialised : nat -> R) (Q S : ndarray)
    (epsilon c : R) (k : nat) (mode : string) :
  valid_z_input Q S epsilon -> mode <> "fft"%string ->
  (k + len Q <= len S)%nat ->
  (forall i, (i < len Q)%nat -> nth (k + i) (arr_data S) 0 = c) ->
  (exists D, zdist uninitialised Q S "fft" epsilon = ret D
             /\ nth k D 0 = INR (len Q))
  /\ (exists D, zdist uninitialised Q S mode epsilon = ret D
                /\ nth k D 0
                   = INR (len Q)
                     * (Np.std (arr_data Q) 0
                        / py_max (Np.std (arr_data Q) 0) epsilon) ^ 2
                /\ (epsilon <= Np.std (arr_data Q) 0 ->
                    nth k D 0 = INR (len Q))).
Proof.
  intros Hz Hmode Hk Hc. pose proof Hz as (Hv & He & Hs).
  pose proof (data_nonempty Q S Hv) as Hq.
  pose proof (length_positive _ Hq) as Hm.
  assert (Hvar : window_var (arr_data S) (len Q) k = 0)
    by (apply (constant_window_var _ _ _ c); assumption).
  assert (Hzero : Rgtb (window_var (arr_data S) (len Q) k) 0 = false)
    by (rewrite Hvar; apply Rgtb_zero).
  split.
  - eexists. split; [now apply zdist_fft_value|].
    rewrite nth_map_seq by (unfold len in *; lia). now rewrite Hzero.
  - eexists. split; [now apply zdist_direct_value|].
    rewrite nth_map_seq by (unfold len in *; lia).
    rewrite z_sq_dist_value by assumption. fold (len Q). rewrite Hzero.
    split; [reflexivity|]. intros Hge.
    now apply znorm_energy_unit.
Qed.

(** C3: at a constant window the direct path does not return [m].  The
    query [0, 1] has deviation 1/2, below [epsilon = 1]; the stream
    [5, 5, 7] has the constant window [5, 5] at index 0; the direct path
    returns 1/2 there, where the claim has [m = 2], the value the
    transform-domain path returns on the same call. *)
Theorem C3_constant_window_direct :
  let Q := array1 float64 [0; 1] in
  let S := array1 float64 [5; 5; 7] in
  valid_z_input Q S 1
  /\ (forall i, (i < len Q)%nat -> nth (0 + i) (arr_data S) 0 = 5)
  /\ (exists D, zdist (fun _ => 0) Q S "direct" 1 = ret D
                /\ nth 0 D 0 = 1 / 2 /\ nth 0 D 0 <> INR (len Q))
  /\ (exists D, zdist (fun _ => 0) Q S "fft" 1 = ret D
                /\ nth 0 D 0 = INR (len Q)).
Proof.
  cbv zeta.
  assert (Hv : valid_z_input (array1 float64 [0; 1])
                             (array1 float64 [5; 5; 7]) 1)
    by (apply valid_z_0_1; [simpl; lia | lra]).
  assert (Hc : forall i, (i < len (array1 float64 [0; 1]%R))%nat ->
                 nth (0 + i) (arr_data (array1 float64 [5; 5; 7])) 0 = 5).
  { intros [|[|i]] Hi; cbn in *; try reflexivity. lia. }
  split; [exact Hv|]. split; [exact Hc|]. split.
  - eexists. split;
      [apply zdist_direct_value; [exact Hv | exact direct_mode]|].
    unfold len. cbn [array1 arr_data length Nat.sub Nat.add seq map nth].
    rewrite z_sq_dist_value by (try discriminate; lra).
    assert (Hvar : window_var [5; 5; 7] 2 0 = 0).
    { unfold window_var, window_mean, window_sumsq, window_sum.
      cbn [bigsum nth Nat.add INR]. lra. }
    cbn [length]. rewrite Hvar, Rgtb_zero, std_0_1, py_max_half_one.
    cbn [INR]. split; [field | lra].
  - destruct (constant_window_exact (fun _ => 0) (array1 float64 [0; 1])
                (array1 float64 [5; 5; 7]) 1 5 0 "direct" Hv direct_mode)
      as [HD _]; [unfold len; simpl; lia | exact Hc | exact HD].
Qed.

(** In binary64 the direct path leaves every range: the window
    [1e8, 1e8 + 1] is the query [0, 1] shifted, yet the one-pass variance
    [accum2/m - mean*mean] of the kernel cancels to zero, [epsilon] is
    taken for the deviation, and the distance is 499998000002. *)
Lemma zdist_direct_cancellation (uninitialised : nat -> float)
    (fft_zdist : list float -> list float -> float -> py (list float)) :
  Binary64.zdist uninitialised fft_zdist [0; 1]%float
                 [1e8; 100000001]%float "direct" 1e-6%float
  = ret [499998000002%float].
Proof. vm_compute. reflexivity. Qed.

(** C4 (as stated) fails: the query [0, 1] against the stream [1, 0], its
    mirror image, has normalised distance [8 = 4 m], above [2 m = 4]; and
    in binary64 the direct path returns 499998000002 for the query [0, 1]
    against the stream [1e8, 1e8 + 1] with [epsilon = 1e-6], above every
    multiple of [m] the identity could give. *)
Lemma C4_counterexample :
  let Q := array1 float64 [0; 1] in
  let S := array1 float64 [1; 0] in
  (valid_z_input Q S (1 / 4)
   /\ zdist (fun _ => 0) Q S "fft" (1 / 4) = ret [8]
   /\ ~ (0 <= 8 <= 2 * INR (len Q)))
  /\ Binary64.zdist (fun _ => 0%float) (fun _ _ _ => raise ValueError)
                    [0; 1]%float [1e8; 100000001]%float "direct" 1e-6%float
     = ret [499998000002%float]
  /\ PrimFloat.leb 499998000002%float
                   (PrimFloat.mul 4%float (Binary64.of_nat 2)) = false.
Proof.
  cbv zeta.
  assert (Hv : valid_z_input (array1 float64 [0; 1])
                             (array1 float64 [1; 0]) (1 / 4))
    by (apply valid_z_0_1; [simpl; lia | lra]).
  split; [split; [exact Hv|]; split|].
  - rewrite zdist_fft_value by exact Hv.
    unfold len. cbn [array1 arr_data length Nat.sub Nat.add seq map].
    assert (Hvar : window_var [1; 0] 2 0 = 1 / 4).
    { unfold window_var, window_mean, window_sumsq, window_sum.
      cbn [bigsum nth Nat.add INR]. lra. }
    rewrite Hvar, Rgtb_pos by lra. rewrite sqrt_quarter.
    unfold cross_correlation. rewrite znorm_0_1, py_max_half_quarter.
    cbn [length bigsum nth Nat.add INR]. f_equal. f_equal. field.
  - unfold len. cbn [array1 arr_data length INR]. lra.
  - split; [apply zdist_direct_cancellation | vm_compute; reflexivity].
Qed.

(** C4 (amended): in exact arithmetic every entry of the normalised
    distance of a valid call, in either mode, lies in [[0, 4 m]]; what
    rounding does to the entries is left out. *)
Theorem C4_z_distance_range (uninitialised : nat -> R) (Q S : ndarray)
    (epsilon : R) (mode : string) :
  valid_z_input Q S epsilon ->
  exists D, zdist uninitialised Q S mode epsilon = ret D
            /\ forall k, (k < length D)%nat ->
                         0 <= nth k D 0 <= 4 * INR (len Q).
Proof.
  intros Hz. pose proof Hz as (Hv & He & Hs).
  pose proof (data_nonempty Q S Hv) as Hq.
  pose proof (pos_INR (len Q)) as Hm.
  assert (Hcases : forall k,
    (Rgtb (window_var (arr_data S) (len Q) k) 0 = true
     /\ - INR (len Q)
        <= cross_correlation (znorm (arr_data Q) epsilon) (arr_data S) k
           / sqrt (window_var (arr_data S) (len Q) k)
        <= INR (len Q))
    \/ Rgtb (window_var (arr_data S) (len Q) k) 0 = false).
  { intros k. destruct (Rgtb (window_var (arr_data S) (len Q) k) 0) eqn:E;
      [left | right; reflexivity].
    split; [reflexivity|]. apply Rgtb_true in E.
    now apply correlation_bound. }
  destruct (string_dec mode "fft") as [->|Hmode].
  - eexists. split; [now apply zdist_fft_value|].
    intros k Hk. rewrite length_map_seq in Hk. rewrite nth_map_seq by exact Hk.
    destruct (Hcases k) as [[E Hb]|E]; rewrite E; lra.
  - eexists. split; [now apply zdist_direct_value|].
    intros k Hk. rewrite length_map_seq in Hk. rewrite nth_map_seq by exact Hk.
    split; [apply z_sq_dist_nonneg|].
    rewrite z_sq_dist_value by assumption. fold (len Q).
    pose proof (znorm_energy_bounds (arr_data Q) epsilon He) as HA.
    fold (len Q) in HA.
    destruct (Hcases k) as [[E Hb]|E]; rewrite E; lra.
Qed.

(** An instance of C4: the query [0, 1] against its mirror image. *)
Lemma C4_witness :
  exists D, zdist (fun _ => 0) (array1 float64 [0; 1])
                  (array1 float64 [1; 0]) "fft" (1 / 4) = ret D
            /\ forall k, (k < length D)%nat -> 0 <= nth k D 0 <= 4 * INR 2.
Proof.
  apply (C4_z_distance_range (fun _ => 0) (array1 float64 [0; 1])
           (array1 float64 [1; 0]) (1 / 4) "fft").
  apply valid_z_0_1; [simpl; lia | lra].
Defined.

Lemma transform_mode : "transform"%string <> "fft"%string.
Proof. discriminate. Qed.

(** C6 (as stated) fails: the selector value "transform" runs the direct
    kernel.  With the query [1] and the stream [1, 2] the
    transform-domain engine raises, and the call with mode "transform"
    returns what the kernel wrote. *)
Lemma C6_counterexample :
  let Q := array1 float64 [1] in
  let S := array1 float64 [1; 2] in
  valid_input Q S
  /\ fft_sdist Q S default_alignment default_Kahan = raise ValueError
  /\ sdist (fun _ => 0) Q S "transform"
     = ret (sdist_kernel (80 * 32) 64 (arr_data Q) (arr_data S)
                         (cp_empty (fun _ => 0) 2))
  /\ sdist (fun _ => 0) Q S "transform"
     <> fft_sdist Q S default_alignment default_Kahan.
Proof.
  cbv zeta.
  assert (Hv : valid_input (array1 float64 [1]) (array1 float64 [1; 2]))
    by (apply valid_array1; simpl; lia).
  assert (Hfft : fft_sdist (array1 float64 [1]) (array1 float64 [1; 2])
                           default_alignment default_Kahan = raise ValueError).
  { apply fft_sdist_single;
      [reflexivity | apply default_alignment_large | reflexivity
      | unfold len; simpl; lia]. }
  split; [exact Hv|]. split; [exact Hfft|]. split.
  - now rewrite (sdist_direct _ _ _ Hv "transform" transform_mode).
  - rewrite Hfft, (sdist_direct _ _ _ Hv "transform" transform_mode).
    discriminate.
Qed.

(** C6 (amended): the selector is a string; the value "fft" sends a
    valid call to the transform-domain engine, every other value (so
    "direct", "naive" and also "transform") to the direct kernel of the
    operation, launched on 80 * 32 blocks of 64 threads over a fresh
    output buffer. *)
Theorem C6_dispatch (uninitialised : nat -> R) (Q S : ndarray) :
  valid_input Q S ->
  let q := arr_data Q in
  let s := arr_data S in
  let Z := cp_empty uninitialised (len S - len Q + 1) in
  (sdist uninitialised Q S "fft"
   = fft_sdist Q S default_alignment default_Kahan
   /\ forall mode, mode <> "fft"%string ->
        sdist uninitialised Q S mode
        = ret (sdist_kernel (80 * 32) 64 q s Z))
  /\ (mdist uninitialised Q S "fft"
      = fft_mdist Q S default_alignment default_Kahan
      /\ forall mode, mode <> "fft"%string ->
           mdist uninitialised Q S mode
           = ret (mdist_kernel (80 * 32) 64 (mnorm q) s Z))
  /\ (forall epsilon, 0 < epsilon -> 0 < Np.std q 0 ->
      zdist uninitialised Q S "fft" epsilon
      = fft_zdist Q S epsilon default_alignment default_Kahan
      /\ forall mode, mode <> "fft"%string ->
           zdist uninitialised Q S mode epsilon
           = ret (zdist_kernel (80 * 32) 64 (znorm q epsilon) s Z epsilon)).
Proof.
  intros Hv q s Z. split; [|split].
  - split; [now apply sdist_transform | intros; now apply sdist_direct].
  - split; [now apply mdist_transform | intros; now apply mdist_direct].
  - intros epsilon He Hs.
    split; [now apply zdist_transform | intros; now apply zdist_direct].
Qed.

(** An instance of C6: the arrays of the concrete scenario. *)
Lemma C6_witness :
  sdist (fun _ => 0) (array1 float64 [1; 2; 3])
        (array1 float64 [1; 2; 3; 1; 2; 3; 9; 9; 9]) "fft"
  = fft_sdist (array1 float64 [1; 2; 3])
              (array1 float64 [1; 2; 3; 1; 2; 3; 9; 9; 9])
              default_alignment default_Kahan.
Proof.
  assert (Hv : valid_input (array1 float64 [1; 2; 3])
                 (array1 float64 [1; 2; 3; 1; 2; 3; 9; 9; 9]))
    by (apply valid_array1; simpl; lia).
  destruct (C6_dispatch (fun _ => 0) _ _ Hv) as [[H _] _]. exact H.
Defined.

(** *** Violations of the input contract *)

Lemma shapes_ok_true (Q S : ndarray) :
  shapes_ok Q S = true ->
  length (arr_shape Q) = 1%nat /\ length (arr_shape S) = 1%nat
  /\ (hd O (arr_shape Q) <= hd O (arr_shape S))%nat.
Proof.
  unfold shapes_ok. intros H.
  apply andb_prop in H as [H H3]. apply andb_prop in H as [H1 H2].
  apply Nat.eqb_eq in H1, H2. apply Nat.leb_le in H3. lia.
Qed.

Lemma std_1_1 : Np.std [1; 1] 0 = 0.
Proof.
  unfold Np.std, Np.var, Np.mean.
  cbn [map Np.square Np.sum fold_right length INR].
  replace (_ / _) with 0 by field. apply sqrt_0.
Qed.

(** C9 (as stated) fails: four calls, each breaking another part of the
    contract, end in the same exception, an [AssertionError] without a
    message, and the caller cannot tell them apart; and in binary64 the
    constant query [0.7, 0.7, 0.7], whose deviation is computed as a
    positive number (about 1.1e-16, the mean of three times 0.7 not
    being 0.7), passes the assertion on the deviation and the call
    returns an array of two distances. *)
Lemma C9_counterexample :
  let S := array1 float64 [0; 1; 2] in
  let o_type := zdist (fun _ => 0) (array1 float32 [0; 1]) S "fft" 1 in
  let o_shape := zdist (fun _ => 0) (array1 float64 [0; 1; 2; 3]) S "fft" 1 in
  let o_query := zdist (fun _ => 0) (array1 float64 [1; 1]) S "fft" 1 in
  let o_epsilon := zdist (fun _ => 0) (array1 float64 [0; 1]) S "fft" 0 in
  (violates Type_Mismatch (array1 float32 [0; 1]) S 1
   /\ violates Shape_Violation (array1 float64 [0; 1; 2; 3]) S 1
   /\ violates Degenerate_Query (array1 float64 [1; 1]) S 1
   /\ violates Invalid_Epsilon (array1 float64 [0; 1]) S 0
   /\ o_type = raise AssertionError /\ o_shape = raise AssertionError
   /\ o_query = raise AssertionError /\ o_epsilon = raise AssertionError
   /\ ~ NoDup [o_type; o_shape; o_query; o_epsilon])
  /\ PrimFloat.ltb 0%float (Binary64.std [0.7; 0.7; 0.7]%float) = true
  /\ exists D, Binary64.zdist (fun _ => 0%float)
                              (fun _ _ _ => raise ValueError)
                              [0.7; 0.7; 0.7]%float [1; 2; 4; 8]%float
                              "direct" 1e-6%float = ret D
               /\ length D = 2%nat.
Proof.
  cbv zeta.
  assert (H1 : zdist (fun _ => 0) (array1 float32 [0; 1])
                 (array1 float64 [0; 1; 2]) "fft" 1 = raise AssertionError).
  { unfold zdist. rewrite (Rgtb_pos 1) by lra. reflexivity. }
  assert (H2 : zdist (fun _ => 0) (array1 float64 [0; 1; 2; 3])
                 (array1 float64 [0; 1; 2]) "fft" 1 = raise AssertionError).
  { unfold zdist. rewrite (Rgtb_pos 1) by lra. reflexivity. }
  assert (H3 : zdist (fun _ => 0) (array1 float64 [1; 1])
                 (array1 float64 [0; 1; 2]) "fft" 1 = raise AssertionError).
  { unfold zdist. rewrite (Rgtb_pos 1) by lra.
    cbn [array1 arr_data]. rewrite std_1_1, Rgtb_zero. reflexivity. }
  assert (H4 : zdist (fun _ => 0) (array1 float64 [0; 1])
                 (array1 float64 [0; 1; 2]) "fft" 0 = raise AssertionError).
  { unfold zdist. rewrite Rgtb_zero. reflexivity. }
  split; [|split; [vm_compute; reflexivity|]].
  2:{ eexists. split; [vm_compute; reflexivity | reflexivity]. }
  repeat split; try assumption.
  - cbn. discriminate.
  - cbn. lia.
  - cbn. rewrite std_1_1. lra.
  - cbn. lra.
  - rewrite H1, H2. intros Hnd. inversion Hnd as [|? ? Hin _]. apply Hin.
    left. reflexivity.
Qed.

(** C9 (amended): a call that breaks the contract on the element types,
    on the shapes or on [epsilon] stops at an assertion, with an
    [AssertionError] and no output array, in either mode; so does, in
    binary64, a call of the normalised distance with a query whose
    deviation, as computed, is not positive; it is the same exception
    for all of them.  A constant query whose computed deviation is
    positive is left out. *)
Theorem C9_violations_raise (uninitialised : nat -> R) (Q S : ndarray)
    (mode : string) (epsilon : R) (v : violation)
    (uninitialised64 : nat -> float)
    (fft_zdist64 : list float -> list float -> float -> py (list float))
    (Q64 S64 : list float) (epsilon64 : float) :
  (violates v Q S epsilon -> v <> Degenerate_Query ->
   zdist uninitialised Q S mode epsilon = raise AssertionError
   /\ (v = Type_Mismatch \/ v = Shape_Violation ->
       sdist uninitialised Q S mode = raise AssertionError
       /\ mdist uninitialised Q S mode = raise AssertionError))
  /\ (PrimFloat.ltb 0%float (Binary64.std Q64) = false ->
      Binary64.zdist uninitialised64 fft_zdist64 Q64 S64 mode epsilon64
      = raise AssertionError).
Proof.
  split.
  - intros Hviol Hnd. split.
    + unfold zdist.
      destruct (Rgtb epsilon 0) eqn:E1; [|reflexivity].
      destruct (dtype_eqb (arr_dtype Q) (arr_dtype S)) eqn:E2; [|reflexivity].
      destruct (shapes_ok Q S) eqn:E3; [|reflexivity].
      exfalso. apply Rgtb_true in E1. apply dtype_eqb_eq in E2.
      apply shapes_ok_true in E3.
      destruct v; cbn in Hviol; [congruence | tauto | congruence | lra].
    + intros Hv. unfold sdist, mdist.
      destruct (dtype_eqb (arr_dtype Q) (arr_dtype S)) eqn:E2;
        [|split; reflexivity].
      destruct (shapes_ok Q S) eqn:E3; [|split; reflexivity].
      exfalso. apply dtype_eqb_eq in E2. apply shapes_ok_true in E3.
      destruct Hv as [-> | ->]; cbn in Hviol; [congruence | tauto].
  - intros Hstd. unfold Binary64.zdist. rewrite Hstd.
    destruct (PrimFloat.ltb 0%float epsilon64); [|reflexivity].
    destruct (Nat.leb (length Q64) (length S64)); reflexivity.
Qed.

(** An instance of C9: [epsilon = 0], and in binary64 the constant query
    [1, 1], whose deviation is computed as 0. *)
Lemma C9_witness :
  zdist (fun _ => 0) (array1 float64 [0; 1]) (array1 float64 [0; 1; 2])
        "direct" 0 = raise AssertionError
  /\ Binary64.zdist (fun _ => 0%float) (fun _ _ _ => raise ValueError)
                    [1; 1]%float [0; 1; 2]%float "direct" 1e-6%float
     = raise AssertionError.
Proof.
  assert (Hv : violates Invalid_Epsilon (array1 float64 [0; 1])
                        (array1 float64 [0; 1; 2]) 0) by (cbn; lra).
  assert (Hn : Invalid_Epsilon <> Degenerate_Query) by discriminate.
  assert (Hs : PrimFloat.ltb 0%float (Binary64.std [1; 1]%float) = false)
    by (vm_compute; reflexivity).
  destruct (C9_violations_raise (fun _ => 0) (array1 float64 [0; 1])
              (array1 float64 [0; 1; 2]) "direct" 0 Invalid_Epsilon
              (fun _ => 0%float) (fun _ _ _ => raise ValueError)
              [1; 1]%float [0; 1; 2]%float 1e-6%float) as [H1 H2].
  split; [exact (proj1 (H1 Hv Hn)) | exact (H2 Hs)].
Defined.

(** * Further properties of the code *)

(** *** Affine images of an array *)

Lemma sum_affine (a c : R) (x : list R) :
  Np.sum (map (fun v => a * v + c) x) = a * Np.sum x + INR (length x) * c.
Proof.
  induction x as [|v x IH]; [simpl; ring|].
  cbn [map Np.sum fold_right length]. rewrite S_INR.
  change (fold_right Rplus 0 (map (fun v => a * v + c) x))
    with (Np.sum (map (fun v => a * v + c) x)).
  rewrite IH. unfold Np.sum. ring.
Qed.

Lemma mean_affine (a c : R) (x : list R) :
  x <> [] -> Np.mean (map (fun v => a * v + c) x) = a * Np.mean x + c.
Proof.
  intros Hx. unfold Np.mean. rewrite sum_affine, length_map.
  field. now apply INR_length_nonzero.
Qed.

Lemma var_affine (a c : R) (x : list R) :
  x <> [] -> Np.var (map (fun v => a * v + c) x) 0 = a * a * Np.var x 0.
Proof.
  intros Hx. rewrite !var_population, length_map, mean_affine by exact Hx.
  rewrite (bigsum_ext _ (fun i => (a * a) * (nth i x 0 - Np.mean x) ^ 2)).
  - rewrite bigsum_scal. field. now apply INR_length_nonzero.
  - intros i Hi.
    rewrite (nth_indep _ 0 (a * 0 + c)) by (now rewrite length_map).
    rewrite (map_nth (fun v => a * v + c)). ring.
Qed.

Lemma std_affine (a c : R) (x : list R) :
  x <> [] -> 0 <= a ->
  Np.std (map (fun v => a * v + c) x) 0 = a * Np.std x 0.
Proof.
  intros Hx Ha. unfold Np.std. rewrite var_affine by exact Hx.
  rewrite sqrt_mult by (try apply var_nonneg; nra).
  now rewrite sqrt_square.
Qed.

Lemma map_affine_id (x : list R) : map (fun v => 1 * v + 0) x = x.
Proof.
  rewrite <- (map_id x) at 2. apply map_ext. intros v. ring.
Qed.




Lemma mnorm_shift (x : list R) (c : R) :
  x <> [] -> mnorm (map (fun v => v + c) x) = mnorm x.
Proof.
  intros Hx. unfold mnorm.
  rewrite (map_ext (fun v => v + c) (fun v => 1 * v + c))
    by (intros; ring).
  rewrite mean_affine, map_map by exact Hx.
  apply map_ext. intros v. ring.
Qed.



Lemma std_positive_nonempty (x : list R) : 0 < Np.std x 0 -> x <> [].
Proof.
  intros H E. apply std_positive_length in H. rewrite E in H. simpl in H. lia.
Qed.

(** X3: in exact arithmetic the normalisation does what its docstring
    says whenever the deviation of the input reaches [epsilon]: the
    result has vanishing mean and unit deviation, its squares adding up
    to the length. *)
Theorem X3_znorm_unit (x : list R) (epsilon : R) :
  0 < epsilon -> epsilon <= Np.std x 0 ->
  length (znorm x epsilon) = length x
  /\ Np.sum (znorm x epsilon) = 0
  /\ Np.sum (Np.square (znorm x epsilon)) = INR (length x)
  /\ Np.mean (znorm x epsilon) = 0
  /\ Np.std (znorm x epsilon) 0 = 1.
Proof.
  intros He Hs.
  assert (Hx : x <> []) by (apply std_positive_nonempty; lra).
  pose proof (INR_length_nonzero x Hx) as Hn.
  assert (Hsum : Np.sum (znorm x epsilon) = 0).
  { rewrite Np_sum_bigsum, length_znorm. now apply sum_znorm. }
  assert (Hsq : Np.sum (Np.square (znorm x epsilon)) = INR (length x)).
  { rewrite sum_square_bigsum, length_znorm. now apply sumsq_znorm_unit. }
  assert (Hmean : Np.mean (znorm x epsilon) = 0).
  { unfold Np.mean. rewrite Hsum, length_znorm. field. exact Hn. }
  split; [apply length_znorm|]. split; [exact Hsum|].
  split; [exact Hsq|]. split; [exact Hmean|].
  unfold Np.std. rewrite var_population, Hmean, length_znorm.
  rewrite (bigsum_ext _ (fun i => nth i (znorm x epsilon) 0
                                  * nth i (znorm x epsilon) 0))
    by (intros; ring).
  rewrite sumsq_znorm_unit by assumption.
  replace (INR (length x) / INR (length x)) with 1 by (field; exact Hn).
  apply sqrt_1.
Qed.

(** An instance of X3: the array [0, 1], of deviation 1/2. *)
Lemma X3_witness : Np.std (znorm [0; 1] (1 / 2)) 0 = 1.
Proof.
  apply (X3_znorm_unit [0; 1] (1 / 2)); [lra | rewrite std_0_1; lra].
Defined.

Lemma znorm_shift (x : list R) (epsilon c : R) :
  x <> [] -> znorm (map (fun v => v + c) x) epsilon = znorm x epsilon.
Proof.
  intros Hx. unfold znorm.
  rewrite (map_ext (fun v => v + c) (fun v => 1 * v + c))
    by (intros; ring).
  rewrite mean_affine, std_affine, map_map by (try exact Hx; lra).
  replace (1 * Np.std x 0) with (Np.std x 0) by ring.
  apply map_ext. intros v. unfold Rdiv. f_equal. ring.
Qed.

Lemma std_shift (x : list R) (c : R) :
  x <> [] -> Np.std (map (fun v => v + c) x) 0 = Np.std x 0.
Proof.
  intros Hx.
  rewrite (map_ext (fun v => v + c) (fun v => 1 * v + c))
    by (intros; ring).
  rewrite std_affine by (try exact Hx; lra). ring.
Qed.



(** X5: in exact arithmetic, where the refinement rounds find no
    residual, the stabilized prefix sum of an array with elements
    followed by the [m]-apart difference [Y[+m:] - Y[:-m]] gives the sums
    of the [len(x) - m + 1] windows of length [m], at every depth. *)
Theorem X5_windowed_sums (x : list R) (m Kahan : nat) :
  (1 <= m <= length x)%nat ->
  bind (cumsum x Kahan) (fun Y => windowed Y m)
  = ret (map (fun k => bigsum (fun i => nth (k + i) x 0) m)
             (seq 0 (length x - m + 1))).
Proof.
  intros Hm.
  rewrite cumsum_nonempty by (destruct x; simpl in *; [lia | congruence]).
  rewrite bind_ret, windowed_scan by exact Hm.
  replace (length x + 1 - m)%nat with (length x - m + 1)%nat by lia.
  reflexivity.
Qed.

(** An instance of X5: the windows of length 2 of [1, 2, 3]. *)
Lemma X5_witness :
  bind (cumsum [1; 2; 3] 1) (fun Y => windowed Y 2)
  = ret (map (fun k => bigsum (fun i => nth (k + i) [1; 2; 3] 0) 2)
             (seq 0 (length [1; 2; 3] - 2 + 1))).
Proof. apply (X5_windowed_sums [1; 2; 3] 2 1). simpl. lia. Defined.

(** X6: on an array with elements the stabilized prefix sum returns, at
    every depth, what it returns at depth 0: the exclusive scan, of one
    entry more than the input, entry 0 being 0 and entry [i] the sum of
    the first [i] elements. *)
Theorem X6_cumsum_exclusive_scan (x : list R) (Kahan : nat) :
  x <> [] ->
  cumsum x Kahan = cumsum x 0
  /\ exists y, cumsum x Kahan = ret y
               /\ length y = S (length x)
               /\ nth 0 y 0 = 0
               /\ forall i, (1 <= i <= length x)%nat ->
                            nth i y 0 = bigsum (fun j => nth j x 0) i.
Proof.
  intros Hx. split; [now rewrite cumsum_0, cumsum_nonempty|].
  exists (0 :: Np.cumsum x). split; [now apply cumsum_nonempty|].
  split; [apply length_exclusive_scan|]. split; [reflexivity|].
  intros i Hi. apply nth_exclusive_scan. lia.
Qed.

(** An instance of X6. *)
Lemma X6_witness : cumsum [1; 2; 3] 2 = cumsum [1; 2; 3] 0.
Proof. apply (X6_cumsum_exclusive_scan [1; 2; 3] 2). discriminate. Defined.

(** X7: the padded length is the least multiple of the alignment that is
    not below the length of the stream; an alignment of 0 divides by
    zero. *)
Theorem X7_pad_length_least_multiple (n alignment : nat) :
  pad_length n 0 = raise ZeroDivisionError
  /\ ((0 < alignment)%nat ->
      exists N, pad_length n alignment = ret N
                /\ (N mod alignment = 0)%nat
                /\ (n <= N < n + alignment)%nat
                /\ forall M, (M mod alignment = 0)%nat -> (n <= M)%nat ->
                             (N <= M)%nat).
Proof.
  split; [reflexivity|]. intros Ha. unfold pad_length.
  destruct (Nat.eqb_spec alignment 0); [lia|].
  eexists. split; [reflexivity|].
  pose proof (Nat.div_mod_eq (n + alignment - 1) alignment) as E.
  pose proof (Nat.mod_upper_bound (n + alignment - 1) alignment ltac:(lia)) as Hr.
  rewrite (Nat.mul_comm alignment) in E.
  set (q := ((n + alignment - 1) / alignment)%nat) in *.
  split; [apply Nat.Div0.mod_mul|]. split; [lia|].
  intros M HM HnM.
  pose proof (Nat.div_mod_eq M alignment) as EM. rewrite HM in EM.
  rewrite (Nat.mul_comm alignment) in EM.
  set (q' := (M / alignment)%nat) in *.
  assert (Hq : (q <= q')%nat).
  { destruct (Nat.le_gt_cases q q') as [H|H]; [exact H | exfalso].
    assert ((q' + 1) * alignment <= q * alignment)%nat
      by (apply Nat.mul_le_mono_r; lia).
    lia. }
  assert (q * alignment <= q' * alignment)%nat
    by (apply Nat.mul_le_mono_r; exact Hq).
  lia.
Qed.

(** An instance of X7: a stream of 9 elements at the default alignment. *)
Lemma X7_witness :
  exists N, pad_length 9 default_alignment = ret N
            /\ (N mod default_alignment = 0)%nat
            /\ (9 <= N < 9 + default_alignment)%nat
            /\ forall M, (M mod default_alignment = 0)%nat -> (9 <= M)%nat ->
                         (N <= M)%nat.
Proof.
  apply (X7_pad_length_least_multiple 9 default_alignment).
  pose proof default_alignment_large. lia.
Defined.

(** X8: the transform line [irfft(rfft(E).conj() * rfft(iS), n=n)] is the
    circular cross-correlation of its two arrays: entry [k] is the sum of
    [E[j] * iS[(j + k) mod n]] over all [j]. *)
Theorem X8_cross_correlation_theorem (E iS : list R) (n : nat) :
  (0 < n)%nat -> length E = n -> length iS = n ->
  exists R, correlate E iS n = ret R
            /\ length R = n
            /\ forall k, (k < n)%nat ->
                 nth k R 0
                 = bigsum (fun j => nth j E 0 * nth ((j + k) mod n) iS 0) n.
Proof.
  intros Hn HE HS. eexists. split; [now apply correlate_circular|].
  split; [apply length_map_seq|].
  intros k Hk. now rewrite nth_map_seq.
Qed.

(** An instance of X8: two arrays of three elements. *)
Lemma X8_witness :
  exists R, correlate [1; 2; 3] [4; 5; 6] 3 = ret R
            /\ length R = 3%nat
            /\ forall k, (k < 3)%nat ->
                 nth k R 0
                 = bigsum (fun j => nth j [1; 2; 3] 0
                                    * nth ((j + k) mod 3) [4; 5; 6] 0) 3.
Proof.
  apply (X8_cross_correlation_theorem [1; 2; 3] [4; 5; 6] 3);
    [lia | reflexivity | reflexivity].
Defined.

(** X9: zero padding keeps the wrap-around out of the result: after both
    arrays are written into zero buffers of length [n], the correlation
    at every offset [k < n] with [k + len(Q) <= n] is the plain sliding dot
    product of the query with the stream, [sum_i Q[i] * S[k + i]]. *)
Theorem X9_padded_correlation (q s : list R) (n k : nat) :
  (length s <= n)%nat -> (k < n)%nat -> (k + length q <= n)%nat ->
  exists R,
    (iS <- Np.set_prefix (Np.zeros n) s ;;
     E <- Np.set_prefix (Np.zeros n) q ;;
     correlate E iS n) = ret R
    /\ length R = n
    /\ nth k R 0 = bigsum (fun i => nth i q 0 * nth (k + i) s 0) (length q).
Proof.
  intros Hs Hn Hk.
  rewrite (set_prefix_zeros s), bind_ret by lia.
  rewrite (set_prefix_zeros q), bind_ret by lia.
  rewrite correlate_circular by (try apply length_padded; lia).
  eexists. split; [reflexivity|]. split; [apply length_map_seq|].
  rewrite nth_map_seq by exact Hn.
  now rewrite circular_correlation_padded.
Qed.

(** An instance of X9: the query [1, 2] against the stream [3, 4, 5] in
    buffers of length 4, at offset 1. *)
Lemma X9_witness :
  exists R,
    (iS <- Np.set_prefix (Np.zeros 4) [3; 4; 5] ;;
     E <- Np.set_prefix (Np.zeros 4) [1; 2] ;;
     correlate E iS 4) = ret R
    /\ length R = 4%nat
    /\ nth 1 R 0
       = bigsum (fun i => nth i [1; 2] 0 * nth (1 + i) [3; 4; 5] 0)
                (length [1; 2]).
Proof.
  apply (X9_padded_correlation [1; 2] [3; 4; 5] 4 1); simpl; lia.
Defined.

(** *** Strided ranges as a partition *)

Lemma py_range_in (start stop step p : nat) :
  (0 < step)%nat ->
  In p (py_range start stop step)
  <-> (start <= p < stop)%nat /\ ((p - start) mod step = 0)%nat.
Proof.
  intros Hs. split.
  - unfold py_range. intros H. apply in_map_iff in H as (i & <- & Hi).
    apply in_seq in Hi. destruct Hi as [_ Hi]. simpl in Hi.
    set (c := ((stop - start + step - 1) / step)%nat) in *.
    assert (Hc : (c * step <= stop - start + step - 1)%nat).
    { unfold c. rewrite Nat.mul_comm. apply Nat.Div0.mul_div_le. }
    assert (Hi' : (S i * step <= c * step)%nat)
      by (apply Nat.mul_le_mono_r; lia).
    cbn [Nat.mul] in Hi'.
    split; [lia|].
    replace (start + i * step - start)%nat with (i * step)%nat by lia.
    apply Nat.Div0.mod_mul.
  - intros [Hp Hm]. now apply in_py_range.
Qed.

Lemma NoDup_map_injective {A B : Type} (f : A -> B) (l : list A) :
  (forall x y, f x = f y -> x = y) -> NoDup l -> NoDup (map f l).
Proof.
  intros Hf. induction 1 as [|a l Ha Hl IH]; cbn [map]; constructor.
  - intros H. apply in_map_iff in H as (y & E & Hy).
    apply Hf in E. subst. contradiction.
  - exact IH.
Qed.

Lemma py_range_NoDup (start stop step : nat) :
  (0 < step)%nat -> NoDup (py_range start stop step).
Proof.
  intros Hs. unfold py_range. apply NoDup_map_injective.
  - intros i j E. nia.
  - apply seq_NoDup.
Qed.

Lemma NoDup_flat_map {A B : Type} (f : A -> list B) (l : list A) :
  NoDup l -> (forall x, In x l -> NoDup (f x)) ->
  (forall x y z, In x l -> In y l -> In z (f x) -> In z (f y) -> x = y) ->
  NoDup (flat_map f l).
Proof.
  induction l as [|a l IH]; intros Hl Hf Hd; [constructor|].
  cbn [flat_map]. inversion Hl as [|? ? Ha Hl']; subst.
  apply NoDup_app.
  - apply Hf. now left.
  - apply IH; [exact Hl' | intros; apply Hf; now right|].
    intros x y z Hx Hy. apply Hd; now right.
  - intros z Hz Hz'. apply in_flat_map in Hz' as (y & Hy & Hzy).
    assert (a = y) by (apply (Hd a y z); [now left | now right | assumption..]).
    subst. contradiction.
Qed.

(** The ranges [range(l, n, s)] for [l = 0 .. s - 1] visit every number
    below [n] once and no other number. *)
Lemma ranges_partition (s n : nat) :
  (0 < s)%nat ->
  NoDup (flat_map (fun l => py_range l n s) (seq 0 s))
  /\ forall p, In p (flat_map (fun l => py_range l n s) (seq 0 s))
               <-> (p < n)%nat.
Proof.
  intros Hs.
  assert (Hmod : forall l p, (l < s)%nat -> In p (py_range l n s) ->
                             (p mod s = l)%nat /\ (p < n)%nat).
  { intros l p Hl H. apply py_range_in in H as [Hp Hm]; [|exact Hs].
    split; [|lia].
    pose proof (Nat.div_mod_eq (p - l) s) as E. rewrite Hm in E.
    replace p with (l + ((p - l) / s) * s)%nat by lia.
    rewrite Nat.Div0.mod_add. now apply Nat.mod_small. }
  split.
  - apply NoDup_flat_map.
    + apply seq_NoDup.
    + intros l _. now apply py_range_NoDup.
    + intros x y z Hx Hy Hzx Hzy. apply in_seq in Hx, Hy.
      destruct (Hmod x z) as [E1 _]; [lia | exact Hzx|].
      destruct (Hmod y z) as [E2 _]; [lia | exact Hzy|].
      congruence.
  - intros p. split.
    + intros H. apply in_flat_map in H as (l & Hl & Hp). apply in_seq in Hl.
      now apply (Hmod l p); [lia|].
    + intros Hp. apply in_flat_map. exists (p mod s)%nat.
      pose proof (Nat.mod_upper_bound p s ltac:(lia)) as Hr.
      pose proof (Nat.div_mod_eq p s) as E.
      split; [apply in_seq; lia|].
      apply in_py_range; [exact Hs | lia |].
      replace (p - p mod s)%nat with (p / s * s)%nat by lia.
      apply Nat.Div0.mod_mul.
Qed.

Lemma flat_map_seq_shift {B : Type} (n : nat) :
  forall (F : nat -> list B) (a : nat),
  flat_map F (seq a n) = flat_map (fun w => F (a + w)%nat) (seq 0 n).
Proof.
  induction n as [|n IH]; intros F a; [reflexivity|].
  cbn [seq flat_map]. rewrite Nat.add_0_r. f_equal.
  rewrite (IH F (S a)), (IH (fun w => F (a + w)%nat) 1%nat).
  apply flat_map_ext. intros w. f_equal. lia.
Qed.

(** The warps of the grid, block by block, are the lower bounds
    [0 .. gridDim * warpDim - 1] in this order. *)
Lemma grid_lowers {B : Type} (F : nat -> list B) (gridDim warpDim : nat) :
  flat_map (fun blockIdx =>
              flat_map (fun warpIdx => F (blockIdx * warpDim + warpIdx)%nat)
                       (seq 0 warpDim))
           (seq 0 gridDim)
  = flat_map F (seq 0 (gridDim * warpDim)).
Proof.
  induction gridDim as [|g IH]; [reflexivity|].
  rewrite seq_S, flat_map_app, IH. cbn [flat_map]. rewrite app_nil_r.
  replace (S g * warpDim)%nat with (g * warpDim + warpDim)%nat by lia.
  rewrite seq_app, flat_map_app. f_equal.
  now rewrite (flat_map_seq_shift warpDim F (0 + g * warpDim)).
Qed.

(** *** The warp reductions and the grid *)

(** X10: after the five shuffle-down rounds lane 0 of a warp holds the
    sum of the 32 lane values, and the last lane, which only ever reads
    itself, holds 32 times its own value, so only lane 0 may store; after
    the five shuffle-xor rounds every lane holds the sum. *)
Theorem X10_warp_reductions (accum : list R) :
  length accum = 32%nat ->
  nth 0 (Cuda.reduce_down accum) 0 = Np.sum accum
  /\ nth 31 (Cuda.reduce_down accum) 0 = 32 * nth 31 accum 0
  /\ forall laneIdx, (laneIdx < 32)%nat ->
                     nth laneIdx (Cuda.reduce_xor accum) 0 = Np.sum accum.
Proof.
  intros H. split; [now apply reduce_down_total|]. split.
  - destruct_lanes accum H. cbv - [Rplus Rmult IZR]. ring.
  - intros laneIdx Hl. rewrite reduce_xor_total by exact H.
    now apply nth_const_lanes.
Qed.

(** An instance of X10: the warp whose lanes all hold 1. *)
Lemma X10_witness : nth 0 (Cuda.reduce_down (repeat 1 32)) 0 = Np.sum (repeat 1 32).
Proof. exact (proj1 (X10_warp_reductions (repeat 1 32) eq_refl)). Defined.

(** A block of full warps has at least one. *)
Lemma full_warps (blockDim : nat) :
  (0 < blockDim)%nat -> (blockDim mod 32 = 0)%nat -> (32 <= blockDim)%nat.
Proof.
  intros H0 Hm. pose proof (Nat.div_mod_eq blockDim 32) as E.
  rewrite Hm in E. destruct (blockDim / 32)%nat; lia.
Qed.

(** X11: in a launch of full warps (a positive [blockDim] that is a
    multiple of 32) the position loops of all warps together visit every
    output position [0 .. len(S) - len(Q)] once and no other position: no
    entry of the output is left unwritten, none is written by two warps,
    and no store goes beyond the buffer. *)
Theorem X11_grid_covers_positions_once (gridDim blockDim len_Q len_S : nat) :
  (0 < gridDim)%nat -> (0 < blockDim)%nat -> (blockDim mod 32 = 0)%nat ->
  exists positions,
    (forall body out,
       launch gridDim blockDim len_Q len_S body out
       = fold_left body positions out)
    /\ NoDup positions
    /\ forall p, In p positions <-> (p < len_S + 1 - len_Q)%nat.
Proof.
  intros Hg Hb0 Hfull. pose proof (full_warps blockDim Hb0 Hfull) as Hb.
  assert (Hw : (0 < blockDim / 32)%nat) by (apply Nat.div_str_pos; lia).
  exists (flat_map (fun l => py_range l (len_S + 1 - len_Q)
                                       (gridDim * (blockDim / 32)))
                   (seq 0 (gridDim * (blockDim / 32)))).
  split.
  - intros body out. unfold launch. cbv zeta.
    rewrite <- (grid_lowers
      (fun l => py_range l (len_S + 1 - len_Q) (gridDim * (blockDim / 32)))).
    rewrite <- fold_left_flat_map.
    apply fold_left_pointwise. intros a b.
    now rewrite <- fold_left_flat_map.
  - apply ranges_partition. nia.
Qed.

(** An instance of X11: the launch of the public operations. *)
Lemma X11_witness :
  exists positions,
    (forall body out,
       launch (80 * 32) 64 3 9 body out = fold_left body positions out)
    /\ NoDup positions
    /\ forall p, In p positions <-> (p < 9 + 1 - 3)%nat.
Proof.
  assert (H1 : (0 < 80 * 32)%nat) by lia.
  assert (H2 : (0 < 64)%nat) by lia.
  exact (X11_grid_covers_positions_once (80 * 32) 64 3 9 H1 H2 eq_refl).
Defined.

(** X12: within a warp the index loops [range(laneIdx, len(Q), 32)] of
    the 32 lanes together visit every index of the query once and no
    other index, and at an output position every read [S[position +
    index]] stays inside the stream. *)
Theorem X12_lanes_cover_query_once (len_Q len_S : nat) :
  NoDup (flat_map (fun laneIdx => py_range laneIdx len_Q 32) Cuda.lanes)
  /\ (forall index,
        In index (flat_map (fun laneIdx => py_range laneIdx len_Q 32)
                           Cuda.lanes)
        <-> (index < len_Q)%nat)
  /\ forall position laneIdx index,
       (position < len_S + 1 - len_Q)%nat ->
       In index (py_range laneIdx len_Q 32) ->
       (index < len_Q)%nat /\ (position + index < len_S)%nat.
Proof.
  destruct (ranges_partition 32 len_Q ltac:(lia)) as [Hnd Hin].
  split; [exact Hnd|]. split; [exact Hin|].
  intros position laneIdx index Hp Hi.
  apply py_range_in in Hi; lia.
Qed.

(** *** The raw and the mean-adjusted distance of a valid call *)

Lemma sdist_value (u : nat -> R) (Q S : ndarray) (mode : string) :
  valid_input Q S -> (2 <= len Q)%nat \/ mode <> "fft"%string ->
  sdist u Q S mode
  = ret (map (sq_dist (arr_data Q) (arr_data S)) (seq 0 (len S - len Q + 1))).
Proof.
  intros Hv Hm. destruct (string_dec mode "fft") as [->|Hmode].
  - apply sdist_fft_value; [exact Hv | destruct Hm; [assumption|congruence]].
  - now apply sdist_direct_value.
Qed.

Lemma mdist_value (u : nat -> R) (Q S : ndarray) (mode : string) :
  valid_input Q S -> (2 <= len Q)%nat \/ mode <> "fft"%string ->
  mdist u Q S mode
  = ret (map (mean_sq_dist (arr_data Q) (arr_data S))
             (seq 0 (len S - len Q + 1))).
Proof.
  intros Hv Hm. destruct (string_dec mode "fft") as [->|Hmode].
  - apply mdist_fft_value; [exact Hv | destruct Hm; [assumption|congruence]].
  - now apply mdist_direct_value.
Qed.

Lemma bigsum_squares_zero (f : nat -> R) (n : nat) :
  bigsum (fun i => f i ^ 2) n = 0 <-> forall i, (i < n)%nat -> f i = 0.
Proof.
  split.
  - intros H i Hi.
    pose proof (bigsum_zero_terms (fun i => f i ^ 2) n
                  (fun j _ => pow2_ge_0 _) H i Hi) as Hz.
    cbv beta in Hz. nra.
  - intros H. rewrite (bigsum_ext _ (fun _ => 0)); [apply bigsum_zero|].
    intros i Hi. rewrite (H i Hi). ring.
Qed.

Lemma mean_bigsum (x : list R) :
  Np.mean x = bigsum (fun i => nth i x 0) (length x) / INR (length x).
Proof. unfold Np.mean. now rewrite Np_sum_bigsum. Qed.

(** The raw distance is the mean-adjusted one plus the squared difference
    of the means, [m] times. *)
Lemma raw_mean_decomposition (q s : list R) (k : nat) :
  q <> [] ->
  sq_dist q s k
  = mean_sq_dist q s k
    + INR (length q) * (Np.mean q - window_mean s (length q) k) ^ 2.
Proof.
  intros Hq. pose proof (INR_length_nonzero q Hq) as Hn.
  unfold sq_dist, mean_sq_dist.
  rewrite (bigsum_ext
    (fun i => (nth i (mnorm q) 0
               - (nth (k + i) s 0 - window_mean s (length q) k)) ^ 2)
    (fun i => (nth i q 0
               - (nth (k + i) s 0
                  - (window_mean s (length q) k - Np.mean q)) * 1) ^ 2)).
  2: { intros i Hi. rewrite nth_mnorm by exact Hi. ring. }
  rewrite (bigsum_ext (fun i => (nth i q 0 - nth (k + i) s 0) ^ 2)
             (fun i => (nth i q 0 - (nth (k + i) s 0 - 0) * 1) ^ 2))
    by (intros; ring).
  rewrite !(square_expansion (fun i => nth i q 0) (fun i => nth (k + i) s 0)).
  rewrite mean_bigsum. unfold window_mean, window_sum. field. exact Hn.
Qed.

(** X13: in exact arithmetic, on valid input every entry of the raw and
    of the mean-adjusted distance is non-negative, the mean-adjusted
    entry is never above the raw one, and they differ by [m] times the
    squared difference between the mean of the query and the mean of the
    window. *)
Theorem X13_raw_and_mean_distance (uninitialised : nat -> R) (Q S : ndarray)
    (mode : string) :
  valid_input Q S -> (2 <= len Q)%nat \/ mode <> "fft"%string ->
  exists Ds Dm,
    sdist uninitialised Q S mode = ret Ds
    /\ mdist uninitialised Q S mode = ret Dm
    /\ length Ds = (len S - len Q + 1)%nat
    /\ length Dm = (len S - len Q + 1)%nat
    /\ forall k, (k < len S - len Q + 1)%nat ->
         0 <= nth k Dm 0 <= nth k Ds 0
         /\ nth k Ds 0
            = nth k Dm 0
              + INR (len Q)
                * (Np.mean (arr_data Q)
                   - window_mean (arr_data S) (len Q) k) ^ 2.
Proof.
  intros Hv Hm. pose proof (data_nonempty Q S Hv) as Hq.
  eexists. eexists.
  split; [now apply sdist_value|]. split; [now apply mdist_value|].
  split; [apply length_map_seq|]. split; [apply length_map_seq|].
  intros k Hk. rewrite !nth_map_seq by exact Hk.
  pose proof (raw_mean_decomposition (arr_data Q) (arr_data S) k Hq) as E.
  fold (len Q) in E.
  assert (0 <= mean_sq_dist (arr_data Q) (arr_data S) k)
    by (apply bigsum_nonneg; intros; apply pow2_ge_0).
  pose proof (pos_INR (len Q)).
  pose proof (pow2_ge_0 (Np.mean (arr_data Q)
                         - window_mean (arr_data S) (len Q) k)).
  split; [|exact E]. nra.
Qed.

(** An instance of X13: the arrays of the concrete scenario, on the
    transform-domain path. *)
Lemma X13_witness :
  exists Ds Dm,
    sdist (fun _ => 0) (array1 float64 [1; 2; 3])
          (array1 float64 [1; 2; 3; 1; 2; 3; 9; 9; 9]) "fft" = ret Ds
    /\ mdist (fun _ => 0) (array1 float64 [1; 2; 3])
             (array1 float64 [1; 2; 3; 1; 2; 3; 9; 9; 9]) "fft" = ret Dm
    /\ length Ds = 7%nat /\ length Dm = 7%nat.
Proof.
  destruct (X13_raw_and_mean_distance (fun _ => 0) (array1 float64 [1; 2; 3])
              (array1 float64 [1; 2; 3; 1; 2; 3; 9; 9; 9]) "fft")
    as (Ds & Dm & H1 & H2 & H3 & H4 & _).
  - apply valid_array1. simpl. lia.
  - left. unfold len. simpl. lia.
  - exists Ds, Dm. repeat split; assumption.
Defined.

(** X14: in exact arithmetic, on valid input the raw distance of a
    window is 0 exactly when the window equals the query, element by
    element. *)
Theorem X14_raw_distance_zero_iff_match (uninitialised : nat -> R)
    (Q S : ndarray) (mode : string) :
  valid_input Q S -> (2 <= len Q)%nat \/ mode <> "fft"%string ->
  exists D,
    sdist uninitialised Q S mode = ret D
    /\ forall k, (k < len S - len Q + 1)%nat ->
         (nth k D 0 = 0
          <-> forall i, (i < len Q)%nat ->
                        nth (k + i) (arr_data S) 0 = nth i (arr_data Q) 0).
Proof.
  intros Hv Hm. eexists. split; [now apply sdist_value|].
  intros k Hk. rewrite nth_map_seq by exact Hk.
  unfold sq_dist. fold (len Q). rewrite bigsum_squares_zero.
  split; intros H i Hi; specialize (H i Hi); lra.
Qed.

(** An instance of X14. *)
Lemma X14_witness :
  exists D,
    sdist (fun _ => 0) (array1 float64 [1; 2; 3])
          (array1 float64 [1; 2; 3; 1; 2; 3; 9; 9; 9]) "direct" = ret D
    /\ forall k, (k < 7)%nat ->
         (nth k D 0 = 0
          <-> forall i, (i < 3)%nat ->
                nth (k + i) [1; 2; 3; 1; 2; 3; 9; 9; 9] 0 = nth i [1; 2; 3] 0).
Proof.
  apply (X14_raw_distance_zero_iff_match (fun _ => 0)
           (array1 float64 [1; 2; 3])
           (array1 float64 [1; 2; 3; 1; 2; 3; 9; 9; 9]) "direct").
  - apply valid_array1. simpl. lia.
  - right. exact direct_mode.
Defined.

(** X15: in exact arithmetic, on valid input the mean-adjusted distance
    of a window is 0 exactly when the window is the query shifted by a
    constant. *)
Theorem X15_mean_distance_zero_iff_shifted (uninitialised : nat -> R)
    (Q S : ndarray) (mode : string) :
  valid_input Q S -> (2 <= len Q)%nat \/ mode <> "fft"%string ->
  exists D,
    mdist uninitialised Q S mode = ret D
    /\ forall k, (k < len S - len Q + 1)%nat ->
         (nth k D 0 = 0
          <-> exists c, forall i, (i < len Q)%nat ->
                nth (k + i) (arr_data S) 0 = nth i (arr_data Q) 0 + c).
Proof.
  intros Hv Hm. pose proof (data_nonempty Q S Hv) as Hq.
  pose proof (INR_length_nonzero _ Hq) as Hn.
  eexists. split; [now apply mdist_value|].
  intros k Hk. rewrite nth_map_seq by exact Hk.
  unfold mean_sq_dist. fold (len Q). rewrite bigsum_squares_zero.
  split.
  - intros H.
    exists (window_mean (arr_data S) (len Q) k - Np.mean (arr_data Q)).
    intros i Hi. specialize (H i Hi).
    rewrite nth_mnorm in H by exact Hi. lra.
  - intros [c Hc] i Hi. rewrite nth_mnorm by exact Hi.
    assert (Hmu : window_mean (arr_data S) (len Q) k
                  = Np.mean (arr_data Q) + c).
    { unfold window_mean, window_sum.
      rewrite (bigsum_ext _ (fun i => nth i (arr_data Q) 0 + c))
        by (intros j Hj; now apply Hc).
      rewrite bigsum_plus, bigsum_const, mean_bigsum. fold (len Q).
      field. exact Hn. }
    rewrite Hmu, (Hc i Hi). ring.
Qed.

(** An instance of X15. *)
Lemma X15_witness :
  exists D,
    mdist (fun _ => 0) (array1 float64 [1; 2; 3])
          (array1 float64 [1; 2; 3; 1; 2; 3; 9; 9; 9]) "direct" = ret D
    /\ forall k, (k < 7)%nat ->
         (nth k D 0 = 0
          <-> exists c, forall i, (i < 3)%nat ->
                nth (k + i) [1; 2; 3; 1; 2; 3; 9; 9; 9] 0
                = nth i [1; 2; 3] 0 + c).
Proof.
  apply (X15_mean_distance_zero_iff_shifted (fun _ => 0)
           (array1 float64 [1; 2; 3])
           (array1 float64 [1; 2; 3; 1; 2; 3; 9; 9; 9]) "direct").
  - apply valid_array1. simpl. lia.
  - right. exact direct_mode.
Defined.

(** *** Windows of an affine image of the stream *)

Lemma nth_map_affine (a b : R) (s : list R) (i : nat) :
  (i < length s)%nat ->
  nth i (map (fun v => a * v + b) s) 0 = a * nth i s 0 + b.
Proof. intros Hi. now rewrite nth_map_in. Qed.

Lemma window_sum_affine (a b : R) (s : list R) (m k : nat) :
  (k + m <= length s)%nat ->
  window_sum (map (fun v => a * v + b) s) m k
  = a * window_sum s m k + INR m * b.
Proof.
  intros Hk. unfold window_sum.
  rewrite (bigsum_ext _ (fun i => a * nth (k + i) s 0 + b))
    by (intros i Hi; apply nth_map_affine; lia).
  now rewrite bigsum_plus, bigsum_scal, bigsum_const.
Qed.

Lemma window_sumsq_affine (a b : R) (s : list R) (m k : nat) :
  (k + m <= length s)%nat ->
  window_sumsq (map (fun v => a * v + b) s) m k
  = a * a * window_sumsq s m k + 2 * a * b * window_sum s m k
    + INR m * (b * b).
Proof.
  intros Hk. unfold window_sumsq, window_sum.
  rewrite (bigsum_ext _
    (fun i => (a * a) * (nth (k + i) s 0 * nth (k + i) s 0)
              + ((2 * a * b) * nth (k + i) s 0 + b * b))).
  - rewrite !bigsum_plus, !bigsum_scal, bigsum_const. ring.
  - intros i Hi. rewrite nth_map_affine by lia. ring.
Qed.

Lemma window_mean_affine (a b : R) (s : list R) (m k : nat) :
  (0 < m)%nat -> (k + m <= length s)%nat ->
  window_mean (map (fun v => a * v + b) s) m k = a * window_mean s m k + b.
Proof.
  intros Hm Hk. unfold window_mean. rewrite window_sum_affine by exact Hk.
  field. apply not_0_INR. lia.
Qed.

Lemma window_var_affine (a b : R) (s : list R) (m k : nat) :
  (0 < m)%nat -> (k + m <= length s)%nat ->
  window_var (map (fun v => a * v + b) s) m k = a * a * window_var s m k.
Proof.
  intros Hm Hk. unfold window_var.
  rewrite window_mean_affine, window_sumsq_affine by assumption.
  unfold window_mean. field. apply not_0_INR. lia.
Qed.

Lemma valid_array_map (f g : R -> R) (Q S : ndarray) :
  valid_input Q S -> valid_input (array_map f Q) (array_map g S).
Proof.
  unfold valid_input, rank1, len, array_map.
  cbn [arr_dtype arr_shape arr_data]. rewrite !length_map. tauto.
Qed.

Lemma len_array_map (f : R -> R) (Q : ndarray) : len (array_map f Q) = len Q.
Proof. unfold len, array_map. cbn [arr_data]. apply length_map. Qed.

Lemma map_shift_affine (c : R) (x : list R) :
  map (fun v => v + c) x = map (fun v => 1 * v + c) x.
Proof. apply map_ext. intros v. ring. Qed.

Lemma mean_sq_dist_shift (q s : list R) (a b : R) (k : nat) :
  q <> [] -> (k + length q <= length s)%nat ->
  mean_sq_dist (map (fun v => v + a) q) (map (fun v => v + b) s) k
  = mean_sq_dist q s k.
Proof.
  intros Hq Hk. unfold mean_sq_dist.
  rewrite mnorm_shift, length_map by exact Hq.
  apply bigsum_ext. intros i Hi.
  rewrite (map_shift_affine b s).
  rewrite window_mean_affine, nth_map_affine
    by (try apply length_positive; try exact Hq; lia).
  ring.
Qed.

(** X16: in exact arithmetic the mean-adjusted distance does not see a
    shift of the query or of the stream: adding one constant to every
    element of the query and another to every element of the stream
    leaves the result as it is. *)
Theorem X16_mean_distance_shift_invariant (uninitialised : nat -> R)
    (Q S : ndarray) (mode : string) (a b : R) :
  valid_input Q S -> (2 <= len Q)%nat \/ mode <> "fft"%string ->
  exists D,
    mdist uninitialised Q S mode = ret D
    /\ mdist uninitialised (array_map (fun v => v + a) Q)
             (array_map (fun v => v + b) S) mode = ret D.
Proof.
  intros Hv Hm. pose proof (data_nonempty Q S Hv) as Hq.
  pose proof Hv as (_ & _ & _ & Hn).
  eexists. split; [now apply mdist_value|].
  rewrite mdist_value
    by (try apply valid_array_map; rewrite ?len_array_map; assumption).
  rewrite !len_array_map. f_equal. apply map_ext_in. intros k Hk.
  apply in_seq in Hk. cbn [array_map arr_data].
  apply mean_sq_dist_shift; [exact Hq | unfold len in *; lia].
Qed.

(** An instance of X16. *)
Lemma X16_witness :
  exists D,
    mdist (fun _ => 0) (array1 float64 [1; 2])
          (array1 float64 [1; 2; 4]) "direct" = ret D
    /\ mdist (fun _ => 0) (array_map (fun v => v + 10) (array1 float64 [1; 2]))
             (array_map (fun v => v + 20) (array1 float64 [1; 2; 4])) "direct"
       = ret D.
Proof.
  apply (X16_mean_distance_shift_invariant (fun _ => 0)
           (array1 float64 [1; 2]) (array1 float64 [1; 2; 4]) "direct" 10 20).
  - apply valid_array1. simpl. lia.
  - right. exact direct_mode.
Defined.

(** *** The normalised distance under affine maps of the stream *)

Lemma sqrt_scaled (a v : R) : 0 < a -> 0 <= v -> sqrt (a * a * v) = a * sqrt v.
Proof.
  intros Ha Hv. rewrite sqrt_mult by nra. rewrite sqrt_square by lra.
  reflexivity.
Qed.

Lemma Rgtb_scaled (a v : R) : 0 < a -> Rgtb (a * a * v) 0 = Rgtb v 0.
Proof.
  intros Ha. assert (Haa : 0 < a * a) by nra.
  destruct (Rgtb v 0) eqn:E.
  - apply Rgtb_true in E. apply Rgtb_true. now apply Rmult_lt_0_compat.
  - apply Rgtb_false in E. apply Rgtb_false.
    replace 0 with (a * a * 0) by ring. apply Rmult_le_compat_l; lra.
Qed.

Lemma z_sq_dist_affine (q s : list R) (epsilon a b : R) (k : nat) :
  q <> [] -> 0 < a -> (k + length q <= length s)%nat ->
  z_sq_dist q (map (fun v => a * v + b) s) epsilon k
  = z_sq_dist q s epsilon k.
Proof.
  intros Hq Ha Hk. pose proof (length_positive q Hq) as Hm.
  pose proof (window_var_nonneg s (length q) k Hm) as Hv.
  unfold z_sq_dist, window_sigma.
  rewrite window_var_affine, window_mean_affine, Rgtb_scaled by assumption.
  apply bigsum_ext. intros i Hi. rewrite nth_map_affine by lia.
  destruct (Rgtb (window_var s (length q) k) 0) eqn:E.
  - apply Rgtb_true in E. rewrite sqrt_scaled by lra.
    pose proof (sqrt_lt_R0 _ E). f_equal. field. split; lra.
  - apply Rgtb_false in E.
    assert (Hv0 : window_var s (length q) k = 0) by lra.
    rewrite (window_flat s (length q) k Hm Hv0 i Hi).
    f_equal. unfold Rdiv. ring.
Qed.

Lemma cross_correlation_affine (z s : list R) (a b : R) (k : nat) :
  bigsum (fun i => nth i z 0) (length z) = 0 ->
  (k + length z <= length s)%nat ->
  cross_correlation z (map (fun v => a * v + b) s) k
  = a * cross_correlation z s k.
Proof.
  intros Hz Hk. unfold cross_correlation.
  rewrite (bigsum_ext _ (fun i => a * (nth i z 0 * nth (k + i) s 0)
                                  + b * nth i z 0)).
  - rewrite bigsum_plus, !bigsum_scal, Hz. ring.
  - intros i Hi. rewrite nth_map_affine by lia. ring.
Qed.

Lemma z_fft_value_affine (q s : list R) (epsilon a b : R) (k : nat) :
  q <> [] -> 0 < a -> (k + length q <= length s)%nat ->
  (if Rgtb (window_var (map (fun v => a * v + b) s) (length q) k) 0
   then 2 * (INR (length q)
             - cross_correlation (znorm q epsilon)
                                 (map (fun v => a * v + b) s) k
               / sqrt (window_var (map (fun v => a * v + b) s) (length q) k))
   else INR (length q))
  = (if Rgtb (window_var s (length q) k) 0
     then 2 * (INR (length q)
               - cross_correlation (znorm q epsilon) s k
                 / sqrt (window_var s (length q) k))
     else INR (length q)).
Proof.
  intros Hq Ha Hk. pose proof (length_positive q Hq) as Hm.
  pose proof (window_var_nonneg s (length q) k Hm) as Hv.
  rewrite window_var_affine, Rgtb_scaled by assumption.
  rewrite cross_correlation_affine
    by (rewrite length_znorm; first [now apply sum_znorm | exact Hk]).
  destruct (Rgtb (window_var s (length q) k) 0) eqn:E; [|reflexivity].
  apply Rgtb_true in E. rewrite sqrt_scaled by lra.
  pose proof (sqrt_lt_R0 _ E). f_equal. field. split; lra.
Qed.

Lemma valid_z_array_map (Q S : ndarray) (epsilon a b c : R) :
  valid_z_input Q S epsilon ->
  valid_z_input (array_map (fun v => v + c) Q)
                (array_map (fun v => a * v + b) S) epsilon.
Proof.
  intros (Hv & He & Hs). split; [now apply valid_array_map|].
  split; [exact He|]. cbn [array_map arr_data].
  rewrite std_shift; [exact Hs | exact (data_nonempty Q S Hv)].
Qed.

(** X17: in exact arithmetic the normalised distance does not see a
    shift of the query, nor a shift or a positive scaling of the stream:
    in either mode the distance of [Q + c] to [a * S + b] with [a > 0] is
    the distance of [Q] to [S]. *)
Theorem X17_z_distance_affine_invariant (uninitialised : nat -> R)
    (Q S : ndarray) (mode : string) (epsilon a b c : R) :
  valid_z_input Q S epsilon -> 0 < a ->
  exists D,
    zdist uninitialised Q S mode epsilon = ret D
    /\ zdist uninitialised (array_map (fun v => v + c) Q)
             (array_map (fun v => a * v + b) S) mode epsilon = ret D.
Proof.
  intros Hz Ha. pose proof Hz as (Hv & He & Hs).
  pose proof (data_nonempty Q S Hv) as Hq.
  pose proof Hv as (_ & _ & _ & Hn).
  pose proof (valid_z_array_map Q S epsilon a b c Hz) as Hz'.
  destruct (string_dec mode "fft") as [->|Hmode].
  - eexists. split; [now apply zdist_fft_value|].
    rewrite zdist_fft_value by exact Hz'.
    rewrite !len_array_map. f_equal. apply map_ext_in. intros k Hk.
    apply in_seq in Hk. cbn [array_map arr_data].
    rewrite znorm_shift by exact Hq. unfold len.
    apply z_fft_value_affine; [exact Hq | exact Ha | unfold len in *; lia].
  - eexists. split; [now apply zdist_direct_value|].
    rewrite zdist_direct_value by (try exact Hz'; exact Hmode).
    rewrite !len_array_map. f_equal. apply map_ext_in. intros k Hk.
    apply in_seq in Hk. cbn [array_map arr_data].
    unfold z_sq_dist. rewrite znorm_shift, length_map by exact Hq.
    apply (z_sq_dist_affine (arr_data Q) (arr_data S) epsilon a b k);
      [exact Hq | exact Ha | unfold len in *; lia].
Qed.

(** An instance of X17. *)
Lemma X17_witness :
  exists D,
    zdist (fun _ => 0) (array1 float64 [0; 1]) (array1 float64 [5; 5; 7])
          "fft" 1 = ret D
    /\ zdist (fun _ => 0) (array_map (fun v => v + 3) (array1 float64 [0; 1]))
             (array_map (fun v => 2 * v + 1) (array1 float64 [5; 5; 7]))
             "fft" 1 = ret D.
Proof.
  apply (X17_z_distance_affine_invariant (fun _ => 0)
           (array1 float64 [0; 1]) (array1 float64 [5; 5; 7]) "fft" 1 2 1 3).
  - apply valid_z_0_1; [simpl; lia | lra].
  - lra.
Defined.

(** *** The window that covers a whole array *)

Lemma whole_window_mean (x : list R) : window_mean x (length x) 0 = Np.mean x.
Proof. unfold window_mean, window_sum. now rewrite mean_bigsum. Qed.

Lemma whole_window_var (x : list R) :
  x <> [] -> window_var x (length x) 0 = Np.var x 0.
Proof.
  intros Hx. pose proof (INR_length_nonzero x Hx) as Hn.
  pose proof (window_deviations x (length x) 0 (length_positive x Hx)) as E.
  rewrite whole_window_mean in E. cbn [Nat.add] in E.
  rewrite var_population, E. field. exact Hn.
Qed.

Lemma whole_window_sigma (x : list R) (epsilon : R) :
  0 < Np.std x 0 -> window_sigma x (length x) 0 epsilon = Np.std x 0.
Proof.
  intros Hs. pose proof (std_positive_nonempty x Hs) as Hx.
  unfold window_sigma. rewrite whole_window_var by exact Hx.
  assert (Hv : 0 < Np.var x 0) by (rewrite <- std_square; nra).
  apply Rgtb_true in Hv. now rewrite Hv.
Qed.

Lemma py_max_std (x : list R) (epsilon : R) :
  epsilon <= Np.std x 0 -> py_max (Np.std x 0) epsilon = Np.std x 0.
Proof. intros H. unfold py_max. destruct (Rlt_dec _ _); lra. Qed.

(** The normalised distance reads the stream through its window only. *)
Lemma z_sq_dist_window (q s s' : list R) (epsilon : R) (k k' : nat) :
  (forall i, (i < length q)%nat -> nth (k + i) s 0 = nth (k' + i) s' 0) ->
  z_sq_dist q s epsilon k = z_sq_dist q s' epsilon k'.
Proof.
  intros H.
  assert (Hsum : window_sum s (length q) k = window_sum s' (length q) k').
  { apply bigsum_ext. exact H. }
  assert (Hsq : window_sumsq s (length q) k = window_sumsq s' (length q) k').
  { apply bigsum_ext. intros i Hi. now rewrite (H i Hi). }
  unfold z_sq_dist, window_sigma, window_var, window_mean.
  rewrite Hsum, Hsq. apply bigsum_ext. intros i Hi. now rewrite (H i Hi).
Qed.

Lemma z_sq_dist_self (q : list R) (epsilon : R) :
  0 < epsilon -> epsilon <= Np.std q 0 -> z_sq_dist q q epsilon 0 = 0.
Proof.
  intros He Hs. unfold z_sq_dist.
  rewrite whole_window_mean, whole_window_sigma by lra.
  rewrite (bigsum_ext _ (fun _ => 0)); [apply bigsum_zero|].
  intros i Hi. rewrite nth_znorm, py_max_std by assumption.
  cbn [Nat.add]. unfold Rdiv. ring.
Qed.

Lemma z_sq_dist_affine_match (q s : list R) (epsilon a b : R) (k : nat) :
  0 < epsilon -> epsilon <= Np.std q 0 -> 0 < a ->
  (forall i, (i < length q)%nat -> nth (k + i) s 0 = a * nth i q 0 + b) ->
  z_sq_dist q s epsilon k = 0.
Proof.
  intros He Hs Ha H.
  assert (Hq : q <> []) by (apply std_positive_nonempty; lra).
  rewrite (z_sq_dist_window q s (map (fun v => a * v + b) q) epsilon k 0).
  - rewrite z_sq_dist_affine by (try assumption; simpl; lia).
    now apply z_sq_dist_self.
  - intros i Hi. rewrite (H i Hi). cbn [Nat.add].
    now rewrite nth_map_affine.
Qed.

Lemma z_sq_dist_zero_match (q s : list R) (epsilon : R) (k : nat) :
  0 < epsilon -> epsilon <= Np.std q 0 ->
  z_sq_dist q s epsilon k = 0 ->
  exists a b, 0 < a
    /\ forall i, (i < length q)%nat -> nth (k + i) s 0 = a * nth i q 0 + b.
Proof.
  intros He Hs H0.
  assert (Hq : q <> []) by (apply std_positive_nonempty; lra).
  pose proof (length_positive q Hq) as Hm.
  unfold z_sq_dist in H0. rewrite bigsum_squares_zero in H0.
  pose proof (window_var_nonneg s (length q) k Hm) as Hv.
  unfold window_sigma in H0.
  destruct (Rgtb (window_var s (length q) k) 0) eqn:E.
  - apply Rgtb_true in E. pose proof (sqrt_lt_R0 _ E) as Hsig.
    set (sigma := sqrt (window_var s (length q) k)) in *.
    exists (sigma / Np.std q 0),
           (window_mean s (length q) k - sigma * Np.mean q / Np.std q 0).
    split.
    + apply Rmult_lt_0_compat; [exact Hsig|]. apply Rinv_0_lt_compat. lra.
    + intros i Hi. specialize (H0 i Hi).
      rewrite nth_znorm, py_max_std in H0 by assumption.
      assert (Hsi : nth (k + i) s 0 - window_mean s (length q) k
                    = sigma * ((nth i q 0 - Np.mean q) / Np.std q 0)).
      { transitivity ((nth (k + i) s 0 - window_mean s (length q) k)
                      / sigma * sigma); [field; lra|].
        replace ((nth (k + i) s 0 - window_mean s (length q) k) / sigma)
          with ((nth i q 0 - Np.mean q) / Np.std q 0) by lra.
        ring. }
      replace (nth (k + i) s 0)
        with (window_mean s (length q) k
              + sigma * ((nth i q 0 - Np.mean q) / Np.std q 0)) by lra.
      field. lra.
  - exfalso. apply Rgtb_false in E.
    assert (Hv0 : window_var s (length q) k = 0) by lra.
    pose proof (sumsq_znorm_unit q epsilon He Hs) as Hu.
    rewrite (bigsum_ext _ (fun _ => 0)) in Hu.
    + rewrite bigsum_zero in Hu. apply lt_0_INR in Hm. lra.
    + intros i Hi. specialize (H0 i Hi).
      rewrite (window_flat s (length q) k Hm Hv0 i Hi) in H0.
      assert (nth i (znorm q epsilon) 0 = 0).
      { unfold Rdiv in H0. lra. }
      rewrite H. ring.
Qed.

(** X18: in exact arithmetic, with a query whose deviation reaches
    [epsilon], the normalised distance of a window is 0, in either mode,
    exactly when the window is the query scaled by a positive factor and
    shifted by a constant. *)
Theorem X18_z_distance_zero_iff_affine_match (uninitialised : nat -> R)
    (Q S : ndarray) (mode : string) (epsilon : R) :
  valid_z_input Q S epsilon -> epsilon <= Np.std (arr_data Q) 0 ->
  exists D,
    zdist uninitialised Q S mode epsilon = ret D
    /\ forall k, (k < len S - len Q + 1)%nat ->
         (nth k D 0 = 0
          <-> exists a b, 0 < a
                /\ forall i, (i < len Q)%nat ->
                     nth (k + i) (arr_data S) 0
                     = a * nth i (arr_data Q) 0 + b).
Proof.
  intros Hz Hs. pose proof Hz as (Hv & He & _).
  pose proof (data_nonempty Q S Hv) as Hq.
  exists (map (z_sq_dist (arr_data Q) (arr_data S) epsilon)
              (seq 0 (len S - len Q + 1))).
  split.
  - destruct (string_dec mode "fft") as [->|Hmode].
    + rewrite zdist_fft_value by exact Hz. f_equal. apply map_ext. intros k.
      now apply z_paths_agree_at.
    + now apply zdist_direct_value.
  - intros k Hk. rewrite nth_map_seq by exact Hk. split.
    + now apply z_sq_dist_zero_match.
    + intros (a & b & Ha & H). now apply (z_sq_dist_affine_match _ _ _ a b).
Qed.

(** An instance of X18: the query [0, 1] with [epsilon = 1/2]. *)
Lemma X18_witness :
  exists D,
    zdist (fun _ => 0) (array1 float64 [0; 1]) (array1 float64 [5; 5; 7])
          "fft" (1 / 2) = ret D
    /\ forall k, (k < 2)%nat ->
         (nth k D 0 = 0
          <-> exists a b, 0 < a
                /\ forall i, (i < 2)%nat ->
                     nth (k + i) [5; 5; 7] 0 = a * nth i [0; 1] 0 + b).
Proof.
  apply (X18_z_distance_zero_iff_affine_match (fun _ => 0)
           (array1 float64 [0; 1]) (array1 float64 [5; 5; 7]) "fft" (1 / 2)).
  - apply valid_z_0_1; [simpl; lia | lra].
  - cbn [array1 arr_data]. rewrite std_0_1. lra.
Defined.

(** *** Two arrays of one length *)

Lemma valid_input_sym (Q S : ndarray) :
  valid_input Q S -> len Q = len S -> valid_input S Q.
Proof. unfold valid_input. intros (H1 & H2 & H3 & H4) E. repeat split; auto; lia. Qed.

Lemma sq_dist_sym (q s : list R) :
  length q = length s -> sq_dist q s 0 = sq_dist s q 0.
Proof.
  intros E. unfold sq_dist. rewrite E. apply bigsum_ext. intros i _.
  cbn [Nat.add]. ring.
Qed.

Lemma mean_sq_dist_sym (q s : list R) :
  q <> [] -> length q = length s ->
  mean_sq_dist q s 0 = mean_sq_dist s q 0.
Proof.
  intros Hq E. unfold mean_sq_dist.
  assert (Ws : window_mean s (length q) 0 = Np.mean s)
    by (rewrite E; apply whole_window_mean).
  assert (Wq : window_mean q (length s) 0 = Np.mean q)
    by (rewrite <- E; apply whole_window_mean).
  rewrite Ws, Wq, E. apply bigsum_ext. intros i Hi.
  rewrite !nth_mnorm by lia. cbn [Nat.add]. ring.
Qed.

Lemma z_sq_dist_sym (q s : list R) (epsilon : R) :
  0 < epsilon -> epsilon <= Np.std q 0 -> epsilon <= Np.std s 0 ->
  length q = length s ->
  z_sq_dist q s epsilon 0 = z_sq_dist s q epsilon 0.
Proof.
  intros He Hq Hs E. unfold z_sq_dist.
  assert (Ws : window_mean s (length q) 0 = Np.mean s)
    by (rewrite E; apply whole_window_mean).
  assert (Wq : window_mean q (length s) 0 = Np.mean q)
    by (rewrite <- E; apply whole_window_mean).
  assert (Ss : window_sigma s (length q) 0 epsilon = Np.std s 0)
    by (rewrite E; apply whole_window_sigma; lra).
  assert (Sq : window_sigma q (length s) 0 epsilon = Np.std q 0)
    by (rewrite <- E; apply whole_window_sigma; lra).
  rewrite Ws, Wq, Ss, Sq, E. apply bigsum_ext. intros i Hi.
  rewrite !nth_znorm, !py_max_std by (assumption || lia).
  cbn [Nat.add]. ring.
Qed.

(** X19: in exact arithmetic every distance between two arrays of one
    length is symmetric: the single entry of the result is the same
    whichever of the two is the query (for the normalised distance, when
    both deviations reach [epsilon]). *)
Theorem X19_distances_symmetric (uninitialised : nat -> R) (Q S : ndarray)
    (mode : string) :
  valid_input Q S -> len Q = len S ->
  (2 <= len Q)%nat \/ mode <> "fft"%string ->
  (exists d, sdist uninitialised Q S mode = ret [d]
             /\ sdist uninitialised S Q mode = ret [d])
  /\ (exists d, mdist uninitialised Q S mode = ret [d]
                /\ mdist uninitialised S Q mode = ret [d])
  /\ (forall epsilon,
        0 < epsilon -> epsilon <= Np.std (arr_data Q) 0 ->
        epsilon <= Np.std (arr_data S) 0 ->
        exists d, zdist uninitialised Q S mode epsilon = ret [d]
                  /\ zdist uninitialised S Q mode epsilon = ret [d]).
Proof.
  intros Hv E Hm. pose proof (valid_input_sym Q S Hv E) as Hv'.
  pose proof (data_nonempty Q S Hv) as Hq.
  assert (Hm' : (2 <= len S)%nat \/ mode <> "fft"%string)
    by (rewrite <- E; exact Hm).
  assert (HE : length (arr_data Q) = length (arr_data S)) by exact E.
  split; [|split].
  - exists (sq_dist (arr_data Q) (arr_data S) 0).
    rewrite !sdist_value by assumption. rewrite E, Nat.sub_diag.
    cbn [Nat.add seq map]. split; [reflexivity|].
    now rewrite (sq_dist_sym (arr_data Q) (arr_data S) HE).
  - exists (mean_sq_dist (arr_data Q) (arr_data S) 0).
    rewrite !mdist_value by assumption. rewrite E, Nat.sub_diag.
    cbn [Nat.add seq map]. split; [reflexivity|].
    now rewrite (mean_sq_dist_sym (arr_data Q) (arr_data S) Hq HE).
  - intros epsilon He HsQ HsS.
    assert (HzQ : valid_z_input Q S epsilon) by (repeat split; try apply Hv; lra).
    assert (HzS : valid_z_input S Q epsilon) by (repeat split; try apply Hv'; lra).
    exists (z_sq_dist (arr_data Q) (arr_data S) epsilon 0).
    assert (Hval : forall A B, valid_z_input A B epsilon ->
              epsilon <= Np.std (arr_data A) 0 ->
              zdist uninitialised A B mode epsilon
              = ret (map (z_sq_dist (arr_data A) (arr_data B) epsilon)
                         (seq 0 (len B - len A + 1)))).
    { intros A B HzA HsA. destruct (string_dec mode "fft") as [->|Hmode].
      - rewrite zdist_fft_value by exact HzA. f_equal. apply map_ext.
        intros k. apply z_paths_agree_at; try assumption.
        exact (data_nonempty A B (proj1 HzA)).
      - now apply zdist_direct_value. }
    rewrite !Hval by assumption. rewrite E, Nat.sub_diag.
    cbn [Nat.add seq map]. split; [reflexivity|].
    now rewrite (z_sq_dist_sym (arr_data Q) (arr_data S) epsilon He HsQ HsS HE).
Qed.

(** An instance of X19. *)
Lemma X19_witness :
  exists d, sdist (fun _ => 0) (array1 float64 [1; 2; 3])
                  (array1 float64 [4; 5; 6]) "fft" = ret [d]
            /\ sdist (fun _ => 0) (array1 float64 [4; 5; 6])
                     (array1 float64 [1; 2; 3]) "fft" = ret [d].
Proof.
  assert (Hv : valid_input (array1 float64 [1; 2; 3])
                           (array1 float64 [4; 5; 6])).
  { repeat split; cbn; lia. }
  assert (Hm : (2 <= len (array1 float64 [1; 2; 3]%R))%nat
               \/ "fft"%string <> "fft"%string).
  { left. cbn. lia. }
  exact (proj1 (X19_distances_symmetric (fun _ => 0)
                  (array1 float64 [1; 2; 3]) (array1 float64 [4; 5; 6])
                  "fft" Hv eq_refl Hm)).
Defined.

(** X20: in exact arithmetic neither the zero padding nor the
    refinement rounds change a value: on arrays of one element type with
    [2 <= len(Q) <= len(S)] each of the three transform-domain functions
    returns the same array for every positive alignment and every
    depth. *)
Theorem X20_alignment_and_depth_irrelevant (Q S : ndarray)
    (alignment alignment' Kahan Kahan' : nat) :
  arr_dtype Q = arr_dtype S -> (2 <= len Q <= len S)%nat ->
  (0 < alignment)%nat -> (0 < alignment')%nat ->
  (exists D, fft_sdist Q S alignment Kahan = ret D
             /\ fft_sdist Q S alignment' Kahan' = ret D)
  /\ (exists D, fft_mdist Q S alignment Kahan = ret D
                /\ fft_mdist Q S alignment' Kahan' = ret D)
  /\ (forall epsilon, 0 < epsilon ->
      exists D, fft_zdist Q S epsilon alignment Kahan = ret D
                /\ fft_zdist Q S epsilon alignment' Kahan' = ret D).
Proof.
  intros Hdt Hm Ha Ha'. split; [|split].
  - eexists. split; now apply fft_sdist_closed.
  - eexists. split; now apply fft_mdist_closed.
  - intros epsilon He. eexists. split; now apply fft_zdist_closed.
Qed.

(** An instance of X20: alignments 8 and 4, depths 0 and 3. *)
Lemma X20_witness :
  exists D, fft_sdist (array1 float64 [1; 2]) (array1 float64 [1; 2; 4])
                      8 0 = ret D
            /\ fft_sdist (array1 float64 [1; 2]) (array1 float64 [1; 2; 4])
                         4 3 = ret D.
Proof.
  assert (Hm : (2 <= len (array1 float64 [1; 2]%R)
                <= len (array1 float64 [1; 2; 4]%R))%nat) by (cbn; lia).
  assert (H8 : (0 < 8)%nat) by lia.
  assert (H4 : (0 < 4)%nat) by lia.
  exact (proj1 (X20_alignment_and_depth_irrelevant
                  (array1 float64 [1; 2]) (array1 float64 [1; 2; 4])
                  8 4 0 3 eq_refl Hm H8 H4)).
Defined.

(** X21: the launch configuration and the content of the output buffer
    before the launch have no effect on what a kernel leaves in it: any
    grid of at least one block of full warps (a positive [blockDim] that
    is a multiple of 32) gives the same result on any buffer of
    [len(S) + 1 - len(Q)] entries. *)
Theorem X21_launch_configuration_irrelevant
    (gridDim blockDim gridDim' blockDim' : nat) (Q S out out' : list R)
    (epsilon : R) :
  (0 < gridDim)%nat -> (0 < blockDim)%nat -> (blockDim mod 32 = 0)%nat ->
  (0 < gridDim')%nat -> (0 < blockDim')%nat -> (blockDim' mod 32 = 0)%nat ->
  length out = (length S + 1 - length Q)%nat ->
  length out' = (length S + 1 - length Q)%nat ->
  sdist_kernel gridDim blockDim Q S out
  = sdist_kernel gridDim' blockDim' Q S out'
  /\ mdist_kernel gridDim blockDim Q S out
     = mdist_kernel gridDim' blockDim' Q S out'
  /\ zdist_kernel gridDim blockDim Q S out epsilon
     = zdist_kernel gridDim' blockDim' Q S out' epsilon.
Proof.
  intros Hg Hb0 Hfull Hg' Hb0' Hfull' Ho Ho'.
  pose proof (full_warps blockDim Hb0 Hfull) as Hb.
  pose proof (full_warps blockDim' Hb0' Hfull') as Hb'.
  rewrite !sdist_kernel_closed, !mdist_kernel_closed, !zdist_kernel_closed
    by assumption.
  repeat split.
Qed.

(** An instance of X21: one block of one warp against the launch of the
    public operations. *)
Lemma X21_witness :
  sdist_kernel 1 32 [1; 2] [1; 2; 4] [7; 7]
  = sdist_kernel (80 * 32) 64 [1; 2] [1; 2; 4] [0; 0].
Proof.
  assert (H1 : (0 < 1)%nat) by lia.
  assert (H2 : (0 < 32)%nat) by lia.
  assert (H3 : (0 < 80 * 32)%nat) by lia.
  assert (H4 : (0 < 64)%nat) by lia.
  exact (proj1 (X21_launch_configuration_irrelevant 1 32 (80 * 32) 64
                  [1; 2] [1; 2; 4] [7; 7] [0; 0] 1 H1 H2 eq_refl
                  H3 H4 eq_refl eq_refl eq_refl)).
Defined.

(** *** The convolution theorem *)

(** One frequency of the plain product of two spectra, turned by [phi]. *)
Lemma re_plain_product_spectrum (x y : list R) (n f : nat) (phi : R) :
  Fft.re (Fft.cmul (Fft.cmul (Fft.dft x n f) (Fft.dft y n f)) (Fft.cis phi))
  = bigsum (fun j => bigsum (fun l =>
      nth j x 0 * nth l y 0
      * cos (Fft.angle n f j + Fft.angle n f l - phi)) n) n.
Proof.
  set (xc := fun j => nth j x 0 * cos (Fft.angle n f j)).
  set (xs := fun j => nth j x 0 * sin (Fft.angle n f j)).
  set (yc := fun l => nth l y 0 * cos (Fft.angle n f l)).
  set (ys := fun l => nth l y 0 * sin (Fft.angle n f l)).
  transitivity
    (bigsum (fun j => bigsum (fun l =>
       cos phi * (xc j * yc l) + (- cos phi) * (xs j * ys l)
       + sin phi * (xs j * yc l) + sin phi * (xc j * ys l)) n) n).
  - rewrite !bigsum2_plus, !bigsum2_scal_prod.
    unfold Fft.cmul, Fft.cis. cbn [Fft.re Fft.im fst snd].
    change (fst (Fft.dft x n f)) with (Fft.re (Fft.dft x n f)).
    change (snd (Fft.dft x n f)) with (Fft.im (Fft.dft x n f)).
    change (fst (Fft.dft y n f)) with (Fft.re (Fft.dft y n f)).
    change (snd (Fft.dft y n f)) with (Fft.im (Fft.dft y n f)).
    rewrite !re_dft, !im_dft. fold xc xs yc ys. ring.
  - apply bigsum_ext. intros j _. apply bigsum_ext. intros l _.
    unfold xc, xs, yc, ys.
    rewrite cos_minus, cos_plus, sin_plus. ring.
Qed.

Lemma nth_mul_from (X Y : nat -> Fft.C) (L : nat) : forall s f,
  (f < L)%nat ->
  nth f (Fft.mul (map X (seq s L)) (map Y (seq s L))) (0, 0)
  = Fft.cmul (X (s + f)%nat) (Y (s + f)%nat).
Proof.
  induction L as [|L IH]; intros s f Hf; [lia|].
  cbn [seq map Fft.mul]. destruct f as [|f].
  - cbn [nth]. now rewrite Nat.add_0_r.
  - cbn [nth]. rewrite IH by lia. now rewrite Nat.add_succ_r.
Qed.

(** The index the convolution pairs with [j] at offset [k]. *)
Lemma unwrap_index (n j k l : nat) :
  (j < n)%nat -> (k < n)%nat -> (l < n)%nat ->
  Nat.eqb k ((j + l) mod n) = Nat.eqb l ((k + n - j) mod n).
Proof.
  intros Hj Hk Hl.
  assert (Hjl : ((j + l) mod n
                 = if Nat.ltb (j + l) n then j + l else j + l - n)%nat).
  { destruct (Nat.ltb_spec (j + l) n) as [H|H].
    - now apply Nat.mod_small.
    - replace (j + l)%nat with ((j + l - n) + 1 * n)%nat at 1 by lia.
      rewrite Nat.Div0.mod_add. apply Nat.mod_small. lia. }
  assert (Hkj : ((k + n - j) mod n
                 = if Nat.leb j k then k - j else k + n - j)%nat).
  { destruct (Nat.leb_spec j k) as [H|H].
    - replace (k + n - j)%nat with ((k - j) + 1 * n)%nat by lia.
      rewrite Nat.Div0.mod_add. apply Nat.mod_small. lia.
    - apply Nat.mod_small. lia. }
  rewrite Hjl, Hkj.
  destruct (Nat.ltb_spec (j + l) n), (Nat.leb_spec j k);
    destruct (Nat.eqb_spec k (j + l)), (Nat.eqb_spec k (j + l - n));
    try destruct (Nat.eqb_spec l (k - j));
    try destruct (Nat.eqb_spec l (k + n - j)); try reflexivity; lia.
Qed.

(** The convolution theorem for the real transforms. *)
Lemma convolve_circular (x y : list R) (n : nat) :
  (0 < n)%nat -> length x = n -> length y = n ->
  convolve x y n = ret (map (circular_convolution x y n) (seq 0 n)).
Proof.
  intros Hn Hx Hy.
  assert (Hn0 : INR n <> 0) by (apply not_0_INR; lia).
  unfold convolve, Fft.rfft, Fft.irfft. rewrite Hx, Hy.
  destruct (Nat.eqb_spec n 0) as [|_]; [lia|].
  rewrite !bind_ret. f_equal. apply map_ext_in. intros k Hk.
  apply in_seq in Hk. unfold circular_convolution.
  apply (Rmult_eq_reg_r (INR n)); [|exact Hn0].
  unfold Rdiv. rewrite Rmult_assoc, Rinv_l, Rmult_1_r by exact Hn0.
  rewrite <- bigsum_scal_r.
  transitivity
    (bigsum (fun f => bigsum (fun j => bigsum (fun l =>
       nth j x 0 * nth l y 0
       * (Fft.weight n f
          * cos (Fft.angle n f j + Fft.angle n f l - Fft.angle n f k))) n) n)
       (n / 2 + 1)).
  { apply bigsum_ext. intros f Hf. rewrite nth_mul_from by exact Hf.
    cbn [Nat.add].
    rewrite re_plain_product_spectrum, <- bigsum_scal.
    apply bigsum_ext. intros j _. rewrite <- bigsum_scal.
    apply bigsum_ext. intros l _. ring. }
  rewrite bigsum_swap. apply bigsum_ext. intros j Hj.
  rewrite bigsum_swap.
  rewrite (bigsum_ext _ (fun l => if Nat.eqb l ((k + n - j) mod n)
                                  then nth j x 0 * nth l y 0 * INR n else 0)).
  - rewrite bigsum_single by (apply Nat.mod_upper_bound; lia). reflexivity.
  - intros l Hl. rewrite bigsum_scal, kernel_sum by lia.
    rewrite unwrap_index by lia.
    destruct (Nat.eqb l ((k + n - j) mod n)); ring.
Qed.

(** *** The synthetic series *)

Lemma length_slice_to (z : Z) (l : list R) :
  (0 <= z <= Z.of_nat (length l))%Z ->
  length (Np.slice_to z l) = Z.to_nat z.
Proof.
  intros H. unfold Np.slice_to. destruct (Z.ltb_spec z 0); [lia|].
  rewrite length_firstn. lia.
Qed.

Lemma length_slice_from (z : Z) (l : list R) :
  (0 <= z <= Z.of_nat (length l))%Z ->
  length (Np.slice_from z l) = (length l - Z.to_nat z)%nat.
Proof.
  intros H. unfold Np.slice_from. destruct (Z.ltb_spec z 0); [lia|].
  rewrite length_skipn. lia.
Qed.

Lemma length_linspace (start stop : R) (num : nat) :
  length (linspace start stop num) = num.
Proof. unfold linspace. now rewrite length_map, length_seq. Qed.

Lemma length_kernel (beta : R) (n : nat) :
  length (FakeSeriesGenerator.kernel beta n) = n.
Proof.
  unfold FakeSeriesGenerator.kernel. now rewrite !length_map, length_linspace.
Qed.

Lemma length_uniform (sample : option Z -> nat -> nat -> R) (seed : option Z)
    (n : nat) :
  length (FakeSeriesGenerator.uniform sample seed n) = n.
Proof. unfold FakeSeriesGenerator.uniform. apply length_map_seq. Qed.

Lemma nth_uniform (sample : option Z -> nat -> nat -> R) (seed : option Z)
    (n j : nat) :
  (j < n)%nat ->
  nth j (FakeSeriesGenerator.uniform sample seed n) 0 = sample seed n j.
Proof. intros Hj. unfold FakeSeriesGenerator.uniform. now apply nth_map_seq. Qed.

Lemma sum_square_nonneg (l : list R) : 0 <= Np.sum (Np.square l).
Proof.
  induction l as [|v l IH]; [simpl; lra|].
  cbn [Np.square map Np.sum fold_right].
  change (fold_right Rplus 0 (map (fun v => v * v) l))
    with (Np.sum (Np.square l)).
  nra.
Qed.

Lemma sum_square_pos (l : list R) :
  l <> [] -> (forall v, In v l -> 0 < v) -> 0 < Np.sum (Np.square l).
Proof.
  intros Hl Hp. destruct l as [|v l]; [congruence|].
  cbn [Np.square map Np.sum fold_right].
  change (fold_right Rplus 0 (map (fun v => v * v) l))
    with (Np.sum (Np.square l)).
  pose proof (sum_square_nonneg l). pose proof (Hp v (or_introl eq_refl)).
  nra.
Qed.

Lemma sum_square_scaled (c : R) (l : list R) :
  c <> 0 ->
  Np.sum (Np.square (map (fun v => v / c) l))
  = Np.sum (Np.square l) / (c * c).
Proof.
  intros Hc. induction l as [|v l IH]; [simpl; field; exact Hc|].
  cbn [Np.square map Np.sum fold_right].
  change (fold_right Rplus 0 (map (fun v => v * v) (map (fun v => v / c) l)))
    with (Np.sum (Np.square (map (fun v => v / c) l))).
  change (fold_right Rplus 0 (map (fun v => v * v) l))
    with (Np.sum (Np.square l)).
  rewrite IH. field. exact Hc.
Qed.

Lemma exp_monotone (x y : R) : x <= y -> exp x <= exp y.
Proof.
  intros [H| ->]; [left; now apply exp_increasing | right; reflexivity].
Qed.

(** The energy of the kernel before it is scaled. *)
Lemma decay_energy_positive (beta : R) (n : nat) :
  (0 < n)%nat ->
  0 < Np.sum (Np.square (map (fun v => exp (- beta * v)) (linspace 0 1 n))).
Proof.
  intros Hn. apply sum_square_pos.
  - intros E. apply (f_equal (@length R)) in E.
    rewrite length_map, length_linspace in E. simpl in E. lia.
  - intros v Hv. apply in_map_iff in Hv. destruct Hv as (t & <- & _).
    apply exp_pos.
Qed.

Lemma nth_kernel (beta : R) (n i : nat) :
  (i < n)%nat ->
  nth i (FakeSeriesGenerator.kernel beta n) 0
  = exp (- beta * (INR i * (1 / INR (n - 1))))
    / sqrt (Np.sum (Np.square (map (fun v => exp (- beta * v))
                                   (linspace 0 1 n)))).
Proof.
  intros Hi. unfold FakeSeriesGenerator.kernel.
  rewrite nth_map_in by (now rewrite length_map, length_linspace).
  rewrite nth_map_in by (now rewrite length_linspace).
  unfold linspace at 1. rewrite nth_map_seq by exact Hi.
  f_equal. f_equal. unfold Rdiv. ring.
Qed.

Lemma kernel_energy (beta : R) (n : nat) :
  (0 < n)%nat -> Np.sum (Np.square (FakeSeriesGenerator.kernel beta n)) = 1.
Proof.
  intros Hn. pose proof (decay_energy_positive beta n Hn) as HE.
  unfold FakeSeriesGenerator.kernel.
  set (raw := map (fun v => exp (- beta * v)) (linspace 0 1 n)) in *.
  assert (Hc : sqrt (Np.sum (Np.square raw)) <> 0).
  { pose proof (sqrt_lt_R0 _ HE). lra. }
  rewrite sum_square_scaled by exact Hc.
  rewrite sqrt_sqrt by lra. field. lra.
Qed.

Lemma kernel_positive (beta : R) (n i : nat) :
  (i < n)%nat -> 0 < nth i (FakeSeriesGenerator.kernel beta n) 0.
Proof.
  intros Hi. rewrite nth_kernel by exact Hi.
  pose proof (sqrt_lt_R0 _ (decay_energy_positive beta n ltac:(lia))).
  apply Rdiv_lt_0_compat; [apply exp_pos | assumption].
Qed.

Lemma kernel_decreasing (beta : R) (n i j : nat) :
  0 <= beta -> (i <= j)%nat -> (j < n)%nat ->
  nth j (FakeSeriesGenerator.kernel beta n) 0
  <= nth i (FakeSeriesGenerator.kernel beta n) 0.
Proof.
  intros Hb Hij Hj. rewrite !nth_kernel by lia.
  pose proof (sqrt_lt_R0 _ (decay_energy_positive beta n ltac:(lia))) as Hc.
  apply Rmult_le_compat_r; [left; now apply Rinv_0_lt_compat|].
  apply exp_monotone.
  destruct (Nat.eq_dec i j) as [->|Hne]; [lra|].
  assert (Hn : 0 < INR (n - 1)) by (apply lt_0_INR; lia).
  assert (Ht : 0 <= 1 / INR (n - 1))
    by (left; apply Rdiv_lt_0_compat; lra).
  assert (Hle : INR i <= INR j) by (apply le_INR; lia).
  set (t := 1 / INR (n - 1)) in *.
  assert (Hit : INR i * t <= INR j * t) by (apply Rmult_le_compat_r; lra).
  nra.
Qed.

(** Summing over the indices the convolution pairs with [0 .. n-1] is
    summing over [0 .. n-1]. *)
Lemma bigsum_unwrap (f : nat -> R) (n k : nat) :
  (k < n)%nat ->
  bigsum (fun j => f ((k + n - j) mod n)%nat) n = bigsum f n.
Proof.
  intros Hk.
  rewrite (bigsum_ext _ (fun j => bigsum (fun l =>
             if Nat.eqb l ((k + n - j) mod n) then f l else 0) n)).
  2:{ intros j Hj. now rewrite bigsum_single by (apply Nat.mod_upper_bound; lia). }
  rewrite bigsum_swap. apply bigsum_ext. intros l Hl.
  rewrite (bigsum_ext _ (fun j => if Nat.eqb j ((k + n - l) mod n)
                                  then f l else 0)).
  - now rewrite (bigsum_single (fun _ => f l))
      by (apply Nat.mod_upper_bound; lia).
  - intros j Hj. rewrite <- (unwrap_index n j k l) by lia.
    rewrite <- (unwrap_index n l k j) by lia.
    now rewrite (Nat.add_comm j l).
Qed.

(** What the constructor returns when its assertions hold. *)
Lemma init_returns (sample : option Z -> nat -> nat -> R)
    (query_length subject_length seed beta : value) (a b : Z) (r : R) :
  as_int query_length = Some a -> as_int subject_length = Some b ->
  as_float beta = Some r -> (0 < a <= b)%Z -> 0 <= r ->
  FakeSeriesGenerator.init sample query_length subject_length seed beta
  = ret (FakeSeriesGenerator.mk a b r
           (map (circular_convolution
                   (FakeSeriesGenerator.uniform sample (as_int seed)
                                                (Z.to_nat (b + a)))
                   (FakeSeriesGenerator.kernel r (Z.to_nat (b + a)))
                   (Z.to_nat (b + a)))
                (seq 0 (Z.to_nat (b + a))))).
Proof.
  intros Ha Hb Hr Hab Hr0.
  unfold FakeSeriesGenerator.init, int_of, float_of. rewrite Ha, Hb, Hr.
  destruct (Z.ltb_spec 0 a) as [_|]; [|lia].
  destruct (Z.ltb_spec 0 b) as [_|]; [|lia].
  destruct (Z.leb_spec a b) as [_|]; [|lia].
  unfold Rgeb. destruct (Rle_dec 0 r) as [_|]; [|lra].
  cbn [assert bind ret].
  rewrite convolve_circular
    by (try apply length_uniform; try apply length_kernel; lia).
  reflexivity.
Qed.

(** X22: when its assertions hold the constructor returns, its signal has
    [subject_length + query_length] samples, the query has
    [query_length] of them and the subject the other [subject_length]:
    the pair is valid input of the distances. *)
Theorem X22_generator_shapes (sample : option Z -> nat -> nat -> R)
    (query_length subject_length seed beta : value) (a b : Z) (r : R) :
  as_int query_length = Some a -> as_int subject_length = Some b ->
  as_float beta = Some r -> (0 < a <= b)%Z -> 0 <= r ->
  exists self,
    FakeSeriesGenerator.init sample query_length subject_length seed beta
    = ret self
    /\ length (FakeSeriesGenerator.self_signal self) = Z.to_nat (b + a)
    /\ length (FakeSeriesGenerator.query self) = Z.to_nat a
    /\ length (FakeSeriesGenerator.subject self) = Z.to_nat b
    /\ valid_input (array1 float64 (FakeSeriesGenerator.query self))
                   (array1 float64 (FakeSeriesGenerator.subject self)).
Proof.
  intros Ha Hb Hr Hab Hr0. eexists. split; [exact (init_returns sample _ _ seed _ a b r Ha Hb Hr Hab Hr0)|].
  set (sig := map _ (seq 0 (Z.to_nat (b + a)))).
  assert (Hs : length sig = Z.to_nat (b + a)) by apply length_map_seq.
  assert (Hq : length (FakeSeriesGenerator.query
                         (FakeSeriesGenerator.mk a b r sig)) = Z.to_nat a).
  { unfold FakeSeriesGenerator.query.
    cbn [FakeSeriesGenerator.self_query_length
         FakeSeriesGenerator.self_signal].
    rewrite length_map, length_slice_to; [reflexivity | rewrite Hs; lia]. }
  assert (Hsub : length (FakeSeriesGenerator.subject
                           (FakeSeriesGenerator.mk a b r sig)) = Z.to_nat b).
  { unfold FakeSeriesGenerator.subject.
    cbn [FakeSeriesGenerator.self_query_length
         FakeSeriesGenerator.self_signal].
    rewrite length_slice_from; rewrite Hs; lia. }
  cbn [FakeSeriesGenerator.self_signal].
  split; [exact Hs|]. split; [exact Hq|]. split; [exact Hsub|].
  apply valid_array1. rewrite Hq, Hsub. lia.
Qed.

(** An instance of X22: a query of 1 and a subject of 2 samples. *)
Lemma X22_witness :
  exists self,
    FakeSeriesGenerator.init (fun _ _ _ => 0) (VInt 1) (VInt 2) VOther
                             (VFloat 1)
    = ret self
    /\ length (FakeSeriesGenerator.self_signal self) = Z.to_nat (2 + 1)
    /\ length (FakeSeriesGenerator.query self) = Z.to_nat 1
    /\ length (FakeSeriesGenerator.subject self) = Z.to_nat 2
    /\ valid_input (array1 float64 (FakeSeriesGenerator.query self))
                   (array1 float64 (FakeSeriesGenerator.subject self)).
Proof.
  assert (H1 : (0 < 1 <= 2)%Z) by lia.
  assert (H2 : 0 <= 1) by lra.
  exact (X22_generator_shapes (fun _ _ _ => 0) (VInt 1) (VInt 2) VOther
           (VFloat 1) 1 2 1 eq_refl eq_refl eq_refl H1 H2).
Defined.

(** X24: the signal is the circular convolution of the noise with the
    kernel: sample [k] is the sum over [j] of the noise at [j] times the
    kernel at [(k - j) mod n], [n] the length of the signal. *)
Theorem X24_generator_signal (sample : option Z -> nat -> nat -> R)
    (query_length subject_length seed beta : value) (a b : Z) (r : R) :
  as_int query_length = Some a -> as_int subject_length = Some b ->
  as_float beta = Some r -> (0 < a <= b)%Z -> 0 <= r ->
  exists self,
    FakeSeriesGenerator.init sample query_length subject_length seed beta
    = ret self
    /\ forall k, (k < Z.to_nat (b + a))%nat ->
         nth k (FakeSeriesGenerator.self_signal self) 0
         = bigsum (fun j =>
                     sample (as_int seed) (Z.to_nat (b + a)) j
                     * nth ((k + Z.to_nat (b + a) - j) mod Z.to_nat (b + a))
                           (FakeSeriesGenerator.kernel r (Z.to_nat (b + a)))
                           0)
                  (Z.to_nat (b + a)).
Proof.
  intros Ha Hb Hr Hab Hr0. eexists. split; [exact (init_returns sample _ _ seed _ a b r Ha Hb Hr Hab Hr0)|].
  intros k Hk. cbn [FakeSeriesGenerator.self_signal].
  rewrite nth_map_seq by exact Hk. unfold circular_convolution.
  apply bigsum_ext. intros j Hj. now rewrite nth_uniform.
Qed.

(** An instance of X24: the noise [1, -1, 1/2] drawn with seed 7. *)
Lemma X24_witness :
  exists self,
    FakeSeriesGenerator.init
      (fun _ _ j => match j with O => 1 | S O => -1 | _ => 1 / 2 end)
      (VInt 1) (VInt 2) (VInt 7) (VFloat 1)
    = ret self
    /\ forall k, (k < Z.to_nat (2 + 1))%nat ->
         nth k (FakeSeriesGenerator.self_signal self) 0
         = bigsum (fun j =>
                     match j with O => 1 | S O => -1 | _ => 1 / 2 end
                     * nth ((k + Z.to_nat (2 + 1) - j) mod Z.to_nat (2 + 1))
                           (FakeSeriesGenerator.kernel 1 (Z.to_nat (2 + 1)))
                           0)
                  (Z.to_nat (2 + 1)).
Proof.
  assert (H1 : (0 < 1 <= 2)%Z) by lia.
  assert (H2 : 0 <= 1) by lra.
  exact (X24_generator_signal
           (fun _ _ j => match j with O => 1 | S O => -1 | _ => 1 / 2 end)
           (VInt 1) (VInt 2) (VInt 7) (VFloat 1) 1 2 1
           eq_refl eq_refl eq_refl H1 H2).
Defined.

(** X25: in exact arithmetic the kernel has as many entries as asked
    for, all of them positive, their squares add up to 1, and for a
    [beta] that is not negative they never increase. *)
Theorem X25_kernel_unit_energy (beta : R) (n : nat) :
  (0 < n)%nat ->
  length (FakeSeriesGenerator.kernel beta n) = n
  /\ Np.sum (Np.square (FakeSeriesGenerator.kernel beta n)) = 1
  /\ (forall i, (i < n)%nat ->
                0 < nth i (FakeSeriesGenerator.kernel beta n) 0)
  /\ (0 <= beta ->
      forall i j, (i <= j)%nat -> (j < n)%nat ->
        nth j (FakeSeriesGenerator.kernel beta n) 0
        <= nth i (FakeSeriesGenerator.kernel beta n) 0).
Proof.
  intros Hn. split; [apply length_kernel|].
  split; [now apply kernel_energy|].
  split; [intros i Hi; now apply kernel_positive|].
  intros Hb i j Hij Hj. now apply kernel_decreasing.
Qed.

(** An instance of X25. *)
Lemma X25_witness :
  Np.sum (Np.square (FakeSeriesGenerator.kernel 1 3)) = 1.
Proof.
  assert (H : (0 < 3)%nat) by lia.
  exact (proj1 (proj2 (X25_kernel_unit_energy 1 3 H))).
Defined.

Lemma bigsum_le (f g : nat -> R) (n : nat) :
  (forall i, (i < n)%nat -> f i <= g i) -> bigsum f n <= bigsum g n.
Proof.
  induction n as [|n IH]; intros H; simpl; [lra|].
  specialize (H n (Nat.lt_succ_diag_r n)) as Hn.
  assert (bigsum f n <= bigsum g n) by (apply IH; intros; apply H; lia). lra.
Qed.

(** A convolution with a kernel of unit energy is bounded by the energy
    of the other array. *)
Lemma convolution_bound (x y : list R) (n k : nat) :
  (k < n)%nat -> length y = n -> Np.sum (Np.square y) = 1 ->
  circular_convolution x y n k * circular_convolution x y n k
  <= bigsum (fun j => nth j x 0 * nth j x 0) n.
Proof.
  intros Hk Hy Hu. unfold circular_convolution.
  pose proof (cauchy_schwarz (fun j => nth j x 0)
                (fun j => nth ((k + n - j) mod n) y 0) n) as CS.
  cbv beta in CS.
  rewrite (bigsum_unwrap (fun l => nth l y 0 * nth l y 0) n k Hk) in CS.
  rewrite sum_square_bigsum, Hy in Hu. rewrite Hu, Rmult_1_r in CS.
  exact CS.
Qed.

(** X26: no sample of the signal is larger in magnitude than the root of
    the number of samples: with the noise in [-1, 1] the square of every
    sample is at most [subject_length + query_length]. *)
Theorem X26_generator_signal_bounded (sample : option Z -> nat -> nat -> R)
    (query_length subject_length seed beta : value) (a b : Z) (r : R) :
  as_int query_length = Some a -> as_int subject_length = Some b ->
  as_float beta = Some r -> (0 < a <= b)%Z -> 0 <= r ->
  (forall j, (j < Z.to_nat (b + a))%nat ->
             -1 <= sample (as_int seed) (Z.to_nat (b + a)) j <= 1) ->
  exists self,
    FakeSeriesGenerator.init sample query_length subject_length seed beta
    = ret self
    /\ forall k, (k < Z.to_nat (b + a))%nat ->
         nth k (FakeSeriesGenerator.self_signal self) 0
         * nth k (FakeSeriesGenerator.self_signal self) 0
         <= INR (Z.to_nat (b + a)).
Proof.
  intros Ha Hb Hr Hab Hr0 Hnoise. eexists.
  split; [exact (init_returns sample _ _ seed _ a b r Ha Hb Hr Hab Hr0)|].
  intros k Hk. cbn [FakeSeriesGenerator.self_signal].
  rewrite nth_map_seq by exact Hk.
  eapply Rle_trans.
  - apply convolution_bound;
      [exact Hk | apply length_kernel | apply kernel_energy; lia].
  - rewrite <- (Rmult_1_r (INR (Z.to_nat (b + a)))), <- bigsum_const.
    apply bigsum_le. intros j Hj. rewrite nth_uniform by exact Hj.
    specialize (Hnoise j Hj). nra.
Qed.

(** An instance of X26: the noise [1, -1, 1/2] drawn with seed 7. *)
Lemma X26_witness :
  exists self,
    FakeSeriesGenerator.init
      (fun _ _ j => match j with O => 1 | S O => -1 | _ => 1 / 2 end)
      (VInt 1) (VInt 2) (VInt 7) (VFloat 1)
    = ret self
    /\ forall k, (k < Z.to_nat (2 + 1))%nat ->
         nth k (FakeSeriesGenerator.self_signal self) 0
         * nth k (FakeSeriesGenerator.self_signal self) 0
         <= INR (Z.to_nat (2 + 1)).
Proof.
  assert (H1 : (0 < 1 <= 2)%Z) by lia.
  assert (H2 : 0 <= 1) by lra.
  assert (H3 : forall j : nat, (j < Z.to_nat (2 + 1))%nat ->
                 -1 <= match j with O => 1 | S O => -1 | _ => 1 / 2 end <= 1)
    by (intros [|[|j]] _; lra).
  exact (X26_generator_signal_bounded
           (fun _ _ j => match j with O => 1 | S O => -1 | _ => 1 / 2 end)
           (VInt 1) (VInt 2) (VInt 7) (VFloat 1) 1 2 1
           eq_refl eq_refl eq_refl H1 H2 H3).
Defined.








